(** * Case lifecycle and audit-event engine

    A shallow embedding of [src/models/cases.js] (the engine) and of the
    parts of [src/server.js] that consume it (the change-summary builder and
    the HTTP routes), together with a model of the relational store the
    engine talks to.

    JavaScript values are modelled by the primitives this program handles:
    [undefined], [null], booleans, strings and integral numbers (the integer
    columns and parsed form inputs; fractional numbers are outside the
    model).  Objects are finite maps from property names to primitives. *)

From stdpp Require Import gmap strings list fin_maps pretty sorting.
From Stdlib Require Import ZArith Lia Ascii String.

Local Open Scope string_scope.
Local Open Scope Z_scope.

(** ** JavaScript values *)

Inductive prim : Type :=
| PUndefined
| PNull
| PBool (b : bool)
| PNum (z : Z)
| PStr (s : string).

#[global] Instance prim_eq_dec : EqDecision prim.
Proof. solve_decision. Defined.

(** A flat object: own properties holding primitives. *)
Abbreviation obj := (gmap string prim).

Inductive jsval : Type :=
| VPrim (p : prim)
| VObj (o : obj).

#[global] Instance jsval_eq_dec : EqDecision jsval.
Proof. solve_decision. Defined.

Definition truthy (p : prim) : bool :=
  match p with
  | PUndefined | PNull => false
  | PBool b => b
  | PNum z => negb (z =? 0)
  | PStr s => negb (String.eqb s "")
  end.

Definition truthy_val (v : jsval) : bool :=
  match v with
  | VPrim p => truthy p
  | VObj _ => true
  end.

(** [a || b] *)
Definition js_or (a b : prim) : prim := if truthy a then a else b.

(** [a ?? b] *)
Definition nullish (a b : prim) : prim :=
  match a with
  | PUndefined | PNull => b
  | _ => a
  end.

(** [a === b] on primitives (there is no NaN among them). *)
Definition strict_eq (a b : prim) : bool := bool_decide (a = b).

(** [o[k]] for a flat object: a missing property reads as [undefined]. *)
Definition prop (o : obj) (k : string) : prim := default PUndefined (o !! k).

(** [v.k] for a value that is already known not to be nullish.  None of the
    property names used by this program lives on a primitive's prototype, so
    reading one from a primitive gives [undefined]. *)
Definition member (v : jsval) (k : string) : prim :=
  match v with
  | VObj o => prop o k
  | VPrim _ => PUndefined
  end.

(** ** Snapshot (models/cases.js, pickCaseSnapshot) *)

Definition snapshot_keys : list string :=
  [ "title"; "description"; "person_name"; "nhs_number";
    "dob_day"; "dob_month"; "dob_year";
    "symptoms_day"; "symptoms_month"; "symptoms_year";
    "postcode"; "organisation"; "updated_by"; "assigned_to"; "state" ].

Definition pickCaseSnapshot (c : jsval) : jsval :=
  if negb (truthy_val c) then VPrim PNull
  else VObj (list_to_map
    [ ("title", nullish (member c "title") PNull);
      ("description", nullish (member c "description") PNull);
      ("person_name", nullish (member c "person_name") PNull);
      ("nhs_number", nullish (member c "nhs_number") PNull);
      ("dob_day", nullish (member c "dob_day") PNull);
      ("dob_month", nullish (member c "dob_month") PNull);
      ("dob_year", nullish (member c "dob_year") PNull);
      ("symptoms_day", nullish (member c "symptoms_day") PNull);
      ("symptoms_month", nullish (member c "symptoms_month") PNull);
      ("symptoms_year", nullish (member c "symptoms_year") PNull);
      ("postcode", nullish (member c "postcode") PNull);
      ("organisation", nullish (member c "organisation") PNull);
      ("updated_by", nullish (member c "updated_by") PNull);
      ("assigned_to", nullish (member c "assigned_to") PNull);
      ("state", nullish (member c "state") PNull) ]).

(** The two values JavaScript itself uses for "nothing here". *)
Definition ambient_null (p : prim) : Prop := p = PUndefined ∨ p = PNull.

(** ** The host runtime

    What the program takes from the JavaScript runtime and from the store's
    input functions rather than defining itself. *)

Class Host := {
  (** [Number(s)] for a string; [None] is NaN. *)
  StringToNumber : string → option Z;
  (** [new Date(y, m, d).getTime()], local time; [None] is NaN. *)
  Date_getTime : Z → Z → Z → option Z;
  (** [d.toLocaleDateString("en-GB", {day: "numeric", month: "long",
      year: "numeric"})] for the date with the given time value. *)
  toLocaleDateString : Z → string;
  (** [s.trim()] *)
  trim : string → string;
  (** the store's text-to-integer input function; [None] is a syntax error *)
  int4in : string → option Z;
  (** what [String(x)] writes before [e+n] for a number [x] of magnitude 1e21
      or more: the sign and the digits [d.ddd] of the shortest decimal that
      reads back as [x] *)
  exponent_mantissa : Z → string;
  (** the store's input function of the type [uuid], which reads a uuid in
      any spelling it accepts: the canonical text of the value, or [None] for
      a syntax error *)
  uuid_in : string → option string;
  (** the canonical text of the uuid [gen_random_uuid()] makes of its random
      bits *)
  uuid_out : N → string;
  (** a canonical text is read as itself *)
  uuid_in_canonical : ∀ s k, uuid_in s = Some k → uuid_in k = Some k;
  uuid_in_out : ∀ n, uuid_in (uuid_out n) = Some (uuid_out n)
}.

(** A host for running examples: decimal parsing, day/month/year dates
    without calendar overflow, exact digits in exponent notation, and uuids
    in their canonical spelling only (32 lowercase hexadecimal digits in
    groups of 8, 4, 4, 4 and 12). *)
Definition month_names : list string :=
  [ "January"; "February"; "March"; "April"; "May"; "June"; "July";
    "August"; "September"; "October"; "November"; "December" ].

Definition digit_of (a : ascii) : option Z :=
  let n := Z.of_nat (nat_of_ascii a) in
  if (48 <=? n) && (n <=? 57) then Some (n - 48) else None.

Fixpoint parse_digits (acc : Z) (s : string) : option Z :=
  match s with
  | EmptyString => Some acc
  | String a s' =>
      match digit_of a with
      | Some d => parse_digits (10 * acc + d) s'
      | None => None
      end
  end.

Definition parse_decimal (s : string) : option Z :=
  match s with
  | EmptyString => None
  | _ => parse_digits 0 s
  end.

(** The digits after the first, without the zeros they end in. *)
Fixpoint strip_zeros (s : string) : string :=
  match s with
  | EmptyString => EmptyString
  | String a s' =>
      match strip_zeros s' with
      | EmptyString => if Ascii.eqb a "0" then EmptyString else String a EmptyString
      | t => String a t
      end
  end.

Definition sample_mantissa (z : Z) : string :=
  (if z <? 0 then "-" else "") +:+
  match pretty (Z.abs z) with
  | String d rest =>
      String d (match strip_zeros rest with
                | EmptyString => ""
                | t => "." +:+ t
                end)
  | EmptyString => ""
  end.

Definition is_hex_digit (a : ascii) : bool :=
  let n := nat_of_ascii a in
  ((48 <=? n) && (n <=? 57) || (97 <=? n) && (n <=? 102))%nat.

(** [n] hexadecimal digits, and what follows them. *)
Fixpoint hex_group (n : nat) (s : string) : option string :=
  match n with
  | O => Some s
  | S n =>
      match s with
      | String a s' => if is_hex_digit a then hex_group n s' else None
      | EmptyString => None
      end
  end.

Definition dash (s : string) : option string :=
  match s with
  | String a s' => if Ascii.eqb a "-" then Some s' else None
  | EmptyString => None
  end.

(** Groups of hexadecimal digits of the given lengths with a dash between
    them, and what follows them. *)
Fixpoint hex_groups (lengths : list nat) (s : string) : option string :=
  match lengths with
  | [] => Some s
  | n :: lengths' =>
      match hex_group n s with
      | None => None
      | Some s' =>
          match lengths' with
          | [] => Some s'
          | _ =>
              match dash s' with
              | None => None
              | Some s'' => hex_groups lengths' s''
              end
          end
      end
  end.

Definition is_uuid_text (s : string) : bool :=
  match hex_groups [8; 4; 4; 4; 12]%nat s with
  | Some EmptyString => true
  | _ => false
  end.

Definition sample_uuid_in (s : string) : option string :=
  if is_uuid_text s then Some s else None.

Definition hex_digit (n : N) : ascii :=
  match n with
  | 0 => "0" | 1 => "1" | 2 => "2" | 3 => "3" | 4 => "4" | 5 => "5" | 6 => "6" | 7 => "7"
  | 8 => "8" | 9 => "9" | 10 => "a" | 11 => "b" | 12 => "c" | 13 => "d" | 14 => "e"
  | 15 => "f" | _ => "0"
  end%char%N.

(** The last [k] hexadecimal digits of [n]. *)
Fixpoint hex_text (k : nat) (n : N) : string :=
  match k with
  | O => EmptyString
  | S k' => String (hex_digit ((n `div` 16 ^ N.of_nat k') `mod` 16)%N) (hex_text k' n)
  end.

Definition sample_uuid_out (n : N) : string :=
  "00000000-0000-4000-8000-" +:+ hex_text 12 n.

Lemma is_hex_digit_hex_digit n : is_hex_digit (hex_digit n) = true.
Proof.
  destruct n as [|p]; [reflexivity|].
  do 5 (try (destruct p as [p|p|]; try reflexivity)).
Qed.

Lemma hex_group_hex_text k n : hex_group k (hex_text k n) = Some EmptyString.
Proof.
  induction k as [|k IH]; [reflexivity|].
  cbn [hex_text hex_group]. by rewrite is_hex_digit_hex_digit.
Qed.

Lemma sample_uuid_in_canonical s k : sample_uuid_in s = Some k → sample_uuid_in k = Some k.
Proof.
  unfold sample_uuid_in. destruct (is_uuid_text s) eqn:E; [|done].
  intros [= <-]. by rewrite E.
Qed.

Lemma sample_uuid_in_out n : sample_uuid_in (sample_uuid_out n) = Some (sample_uuid_out n).
Proof.
  unfold sample_uuid_in.
  assert (is_uuid_text (sample_uuid_out n) = true) as ->; [|done].
  unfold sample_uuid_out. generalize (hex_group_hex_text 12 n).
  generalize (hex_text 12 n). intros t Ht.
  change (match (match hex_group 12 t with
                 | None => None
                 | Some s' => Some s'
                 end) with
          | Some EmptyString => true
          | _ => false
          end = true).
  by rewrite Ht.
Qed.

Definition sample_host : Host := {|
  StringToNumber s := if String.eqb s "" then Some 0 else parse_decimal s;
  Date_getTime y m d :=
    if (0 <=? m) && (m <? 12) && (1 <=? d) && (d <=? 28) && (100 <=? y) && (y <=? 9999)
    then Some ((y * 12 + m) * 31 + (d - 1)) else None;
  toLocaleDateString t :=
    pretty (t `mod` 31 + 1) +:+ " " +:+
    default "" (month_names !! Z.to_nat ((t `div` 31) `mod` 12)) +:+ " " +:+
    pretty ((t `div` 31) `div` 12);
  trim s := s;
  int4in := parse_decimal;
  exponent_mantissa := sample_mantissa;
  uuid_in := sample_uuid_in;
  uuid_out := sample_uuid_out;
  uuid_in_canonical := sample_uuid_in_canonical;
  uuid_in_out := sample_uuid_in_out
|}.

Section Program.
Context {host : Host}.

(** [String(p)].  A whole number below 1e21 in magnitude is written with all
    its digits, a larger one in exponent notation. *)
Definition js_String (p : prim) : string :=
  match p with
  | PUndefined => "undefined"
  | PNull => "null"
  | PBool true => "true"
  | PBool false => "false"
  | PNum z =>
      if Z.abs z <? 10 ^ 21 then pretty z
      else exponent_mantissa z +:+ "e+" +:+
           pretty (Z.of_nat (String.length (pretty (Z.abs z))) - 1)
  | PStr s => s
  end.

(** [Number(p)]; [None] is NaN. *)
Definition js_Number (p : prim) : option Z :=
  match p with
  | PUndefined => None
  | PNull => Some 0
  | PBool b => Some (if b then 1 else 0)
  | PNum z => Some z
  | PStr s => StringToNumber s
  end.

(** ** Change summary (server.js) *)

Definition formatDMY (day month year : prim) : string :=
  if negb (truthy day) || negb (truthy month) || negb (truthy year) then ""
  else
    match js_Number year, js_Number month, js_Number day with
    | Some y, Some m, Some d =>
        match Date_getTime y (m - 1) d with
        | None => ""
        | Some t => toLocaleDateString t
        end
    | _, _, _ => ""     (* a NaN argument makes the date invalid *)
    end.

Record summary_row := SummaryRow { key_text : string; value_html : string }.

Definition dquote : string :=
  String (Ascii.Ascii false true false false false true false false) EmptyString.

Definition labelMap : gmap string string :=
  list_to_map
    [ ("person_name", "Full name");
      ("nhs_number", "NHS number");
      ("dob_day", "Date of birth");
      ("symptoms_day", "Symptoms start date");
      ("postcode", "Postcode");
      ("organisation", "Organisation");
      ("title", "Title");
      ("description", "Description") ].

(** [labelMap[k] || k] *)
Definition label (k : string) : string :=
  match labelMap !! k with
  | Some l => if String.eqb l "" then k else l
  | None => k
  end.

(** [s || "Not provided"] *)
Definition or_not_provided (s : string) : string :=
  if String.eqb s "" then "Not provided" else s.

Definition displayValue (key : string) (snapshot : obj) : string :=
  if String.eqb key "dob_day" then
    or_not_provided
      (formatDMY (prop snapshot "dob_day") (prop snapshot "dob_month") (prop snapshot "dob_year"))
  else if String.eqb key "symptoms_day" then
    or_not_provided
      (formatDMY (prop snapshot "symptoms_day") (prop snapshot "symptoms_month")
         (prop snapshot "symptoms_year"))
  else
    let v := prop snapshot key in
    if strict_eq v PNull || strict_eq v PUndefined || strict_eq v (PStr "")
    then "Not provided"
    else js_String v.

Definition change_html (from to : string) : string :=
  "<span class=" +:+ dquote +:+ "govuk-body" +:+ dquote +:+ ">From: " +:+ from +:+
  "</span><br><span class=" +:+ dquote +:+ "govuk-body" +:+ dquote +:+ ">To: " +:+ to +:+
  "</span>".

Definition simpleKeys : list string :=
  [ "person_name"; "nhs_number"; "postcode"; "organisation"; "title"; "description" ].

(** [(before.k ?? null) !== (after.k ?? null)] *)
Definition part_changed (before after : obj) (k : string) : bool :=
  negb (strict_eq (nullish (prop before k) PNull) (nullish (prop after k) PNull)).

Definition simple_changed (before after : obj) (k : string) : bool :=
  let b := nullish (prop before k) PNull in
  let a := nullish (prop after k) PNull in
  negb (String.eqb (js_String (nullish b (PStr ""))) (js_String (nullish a (PStr "")))).

Definition dobChanged (before after : obj) : bool :=
  part_changed before after "dob_day" ||
  part_changed before after "dob_month" ||
  part_changed before after "dob_year".

Definition symptomsChanged (before after : obj) : bool :=
  part_changed before after "symptoms_day" ||
  part_changed before after "symptoms_month" ||
  part_changed before after "symptoms_year".

Definition change_row (text k : string) (before after : obj) : summary_row :=
  SummaryRow text (change_html (displayValue k before) (displayValue k after)).

Definition buildChangedRows (before after : obj) : list summary_row :=
  let rows :=
    foldl (fun (rows : list summary_row) k =>
             if simple_changed before after k
             then (rows ++ [change_row (label k) k before after])%list
             else rows) [] simpleKeys in
  let rows :=
    if dobChanged before after
    then (rows ++ [change_row "Date of birth" "dob_day" before after])%list
    else rows in
  let rows :=
    if symptomsChanged before after
    then (rows ++ [change_row "Symptoms start date" "symptoms_day" before after])%list
    else rows in
  rows.


(** ** The relational store

    The engine's collaborator: two tables, statement-level semantics for
    the SQL texts that occur in the program, transactions, and an
    environment that decides which calls fail, what [NOW()] reads and what
    [gen_random_uuid()] returns.  A case id is kept as the canonical text
    of its uuid, which is what the driver returns, and an event id as an
    integer.  The [cases] table is a map from the primary key to the other
    columns of the row. *)

Inductive error : Type :=
| StoreError (sqlstate : string)
| TypeError (msg : string).

#[global] Instance error_eq_dec : EqDecision error.
Proof. solve_decision. Defined.

Definition not_null_violation : error := StoreError "23502".
Definition foreign_key_violation : error := StoreError "23503".
Definition unique_violation : error := StoreError "23505".
Definition numeric_value_out_of_range : error := StoreError "22003".
Definition invalid_text_representation : error := StoreError "22P02".

Record case_row := CaseRow {
  c_state : string;
  c_title : string;
  c_description : option string;
  c_created_by : string;
  c_created_at : Z;
  c_updated_at : Z;
  c_version : Z;
  c_updated_by : string;
  c_assigned_to : option string;
  c_person_name : option string;
  c_nhs_number : option string;
  c_dob_day : option Z;
  c_dob_month : option Z;
  c_dob_year : option Z;
  c_symptoms_day : option Z;
  c_symptoms_month : option Z;
  c_symptoms_year : option Z;
  c_postcode : option string;
  c_organisation : option string
}.

(** The [event_data] payload: [{ before, after }]. *)
Record event_data := EventData { before : jsval; after : jsval }.

Record event_row := EventRow {
  e_id : Z;
  e_case_id : string;
  e_event_type : string;
  e_from_state : option string;
  e_to_state : option string;
  e_actor_id : string;
  e_comment : option string;
  e_occurred_at : Z;
  e_event_data : option event_data
}.

#[global] Instance case_row_eq_dec : EqDecision case_row.
Proof. solve_decision. Defined.
#[global] Instance event_data_eq_dec : EqDecision event_data.
Proof. solve_decision. Defined.
#[global] Instance event_row_eq_dec : EqDecision event_row.
Proof. solve_decision. Defined.

Record tables := Tables {
  cases : gmap string case_row;
  case_events : list event_row
}.

(** *** Values crossing the driver *)

(** A parameter bound to a [text] column. *)
Definition to_text (p : prim) : option string :=
  match p with
  | PUndefined | PNull => None
  | p => Some (js_String p)
  end.

Definition int4_range (z : Z) : error + option Z :=
  if (-2147483648 <=? z) && (z <=? 2147483647) then inr (Some z)
  else inl numeric_value_out_of_range.

(** A parameter bound to an [integer] column. *)
Definition to_int4 (p : prim) : error + option Z :=
  match p with
  | PUndefined | PNull => inr None
  | PNum z => int4_range z
  | PBool _ => inl invalid_text_representation
  | PStr s =>
      match int4in s with
      | Some z => int4_range z
      | None => inl invalid_text_representation
      end
  end.

(** A parameter bound to a [uuid] column: the text is read by the store's
    input function, which refuses what is not a uuid. *)
Definition uuid_param (id : string) : error + string :=
  match uuid_in id with
  | Some k => inr k
  | None => inl invalid_text_representation
  end.

Definition uuid_bind (p : prim) : error + option string :=
  match to_text p with
  | None => inr None
  | Some s =>
      match uuid_in s with
      | Some k => inr (Some k)
      | None => inl invalid_text_representation
      end
  end.

Definition not_null {A} (o : option A) : error + A :=
  match o with
  | Some a => inr a
  | None => inl not_null_violation
  end.

(** What JSON keeps of a value: properties holding [undefined] are dropped. *)
Definition to_jsonb (v : jsval) : jsval :=
  match v with
  | VPrim p => VPrim p
  | VObj o => VObj (filter (λ kv, kv.2 ≠ PUndefined) o)
  end.

Definition of_text (o : option string) : prim :=
  match o with Some s => PStr s | None => PNull end.

Definition of_int4 (o : option Z) : prim :=
  match o with Some z => PNum z | None => PNull end.

(** Row objects, one per column list; a timestamp reaches JavaScript as the
    number of its instant. *)
Definition id_state_fields (id : string) (r : case_row) : list (string * prim) :=
  [ ("id", PStr id); ("state", PStr (c_state r)) ].

Definition list_fields (id : string) (r : case_row) : list (string * prim) :=
  [ ("id", PStr id); ("state", PStr (c_state r)); ("title", PStr (c_title r));
    ("created_at", PNum (c_created_at r)); ("updated_at", PNum (c_updated_at r)) ].

(** The column list shared by [getCaseById] and the [RETURNING] clauses. *)
Definition detail_fields (id : string) (r : case_row) : list (string * prim) :=
  [ ("id", PStr id); ("state", PStr (c_state r)); ("title", PStr (c_title r));
    ("description", of_text (c_description r)); ("created_by", PStr (c_created_by r));
    ("updated_by", PStr (c_updated_by r)); ("assigned_to", of_text (c_assigned_to r));
    ("person_name", of_text (c_person_name r)); ("nhs_number", of_text (c_nhs_number r));
    ("dob_day", of_int4 (c_dob_day r)); ("dob_month", of_int4 (c_dob_month r));
    ("dob_year", of_int4 (c_dob_year r));
    ("symptoms_day", of_int4 (c_symptoms_day r)); ("symptoms_month", of_int4 (c_symptoms_month r));
    ("symptoms_year", of_int4 (c_symptoms_year r));
    ("postcode", of_text (c_postcode r)); ("organisation", of_text (c_organisation r));
    ("created_at", PNum (c_created_at r)); ("updated_at", PNum (c_updated_at r)) ].

(** [SELECT *] *)
Definition all_fields (id : string) (r : case_row) : list (string * prim) :=
  (detail_fields id r ++ [ ("version", PNum (c_version r)) ])%list.

Definition row_obj (fields : list (string * prim)) : obj := list_to_map fields.

(** A [case_events] row as JavaScript sees it; the driver returns the
    [bigserial] id as a string. *)
Record event_obj := EventObj { ev_fields : obj; ev_event_data : option event_data }.

Definition event_fields (e : event_row) : list (string * prim) :=
  [ ("id", PStr (pretty (e_id e))); ("case_id", PStr (e_case_id e));
    ("event_type", PStr (e_event_type e));
    ("from_state", of_text (e_from_state e)); ("to_state", of_text (e_to_state e));
    ("comment", of_text (e_comment e)); ("actor_id", PStr (e_actor_id e));
    ("occurred_at", PNum (e_occurred_at e)) ].

Inductive rowset : Type :=
| Rows (l : list obj)
| EventRows (l : list event_obj).

(** *** Statements *)

Inductive stmt : Type :=
| BEGIN
| COMMIT
| ROLLBACK
(** [SELECT * FROM cases WHERE id = $1] *)
| SelectCaseAll (id : string)
(** [SELECT id, state FROM cases WHERE id = $1] *)
| SelectCaseIdState (id : string)
(** [INSERT INTO cases (title, description, created_by, updated_by)
    VALUES ($1, $2, $3, $3) RETURNING ...] *)
| InsertCase (title description createdBy : prim)
(** [INSERT INTO case_events (case_id, event_type, from_state, to_state, actor_id)
    VALUES ($1, 'CREATE', NULL, $2, $3)] *)
| InsertCreateEvent (caseId state createdBy : prim)
(** [INSERT INTO case_events (case_id, event_type, from_state, to_state,
    actor_id, comment, event_data) VALUES ($1, $2, $3, $3, $4, $5, $6)
    RETURNING id] *)
| InsertEvent (caseId : string) (eventType state actorId comment : prim)
    (eventData : option event_data)
(** [UPDATE cases SET title = $2, description = $3, updated_by = $4,
    updated_at = NOW() WHERE id = $1 RETURNING ...] *)
| UpdateDetails (id : string) (title description actorId : prim)
(** [UPDATE cases SET person_name = $2, nhs_number = $3, dob_day = $4,
    dob_month = $5, dob_year = $6, updated_by = $7, updated_at = NOW() ...] *)
| UpdatePerson (id : string) (personName nhsNumber dobDay dobMonth dobYear actorId : prim)
(** [UPDATE cases SET symptoms_day = $2, symptoms_month = $3,
    symptoms_year = $4, updated_by = $5, updated_at = NOW() ...] *)
| UpdateClinical (id : string) (symptomsDay symptomsMonth symptomsYear actorId : prim)
(** [UPDATE cases SET postcode = $2, organisation = $3, updated_by = $4,
    updated_at = NOW() ...] *)
| UpdateLocation (id : string) (postcode organisation actorId : prim)
(** [UPDATE cases SET state = $2, updated_by = $3, updated_at = NOW()
    WHERE id = $1 RETURNING id, state, title, created_at, updated_at] *)
| UpdateState (id : string) (toState actorId : prim)
(** [INSERT INTO case_events (case_id, event_type, from_state, to_state,
    comment, actor_id) VALUES ($1, $2, $3, $4, $5, $6)] *)
| InsertTransitionEvent (id : string) (eventType fromState toState comment actorId : prim)
(** [SELECT id, state, title, created_at, updated_at FROM cases
    ORDER BY created_at DESC LIMIT 50] *)
| SelectCases
(** [SELECT ... FROM cases WHERE id = $1] (the detail column list) *)
| SelectCaseById (id : string)
(** [SELECT ..., event_data FROM case_events WHERE id = $1] *)
| SelectCaseEventById (eventId : Z)
(** [SELECT ... FROM case_events WHERE case_id = $1 ORDER BY occurred_at DESC] *)
| SelectCaseEvents (caseId : string).

(** *** Statement semantics *)

Notation "'let!' x := e 'in' k" :=
  (match e with inl err => inl err | inr x => k end)
  (at level 10, x pattern, e at level 100, k at level 200, only parsing).

Definition put_case (t : tables) (id : string) (r : case_row) : tables :=
  Tables (<[id := r]> (cases t)) (case_events t).

Definition add_event (t : tables) (e : event_row) : tables :=
  Tables (cases t) (case_events t ++ [e])%list.

Definition new_case (title : string) (description : option string)
    (createdBy : string) (now : Z) : case_row :=
  {| c_state := "DRAFT"; c_title := title; c_description := description;
     c_created_by := createdBy; c_created_at := now; c_updated_at := now; c_version := 1;
     c_updated_by := createdBy; c_assigned_to := None;
     c_person_name := None; c_nhs_number := None;
     c_dob_day := None; c_dob_month := None; c_dob_year := None;
     c_symptoms_day := None; c_symptoms_month := None; c_symptoms_year := None;
     c_postcode := None; c_organisation := None |}.

Definition set_details (r : case_row) (title : string) (description : option string)
    (actor : string) (now : Z) : case_row :=
  {| c_state := c_state r; c_title := title; c_description := description;
     c_created_by := c_created_by r; c_created_at := c_created_at r; c_updated_at := now;
     c_version := c_version r; c_updated_by := actor; c_assigned_to := c_assigned_to r;
     c_person_name := c_person_name r; c_nhs_number := c_nhs_number r;
     c_dob_day := c_dob_day r; c_dob_month := c_dob_month r; c_dob_year := c_dob_year r;
     c_symptoms_day := c_symptoms_day r; c_symptoms_month := c_symptoms_month r;
     c_symptoms_year := c_symptoms_year r;
     c_postcode := c_postcode r; c_organisation := c_organisation r |}.

Definition set_person (r : case_row) (personName nhsNumber : option string)
    (dobDay dobMonth dobYear : option Z) (actor : string) (now : Z) : case_row :=
  {| c_state := c_state r; c_title := c_title r;
     c_description := c_description r;
     c_created_by := c_created_by r; c_created_at := c_created_at r; c_updated_at := now;
     c_version := c_version r; c_updated_by := actor; c_assigned_to := c_assigned_to r;
     c_person_name := personName; c_nhs_number := nhsNumber;
     c_dob_day := dobDay; c_dob_month := dobMonth; c_dob_year := dobYear;
     c_symptoms_day := c_symptoms_day r; c_symptoms_month := c_symptoms_month r;
     c_symptoms_year := c_symptoms_year r;
     c_postcode := c_postcode r; c_organisation := c_organisation r |}.

Definition set_clinical (r : case_row) (symptomsDay symptomsMonth symptomsYear : option Z)
    (actor : string) (now : Z) : case_row :=
  {| c_state := c_state r; c_title := c_title r;
     c_description := c_description r;
     c_created_by := c_created_by r; c_created_at := c_created_at r; c_updated_at := now;
     c_version := c_version r; c_updated_by := actor; c_assigned_to := c_assigned_to r;
     c_person_name := c_person_name r; c_nhs_number := c_nhs_number r;
     c_dob_day := c_dob_day r; c_dob_month := c_dob_month r; c_dob_year := c_dob_year r;
     c_symptoms_day := symptomsDay; c_symptoms_month := symptomsMonth;
     c_symptoms_year := symptomsYear;
     c_postcode := c_postcode r; c_organisation := c_organisation r |}.

Definition set_location (r : case_row) (postcode organisation : option string)
    (actor : string) (now : Z) : case_row :=
  {| c_state := c_state r; c_title := c_title r;
     c_description := c_description r;
     c_created_by := c_created_by r; c_created_at := c_created_at r; c_updated_at := now;
     c_version := c_version r; c_updated_by := actor; c_assigned_to := c_assigned_to r;
     c_person_name := c_person_name r; c_nhs_number := c_nhs_number r;
     c_dob_day := c_dob_day r; c_dob_month := c_dob_month r; c_dob_year := c_dob_year r;
     c_symptoms_day := c_symptoms_day r; c_symptoms_month := c_symptoms_month r;
     c_symptoms_year := c_symptoms_year r;
     c_postcode := postcode; c_organisation := organisation |}.

Definition set_state (r : case_row) (state actor : string) (now : Z) : case_row :=
  {| c_state := state; c_title := c_title r;
     c_description := c_description r;
     c_created_by := c_created_by r; c_created_at := c_created_at r; c_updated_at := now;
     c_version := c_version r; c_updated_by := actor; c_assigned_to := c_assigned_to r;
     c_person_name := c_person_name r; c_nhs_number := c_nhs_number r;
     c_dob_day := c_dob_day r; c_dob_month := c_dob_month r; c_dob_year := c_dob_year r;
     c_symptoms_day := c_symptoms_day r; c_symptoms_month := c_symptoms_month r;
     c_symptoms_year := c_symptoms_year r;
     c_postcode := c_postcode r; c_organisation := c_organisation r |}.

Definition jsonb_event_data (d : event_data) : event_data :=
  EventData (to_jsonb (before d)) (to_jsonb (after d)).

Definition event_js (e : event_row) : event_obj :=
  EventObj (row_obj (event_fields e)) (e_event_data e).

(** [listCaseEvents] does not select [event_data]. *)
Definition event_js_plain (e : event_row) : event_obj :=
  EventObj (row_obj (event_fields e)) None.

(** The foreign key [case_events.case_id -> cases.id]. *)
Definition references_case (t : tables) (caseId : string) : error + unit :=
  match cases t !! caseId with
  | Some _ => inr tt
  | None => inl foreign_key_violation
  end.

(** [UPDATE cases SET ... WHERE id = $1 RETURNING ...]: no row, no change
    and no check; otherwise the new row is computed, checked and written. *)
Definition update_by_id (t : tables) (id : string)
    (returning : string → case_row → list (string * prim))
    (set : case_row → error + case_row) : error + (rowset * tables) :=
  match cases t !! id with
  | None => inr (Rows [], t)
  | Some r =>
      let! r' := set r in
      inr (Rows [row_obj (returning id r')], put_case t id r')
  end.

(** [ORDER BY created_at DESC] and [ORDER BY occurred_at DESC] *)
Definition created_desc (a b : string * case_row) : Prop :=
  c_created_at b.2 ≤ c_created_at a.2.
Definition occurred_desc (a b : event_row) : Prop := e_occurred_at b ≤ e_occurred_at a.

#[global] Instance created_desc_dec : RelDecision created_desc.
Proof. intros a b. unfold created_desc. apply _. Defined.
#[global] Instance occurred_desc_dec : RelDecision occurred_desc.
Proof. intros a b. unfold occurred_desc. apply _. Defined.

(** One statement against the tables it sees.  [now] is [NOW()], [fresh]
    is what [gen_random_uuid()] returns and [seq] the next value of the
    [case_events.id] sequence.  Parameters of [uuid] and [integer] columns
    are converted when they are bound, in the order of their numbers and
    before any row is looked at. *)
Definition sem (now : Z) (fresh : string) (seq : Z) (q : stmt) (t : tables)
    : error + (rowset * tables) :=
  match q with
  | BEGIN | COMMIT | ROLLBACK => inr (Rows [], t)
  | SelectCaseAll id =>
      let! id := uuid_param id in
      inr (Rows (row_obj ∘ all_fields id <$> option_list (cases t !! id)), t)
  | SelectCaseIdState id =>
      let! id := uuid_param id in
      inr (Rows (row_obj ∘ id_state_fields id <$> option_list (cases t !! id)), t)
  | SelectCaseById id =>
      let! id := uuid_param id in
      inr (Rows (row_obj ∘ detail_fields id <$> option_list (cases t !! id)), t)
  | SelectCases =>
      inr (Rows ((λ kv, row_obj (list_fields kv.1 kv.2)) <$>
                   take 50 (merge_sort created_desc (map_to_list (cases t)))), t)
  | SelectCaseEventById eventId =>
      inr (EventRows (event_js <$> filter (λ e, e_id e = eventId) (case_events t)), t)
  | SelectCaseEvents caseId =>
      let! caseId := uuid_param caseId in
      inr (EventRows (event_js_plain <$>
                        merge_sort occurred_desc
                          (filter (λ e, e_case_id e = caseId) (case_events t))), t)
  | InsertCase title description createdBy =>
      let! title := not_null (to_text title) in
      let! createdBy := not_null (to_text createdBy) in
      match cases t !! fresh with
      | Some _ => inl unique_violation
      | None =>
          let r := new_case title (to_text description) createdBy now in
          inr (Rows [row_obj (detail_fields fresh r)], put_case t fresh r)
      end
  | InsertCreateEvent caseId state createdBy =>
      let! caseId := uuid_bind caseId in
      let! caseId := not_null caseId in
      let! createdBy := not_null (to_text createdBy) in
      let! _ := references_case t caseId in
      inr (Rows [],
           add_event t (EventRow seq caseId "CREATE" None (to_text state) createdBy None now None))
  | InsertEvent caseId eventType state actorId comment eventData =>
      let! caseId := uuid_param caseId in
      let! eventType := not_null (to_text eventType) in
      let! actorId := not_null (to_text actorId) in
      let! _ := references_case t caseId in
      inr (Rows [ {[ "id" := PStr (pretty seq) ]} ],
           add_event t (EventRow seq caseId eventType (to_text state) (to_text state) actorId
                          (to_text comment) now (jsonb_event_data <$> eventData)))
  | InsertTransitionEvent id eventType fromState toState comment actorId =>
      let! id := uuid_param id in
      let! eventType := not_null (to_text eventType) in
      let! actorId := not_null (to_text actorId) in
      let! _ := references_case t id in
      inr (Rows [],
           add_event t (EventRow seq id eventType (to_text fromState) (to_text toState) actorId
                          (to_text comment) now None))
  | UpdateDetails id title description actorId =>
      let! id := uuid_param id in
      update_by_id t id detail_fields (λ r,
        let! title := not_null (to_text title) in
        let! actorId := not_null (to_text actorId) in
        inr (set_details r title (to_text description) actorId now))
  | UpdatePerson id personName nhsNumber dobDay dobMonth dobYear actorId =>
      let! id := uuid_param id in
      let! dobDay := to_int4 dobDay in
      let! dobMonth := to_int4 dobMonth in
      let! dobYear := to_int4 dobYear in
      update_by_id t id detail_fields (λ r,
        let! actorId := not_null (to_text actorId) in
        inr (set_person r (to_text personName) (to_text nhsNumber)
               dobDay dobMonth dobYear actorId now))
  | UpdateClinical id symptomsDay symptomsMonth symptomsYear actorId =>
      let! id := uuid_param id in
      let! symptomsDay := to_int4 symptomsDay in
      let! symptomsMonth := to_int4 symptomsMonth in
      let! symptomsYear := to_int4 symptomsYear in
      update_by_id t id detail_fields (λ r,
        let! actorId := not_null (to_text actorId) in
        inr (set_clinical r symptomsDay symptomsMonth symptomsYear actorId now))
  | UpdateLocation id postcode organisation actorId =>
      let! id := uuid_param id in
      update_by_id t id detail_fields (λ r,
        let! actorId := not_null (to_text actorId) in
        inr (set_location r (to_text postcode) (to_text organisation) actorId now))
  | UpdateState id toState actorId =>
      let! id := uuid_param id in
      update_by_id t id list_fields (λ r,
        let! toState := not_null (to_text toState) in
        let! actorId := not_null (to_text actorId) in
        inr (set_state r toState actorId now))
  end.

(** Statements that draw a value from the [case_events.id] sequence. *)
Definition draws_event_id (q : stmt) : bool :=
  match q with
  | InsertCreateEvent _ _ _ | InsertEvent _ _ _ _ _ _
  | InsertTransitionEvent _ _ _ _ _ _ => true
  | _ => false
  end.

(** *** The world: tables, the open transaction and the environment

    [faults n], [clock n] and [draws n] say what happens at the [n]-th call
    made to the store: whether it fails (connection loss, deadlock, ...)
    instead of being executed, what [NOW()] reads and the random bits
    [gen_random_uuid()] draws.  A call that fails is not executed.  The
    event id sequence is outside the transaction, as sequences are. *)

Inductive call : Type :=
| Connect
| Release
| ClientQuery (q : stmt)
| PoolQuery (q : stmt).

Record world := World {
  committed : tables;
  working : option tables;
  event_seq : Z;
  calls : nat;
  log : list (call * option error);
  faults : nat → option error;
  clock : nat → Z;
  draws : nat → N
}.

(** What [gen_random_uuid()] returns at the [n]-th call. *)
Definition uuids (w : world) (n : nat) : string := uuid_out (draws w n).
Arguments uuids w n /.

Definition set_store (w : world) (c : tables) (wk : option tables) (seq : Z) : world :=
  {| committed := c; working := wk; event_seq := seq; calls := calls w; log := log w;
     faults := faults w; clock := clock w; draws := draws w |}.

Definition record (c : call) (r : option error) (w : world) : world :=
  {| committed := committed w; working := working w; event_seq := event_seq w;
     calls := S (calls w); log := (log w ++ [(c, r)])%list;
     faults := faults w; clock := clock w; draws := draws w |}.

(** The tables a client's statement sees: the open transaction's, if any. *)
Definition visible (w : world) : tables :=
  match working w with
  | Some t => t
  | None => committed w
  end.

Definition next_seq (q : stmt) (seq : Z) : Z :=
  if draws_event_id q then seq + 1 else seq.

Definition run_client (q : stmt) (w : world) : (error + rowset) * world :=
  match q with
  | BEGIN => (inr (Rows []), set_store w (committed w) (Some (visible w)) (event_seq w))
  | COMMIT => (inr (Rows []), set_store w (visible w) None (event_seq w))
  | ROLLBACK => (inr (Rows []), set_store w (committed w) None (event_seq w))
  | _ =>
      match sem (clock w (calls w)) (uuids w (calls w)) (event_seq w) q (visible w) with
      | inl e => (inl e, set_store w (committed w) (working w) (next_seq q (event_seq w)))
      | inr (rows, t') =>
          (inr rows,
           match working w with
           | Some _ => set_store w (committed w) (Some t') (next_seq q (event_seq w))
           | None => set_store w t' None (next_seq q (event_seq w))
           end)
      end
  end.

(** [pool.query]: a statement on a connection of its own, committed at once. *)
Definition run_pool (q : stmt) (w : world) : (error + rowset) * world :=
  match sem (clock w (calls w)) (uuids w (calls w)) (event_seq w) q (committed w) with
  | inl e => (inl e, set_store w (committed w) (working w) (next_seq q (event_seq w)))
  | inr (rows, t') => (inr rows, set_store w t' (working w) (next_seq q (event_seq w)))
  end.

(** ** Effects: store calls and exceptions *)

Inductive outcome (A : Type) : Type :=
| Ok (a : A)
| Throw (e : error).
#[global] Arguments Ok {A} a.
#[global] Arguments Throw {A} e.

Definition M (A : Type) : Type := world → outcome A * world.

Definition ret {A} (a : A) : M A := λ w, (Ok a, w).

Definition throw {A} (e : error) : M A := λ w, (Throw e, w).

Definition bind {A B} (m : M A) (k : A → M B) : M B :=
  λ w, match m w with
       | (Ok a, w') => k a w'
       | (Throw e, w') => (Throw e, w')
       end.

(** [try { m } catch (e) { h e }] *)
Definition try_catch {A} (m : M A) (h : error → M A) : M A :=
  λ w, match m w with
       | (Ok a, w') => (Ok a, w')
       | (Throw e, w') => h e w'
       end.

(** [try { m } finally { f }] *)
Definition try_finally {A} (m : M A) (f : M unit) : M A :=
  λ w, match m w with
       | (r, w1) =>
           match f w1 with
           | (Ok _, w2) => (r, w2)
           | (Throw e, w2) => (Throw e, w2)
           end
       end.

Notation "'let*' x := m 'in' k" := (bind m (λ x, k))
  (at level 10, x name, m at level 100, k at level 200, only parsing).
Notation "m ;; k" := (bind m (λ _, k))
  (at level 100, k at level 200, right associativity, only parsing).

(** [await pool.connect()]: a session with no transaction open. *)
Definition connect : M unit :=
  λ w, match faults w (calls w) with
       | Some e => (Throw e, record Connect (Some e) w)
       | None => (Ok tt, record Connect None (set_store w (committed w) None (event_seq w)))
       end.

(** [client.release()]: the session ends; what it left uncommitted is gone. *)
Definition release : M unit :=
  λ w, (Ok tt, record Release None (set_store w (committed w) None (event_seq w))).

Definition client_query (q : stmt) : M rowset :=
  λ w, match faults w (calls w) with
       | Some e => (Throw e, record (ClientQuery q) (Some e) w)
       | None =>
           match run_client q w with
           | (inl e, w') => (Throw e, record (ClientQuery q) (Some e) w')
           | (inr rows, w') => (Ok rows, record (ClientQuery q) None w')
           end
       end.

Definition pool_query (q : stmt) : M rowset :=
  λ w, match faults w (calls w) with
       | Some e => (Throw e, record (PoolQuery q) (Some e) w)
       | None =>
           match run_pool q w with
           | (inl e, w') => (Throw e, record (PoolQuery q) (Some e) w')
           | (inr rows, w') => (Ok rows, record (PoolQuery q) None w')
           end
       end.

(** [rows[0]] *)
Definition first_row (r : rowset) : jsval :=
  match r with
  | Rows (o :: _) => VObj o
  | _ => VPrim PUndefined
  end.

Definition first_event (r : rowset) : option event_obj :=
  match r with
  | EventRows (e :: _) => Some e
  | _ => None
  end.

(** [v.k] where [v] may be [undefined] or [null]. *)
Definition get_member (v : jsval) (k : string) : M prim :=
  match v with
  | VPrim PUndefined | VPrim PNull =>
      throw (TypeError ("Cannot read properties of " +:+
                        match v with VPrim p => js_String p | _ => "" end +:+
                        " (reading '" +:+ k +:+ "')"))
  | _ => ret (member v k)
  end.

(** A parameter's default value: used when the argument is [undefined]. *)
Definition default_arg (p d : prim) : prim :=
  match p with PUndefined => d | _ => p end.

(** ** The engine (models/cases.js)

    Every operation has the same skeleton:
    [const client = await pool.connect();
     try { await client.query("BEGIN"); ... }
     catch (e) { await client.query("ROLLBACK"); throw e; }
     finally { client.release(); }] *)
Definition in_transaction {A} (body : M A) : M A :=
  connect ;;
  try_finally
    (try_catch
       (client_query BEGIN ;; body)
       (λ e, client_query ROLLBACK ;; throw e))
    release.

Definition getCaseById (id : string) : M jsval :=
  let* rows := pool_query (SelectCaseById id) in
  ret (match first_row rows with
       | VPrim p => VPrim (js_or p PNull)
       | v => v
       end).

Definition getCaseEventById (eventId : Z) : M (option event_obj) :=
  let* rows := pool_query (SelectCaseEventById eventId) in
  ret (first_event rows).

Definition listCases : M rowset := pool_query SelectCases.

Definition listCaseEvents (caseId : string) : M rowset :=
  pool_query (SelectCaseEvents caseId).

Definition createCase (title description createdBy : prim) : M jsval :=
  let createdBy := default_arg createdBy (PStr "local-user") in
  in_transaction (
    let* insertCase := client_query (InsertCase title (js_or description PNull) createdBy) in
    let c := first_row insertCase in
    let* c_id := get_member c "id" in
    let* c_state := get_member c "state" in
    client_query (InsertCreateEvent c_id c_state createdBy) ;;
    client_query COMMIT ;;
    ret c).

Definition insertEvent (caseId : string) (eventType state actorId comment : prim)
    (eventData : option event_data) : M prim :=
  let comment := default_arg comment PNull in
  let* rows := client_query (InsertEvent caseId eventType state actorId comment eventData) in
  get_member (first_row rows) "id".

(** [{ case: updated, eventId }] *)
Record update_result := UpdateResult { updated_case : jsval; eventId : prim }.

Definition updateCaseDetails (id : string) (title description actorId : prim)
    : M (option update_result) :=
  let actorId := default_arg actorId (PStr "local-user") in
  in_transaction (
    let* before := client_query (SelectCaseAll id) in
    let beforeRow := first_row before in
    if negb (truthy_val beforeRow) then
      client_query ROLLBACK ;;
      ret None
    else
      let* rows := client_query (UpdateDetails id title (js_or description PNull) actorId) in
      let updated := first_row rows in
      let* state := get_member updated "state" in
      let* eventId :=
        insertEvent id (PStr "EDIT_DETAILS") state actorId PUndefined
          (Some (EventData (pickCaseSnapshot beforeRow) (pickCaseSnapshot updated))) in
      client_query COMMIT ;;
      ret (Some (UpdateResult updated eventId))).

Definition updatePersonDetails (id : string)
    (personName nhsNumber dobDay dobMonth dobYear actorId : prim)
    : M (option update_result) :=
  let actorId := default_arg actorId (PStr "local-user") in
  in_transaction (
    let* before := client_query (SelectCaseAll id) in
    let beforeRow := first_row before in
    if negb (truthy_val beforeRow) then
      client_query ROLLBACK ;;
      ret None
    else
      let* rows :=
        client_query (UpdatePerson id (js_or personName PNull) (js_or nhsNumber PNull)
                        (js_or dobDay PNull) (js_or dobMonth PNull) (js_or dobYear PNull)
                        actorId) in
      let updated := first_row rows in
      let* state := get_member updated "state" in
      let* eventId :=
        insertEvent id (PStr "EDIT_PERSON") state actorId PUndefined
          (Some (EventData (pickCaseSnapshot beforeRow) (pickCaseSnapshot updated))) in
      client_query COMMIT ;;
      ret (Some (UpdateResult updated eventId))).

Definition updateClinicalDetails (id : string)
    (symptomsDay symptomsMonth symptomsYear actorId : prim)
    : M (option update_result) :=
  let actorId := default_arg actorId (PStr "local-user") in
  in_transaction (
    let* before := client_query (SelectCaseAll id) in
    let beforeRow := first_row before in
    if negb (truthy_val beforeRow) then
      client_query ROLLBACK ;;
      ret None
    else
      let* rows :=
        client_query (UpdateClinical id (js_or symptomsDay PNull) (js_or symptomsMonth PNull)
                        (js_or symptomsYear PNull) actorId) in
      let updated := first_row rows in
      let* state := get_member updated "state" in
      let* eventId :=
        insertEvent id (PStr "EDIT_CLINICAL") state actorId PUndefined
          (Some (EventData (pickCaseSnapshot beforeRow) (pickCaseSnapshot updated))) in
      client_query COMMIT ;;
      ret (Some (UpdateResult updated eventId))).

Definition updateLocationDetails (id : string) (postcode organisation actorId : prim)
    : M (option update_result) :=
  let actorId := default_arg actorId (PStr "local-user") in
  in_transaction (
    let* before := client_query (SelectCaseAll id) in
    let beforeRow := first_row before in
    if negb (truthy_val beforeRow) then
      client_query ROLLBACK ;;
      ret None
    else
      let* rows :=
        client_query (UpdateLocation id (js_or postcode PNull) (js_or organisation PNull)
                        actorId) in
      let updated := first_row rows in
      let* state := get_member updated "state" in
      let* eventId :=
        insertEvent id (PStr "EDIT_LOCATION") state actorId PUndefined
          (Some (EventData (pickCaseSnapshot beforeRow) (pickCaseSnapshot updated))) in
      client_query COMMIT ;;
      ret (Some (UpdateResult updated eventId))).

Definition target_state (eventType fromState : prim) : prim :=
  let toState := fromState in
  let toState := if strict_eq eventType (PStr "SUBMIT_FOR_REVIEW") then PStr "IN_REVIEW" else toState in
  let toState := if strict_eq eventType (PStr "RETURN") then PStr "RETURNED" else toState in
  let toState := if strict_eq eventType (PStr "APPROVE") then PStr "APPROVED" else toState in
  toState.

Definition transitionCase (id : string) (eventType comment actorId : prim) : M jsval :=
  let comment := default_arg comment PNull in
  let actorId := default_arg actorId (PStr "local-user") in
  in_transaction (
    let* current := client_query (SelectCaseIdState id) in
    let c := first_row current in
    if negb (truthy_val c) then
      client_query ROLLBACK ;;
      ret (VPrim PNull)
    else
      let fromState := member c "state" in
      let toState := target_state eventType fromState in
      let* updatedCase := client_query (UpdateState id toState actorId) in
      client_query (InsertTransitionEvent id eventType fromState toState comment actorId) ;;
      client_query COMMIT ;;
      ret (first_row updatedCase)).

(** ** The HTTP routes (server.js)

    A request is a route with its path parameters and, for a form post, the
    url-encoded body: a map from field names to strings.  A response is
    reduced to what tells the routes apart: status, view or redirect
    target.  What a view is rendered with does not reach the store and is
    left out, except for the change summary. *)

Inductive response : Type :=
| Render (status : Z) (view : string)
| RenderChanges (changedRows : list summary_row)
| Redirect (location : string)
| Send (status : Z) (text : string).

Abbreviation form := (gmap string string).

(** [req.body.k] *)
Definition body_prop (body : form) (k : string) : prim :=
  match body !! k with
  | Some s => PStr s
  | None => PUndefined
  end.

(** [(req.body.k || "").trim()] *)
Definition trimmed (body : form) (k : string) : string :=
  trim (js_String (js_or (body_prop body k) (PStr ""))).

(** [Number(req.body.k || 0) || null]; NaN is falsy. *)
Definition number_or_null (body : form) (k : string) : prim :=
  match js_Number (js_or (body_prop body k) (PNum 0)) with
  | Some z => js_or (PNum z) PNull
  | None => PNull
  end.

(** The requests the routes answer.  The id of a case is the text of the
    path as it stands; the id of an event is the number the text of the
    path denotes. *)
Inductive request : Type :=
| GetIndex
| GetPlaceholder (text : string)
| GetCasesNew
| PostCasesNew (body : form)
| GetCase (id : string)
| GetTasks (id : string)
| GetChangesSaved (id : string) (eventId : Z)
| GetPerson (id : string)
| PostPerson (id : string) (body : form)
| GetClinical (id : string)
| PostClinical (id : string) (body : form)
| GetLocation (id : string)
| PostLocation (id : string) (body : form)
| GetCheckAnswers (id : string)
| GetReview (id : string)
| PostReview (id : string)
| GetSubmit (id : string)
| PostSubmit (id : string)
| GetSubmitted (id : string)
| GetApprove (id : string)
| PostApprove (id : string)
| GetApproved (id : string)
| GetReturn (id : string)
| PostReturn (id : string) (body : form)
| GetReturned (id : string)
| GetTimeline (id : string).

Definition is_post (r : request) : bool :=
  match r with
  | PostCasesNew _ | PostPerson _ _ | PostClinical _ _ | PostLocation _ _
  | PostReview _ | PostSubmit _ | PostApprove _ | PostReturn _ _ => true
  | _ => false
  end.

Definition not_found : response := Send 404 "Not found".

(** The shape of most [GET] routes: load the case, 404 or render. *)
Definition show_case (id view : string) : M response :=
  let* c := getCaseById id in
  if negb (truthy_val c) then ret not_found
  else ret (Render 200 view).

(** [ev.event_data?.before || {}]: the properties a snapshot is read by. *)
Definition snapshot_or_empty (v : option jsval) : obj :=
  match v with
  | Some (VObj o) => o
  | _ => ∅
  end.

Definition route (r : request) : M response :=
  match r with
  | GetIndex => listCases ;; ret (Render 200 "index.njk")
  | GetPlaceholder text => ret (Send 200 text)
  | GetCasesNew => ret (Render 200 "cases-new.njk")
  | PostCasesNew body =>
      let title := trimmed body "title" in
      let description := trimmed body "description" in
      if negb (truthy (PStr title)) then ret (Render 400 "cases-new.njk")
      else
        let* c := createCase (PStr title) (PStr description) (PStr "local-user") in
        let* c_id := get_member c "id" in
        ret (Redirect ("/cases/" +:+ js_String c_id))
  | GetCase id => show_case id "case-show.njk"
  | GetTasks id => show_case id "case-task-list.njk"
  | GetChangesSaved id eventId =>
      let* c := getCaseById id in
      if negb (truthy_val c) then ret not_found
      else
        let* ev := getCaseEventById eventId in
        match ev with
        | None => ret not_found
        | Some ev =>
            if negb (String.eqb (js_String (prop (ev_fields ev) "case_id"))
                                (js_String (member c "id")))
            then ret not_found
            else
              let before := snapshot_or_empty (before <$> ev_event_data ev) in
              let after := snapshot_or_empty (after <$> ev_event_data ev) in
              ret (RenderChanges (buildChangedRows before after))
        end
  | GetPerson id => show_case id "case-edit-person.njk"
  | PostPerson id body =>
      let personName := trimmed body "person_name" in
      let nhsNumber := trimmed body "nhs_number" in
      let dobDay := number_or_null body "dob_day" in
      let dobMonth := number_or_null body "dob_month" in
      let dobYear := number_or_null body "dob_year" in
      let errors :=
        negb (truthy (PStr personName)) || negb (truthy (PStr nhsNumber)) ||
        (negb (truthy dobDay) || negb (truthy dobMonth) || negb (truthy dobYear)) in
      let* c := getCaseById id in
      if negb (truthy_val c) then ret not_found
      else if errors then ret (Render 400 "case-edit-person.njk")
      else
        let* result :=
          updatePersonDetails id (PStr personName) (PStr nhsNumber) dobDay dobMonth dobYear
            (PStr "local-user") in
        match result with
        | None => ret not_found
        | Some result =>
            ret (Redirect ("/cases/" +:+ id +:+ "/changes-saved/" +:+
                           js_String (eventId result)))
        end
  | GetClinical id => show_case id "case-edit-clinical.njk"
  | PostClinical id body =>
      let symptomsDay := number_or_null body "symptoms_day" in
      let symptomsMonth := number_or_null body "symptoms_month" in
      let symptomsYear := number_or_null body "symptoms_year" in
      let errors :=
        negb (truthy symptomsDay) || negb (truthy symptomsMonth) ||
        negb (truthy symptomsYear) in
      let* c := getCaseById id in
      if negb (truthy_val c) then ret not_found
      else if errors then ret (Render 400 "case-edit-clinical.njk")
      else
        let* result :=
          updateClinicalDetails id symptomsDay symptomsMonth symptomsYear
            (PStr "local-user") in
        match result with
        | None => ret not_found
        | Some result =>
            ret (Redirect ("/cases/" +:+ id +:+ "/changes-saved/" +:+
                           js_String (eventId result)))
        end
  | GetLocation id => show_case id "case-edit-location.njk"
  | PostLocation id body =>
      let postcode := trimmed body "postcode" in
      let organisation := trimmed body "organisation" in
      let errors := negb (truthy (PStr postcode)) in
      let* c := getCaseById id in
      if negb (truthy_val c) then ret not_found
      else if errors then ret (Render 400 "case-edit-location.njk")
      else
        let* result :=
          updateLocationDetails id (PStr postcode) (PStr organisation) (PStr "local-user") in
        match result with
        | None => ret not_found
        | Some result =>
            ret (Redirect ("/cases/" +:+ id +:+ "/changes-saved/" +:+
                           js_String (eventId result)))
        end
  | GetCheckAnswers id => show_case id "case-check-answers.njk"
  | GetReview id => show_case id "case-review.njk"
  | PostReview id => show_case id "case-review.njk"
  | GetSubmit id => show_case id "case-submit-confirm.njk"
  | PostSubmit id =>
      let* updated :=
        transitionCase id (PStr "SUBMIT_FOR_REVIEW") PUndefined (PStr "local-user") in
      if negb (truthy_val updated) then ret not_found
      else ret (Redirect ("/cases/" +:+ id +:+ "/submitted"))
  | GetSubmitted id => show_case id "case-submitted.njk"
  | GetApprove id => show_case id "case-approve-confirm.njk"
  | PostApprove id =>
      let* updated :=
        transitionCase id (PStr "REVIEW_APPROVE") PUndefined (PStr "local-user") in
      if negb (truthy_val updated) then ret not_found
      else ret (Redirect ("/cases/" +:+ id +:+ "/approved"))
  | GetApproved id => show_case id "case-approved.njk"
  | GetReturn id => show_case id "case-return.njk"
  | PostReturn id body =>
      let comment := trimmed body "comment" in
      let* c := getCaseById id in
      if negb (truthy_val c) then ret not_found
      else if negb (truthy (PStr comment)) then ret (Render 400 "case-return.njk")
      else
        let* updated :=
          transitionCase id (PStr "REVIEW_RETURN") (PStr comment) (PStr "local-user") in
        if negb (truthy_val updated) then ret not_found
        else ret (Redirect ("/cases/" +:+ id +:+ "/returned"))
  | GetReturned id => show_case id "case-returned.njk"
  | GetTimeline id =>
      let* c := getCaseById id in
      if negb (truthy_val c) then ret not_found
      else
        listCaseEvents id ;;
        ret (Render 200 "case-timeline.njk")
  end.

(** [err.message]: the store's errors are told apart by their code. *)
Definition error_message (e : error) : string :=
  match e with
  | StoreError sqlstate => sqlstate
  | TypeError msg => msg
  end.

(** The error handler, [res.status(err.status || 500).send(err.message ||
    "Server error")]: an error of the store carries no [status]. *)
Definition server_error (e : error) : response :=
  Send 500 (js_String (js_or (PStr (error_message e)) (PStr "Server error"))).

(** One request through the middleware and its route: a form post needs a
    valid CSRF token, and whatever a route throws goes to the error handler. *)
Definition serve (csrf_valid : bool) (r : request) : M response :=
  if is_post r && negb csrf_valid
  then ret (Send 403 "Invalid CSRF token. Refresh the page and try again.")
  else try_catch (route r) (λ e, ret (server_error e)).

Fixpoint serve_all (rs : list (bool * request)) : M (list response) :=
  match rs with
  | [] => ret []
  | (csrf_valid, r) :: rs =>
      let* x := serve csrf_valid r in
      let* xs := serve_all rs in
      ret (x :: xs)
  end.


(** ** Template filters and the task list (server.js) *)

(** [a && b] *)
Definition js_and (a b : prim) : prim := if truthy a then b else a.

(** [c?.k] *)
Definition opt_member (c : jsval) (k : string) : prim :=
  match c with
  | VPrim PUndefined | VPrim PNull => PUndefined
  | _ => member c k
  end.

Definition formatPersonDob (c : jsval) : string :=
  formatDMY (opt_member c "dob_day") (opt_member c "dob_month") (opt_member c "dob_year").

Definition formatSymptomsDate (c : jsval) : string :=
  formatDMY (opt_member c "symptoms_day") (opt_member c "symptoms_month")
    (opt_member c "symptoms_year").

Definition hasDob (c : jsval) : bool :=
  truthy (js_and (js_and (opt_member c "dob_day") (opt_member c "dob_month"))
            (opt_member c "dob_year")).

Definition hasSymptomsDate (c : jsval) : bool :=
  truthy (js_and (js_and (opt_member c "symptoms_day") (opt_member c "symptoms_month"))
            (opt_member c "symptoms_year")).

(** [{ text }] or [{ tag: { text } }] *)
Inductive task_status : Type :=
| StatusText (text : string)
| StatusTag (text : string).

#[global] Instance task_status_eq_dec : EqDecision task_status.
Proof. solve_decision. Defined.

Definition taskStatus (complete started : bool) : task_status :=
  if complete then StatusText "Completed"
  else if started then StatusTag "In progress"
  else StatusTag "Not started".

Record task_item := TaskItem {
  item_title : string;
  item_href : string;
  item_status : task_status;
  item_hint : string
}.

(** What [GET /cases/:id/tasks] renders its view with, for the case [c] it
    has loaded: [items] and [allComplete]. *)
Definition task_list (c : jsval) : list task_item * bool :=
  let personStarted :=
    truthy (js_or (js_or (member c "person_name") (member c "nhs_number")) (PBool (hasDob c))) in
  let personComplete :=
    truthy (js_and (js_and (member c "person_name") (member c "nhs_number"))
              (PBool (hasDob c))) in
  let clinicalStarted := hasSymptomsDate c in
  let clinicalComplete := hasSymptomsDate c in
  let locationStarted := truthy (js_or (member c "postcode") (member c "organisation")) in
  let locationComplete := truthy (member c "postcode") in
  let allComplete := personComplete && clinicalComplete && locationComplete in
  let href task := "/cases/" +:+ js_String (member c "id") +:+ "/" +:+ task in
  ([ TaskItem "Add person details" (href "person")
       (taskStatus personComplete personStarted) "Name, NHS number and date of birth";
     TaskItem "Add clinical details" (href "clinical")
       (taskStatus clinicalComplete clinicalStarted) "Symptoms start date";
     TaskItem "Add location details" (href "location")
       (taskStatus locationComplete locationStarted) "Postcode and organisation";
     TaskItem "Check answers before submitting" (href "check-answers")
       (taskStatus false allComplete) "Review the information before you submit" ],
   allComplete).


(** * Specification vocabulary

    What the statements below are phrased in: the callers' view of the
    engine, the trace of store calls, and predicate transformers for [M]. *)

(** ** Snapshots and change rows *)

Definition snapshot_fields (c : jsval) : list (string * prim) :=
  (λ k, (k, nullish (member c k) PNull)) <$> snapshot_keys.

(** A date part as a snapshot holds it: absent is [null]. *)
Definition snapshot_part (s : obj) (k : string) : prim := nullish (prop s k) PNull.

Definition triple_differs (before after : obj) (k1 k2 k3 : string) : Prop :=
  snapshot_part before k1 ≠ snapshot_part after k1 ∨
  snapshot_part before k2 ≠ snapshot_part after k2 ∨
  snapshot_part before k3 ≠ snapshot_part after k3.

#[global] Instance triple_differs_dec b a k1 k2 k3 : Decision (triple_differs b a k1 k2 k3).
Proof. unfold triple_differs. apply _. Defined.

Definition triple_absent (s : obj) (k1 k2 k3 : string) : Prop :=
  snapshot_part s k1 = PNull ∧ snapshot_part s k2 = PNull ∧ snapshot_part s k3 = PNull.

(** The text a date is shown as: the formatted date, or "Not provided"
    when there is none to format. *)
Definition date_text (s : obj) (k1 k2 k3 : string) : string :=
  let t := formatDMY (prop s k1) (prop s k2) (prop s k3) in
  if decide (t = "") then "Not provided" else t.

(** The text a simple field is shown as: the text of its value, or "Not
    provided" when that is empty; an absent value has the empty text. *)
Definition field_text (s : obj) (k : string) : string :=
  let t := js_String (nullish (prop s k) (PStr "")) in
  if decide (t = "") then "Not provided" else t.

Definition rows_labelled (text : string) (rows : list summary_row) : list summary_row :=
  filter (λ r, key_text r = text) rows.

(** The rows [buildChangedRows] has collected when its loop ends. *)
Definition simple_rows (before after : obj) : list summary_row :=
  foldl (fun (rows : list summary_row) k =>
           if simple_changed before after k
           then (rows ++ [change_row (label k) k before after])%list
           else rows) [] simpleKeys.

(** ** The engine as its callers see it *)

Inductive field_edit : Type :=
| CaseDetails (title description actorId : prim)
| PersonDetails (personName nhsNumber dobDay dobMonth dobYear actorId : prim)
| ClinicalDetails (symptomsDay symptomsMonth symptomsYear actorId : prim)
| LocationDetails (postcode organisation actorId : prim).

Definition run_edit (id : string) (e : field_edit) : M (option update_result) :=
  match e with
  | CaseDetails title description actorId =>
      updateCaseDetails id title description actorId
  | PersonDetails personName nhsNumber dobDay dobMonth dobYear actorId =>
      updatePersonDetails id personName nhsNumber dobDay dobMonth dobYear actorId
  | ClinicalDetails symptomsDay symptomsMonth symptomsYear actorId =>
      updateClinicalDetails id symptomsDay symptomsMonth symptomsYear actorId
  | LocationDetails postcode organisation actorId =>
      updateLocationDetails id postcode organisation actorId
  end.

Definition edit_event_type (e : field_edit) : string :=
  match e with
  | CaseDetails _ _ _ => "EDIT_DETAILS"
  | PersonDetails _ _ _ _ _ _ => "EDIT_PERSON"
  | ClinicalDetails _ _ _ _ => "EDIT_CLINICAL"
  | LocationDetails _ _ _ => "EDIT_LOCATION"
  end.

(** The [actorId] an edit runs with, its default applied. *)
Definition edit_actor (e : field_edit) : prim :=
  match e with
  | CaseDetails _ _ a | PersonDetails _ _ _ _ _ a
  | ClinicalDetails _ _ _ a | LocationDetails _ _ a => default_arg a (PStr "local-user")
  end.

(** The [UPDATE] statement an edit issues. *)
Definition edit_stmt (id : string) (e : field_edit) : stmt :=
  match e with
  | CaseDetails title description _ =>
      UpdateDetails id title (js_or description PNull) (edit_actor e)
  | PersonDetails personName nhsNumber dobDay dobMonth dobYear _ =>
      UpdatePerson id (js_or personName PNull) (js_or nhsNumber PNull)
        (js_or dobDay PNull) (js_or dobMonth PNull) (js_or dobYear PNull) (edit_actor e)
  | ClinicalDetails symptomsDay symptomsMonth symptomsYear _ =>
      UpdateClinical id (js_or symptomsDay PNull) (js_or symptomsMonth PNull)
        (js_or symptomsYear PNull) (edit_actor e)
  | LocationDetails postcode organisation _ =>
      UpdateLocation id (js_or postcode PNull) (js_or organisation PNull) (edit_actor e)
  end.

(** The body the four update functions share, with the statement and the
    event type left open. *)
Definition update_group (id tag : string) (q : stmt) (actorId : prim)
    : M (option update_result) :=
  in_transaction (
    let* before := client_query (SelectCaseAll id) in
    let beforeRow := first_row before in
    if negb (truthy_val beforeRow) then
      client_query ROLLBACK ;;
      ret None
    else
      let* rows := client_query q in
      let updated := first_row rows in
      let* state := get_member updated "state" in
      let* eventId :=
        insertEvent id (PStr tag) state actorId PUndefined
          (Some (EventData (pickCaseSnapshot beforeRow) (pickCaseSnapshot updated))) in
      client_query COMMIT ;;
      ret (Some (UpdateResult updated eventId))).

(** The columns an edit of each field group leaves alone: all but the
    group's own, [updated_by] and [updated_at]. *)
Definition kept_by_details (r r' : case_row) : Prop :=
  c_state r' = c_state r ∧ c_created_by r' = c_created_by r ∧
  c_created_at r' = c_created_at r ∧ c_version r' = c_version r ∧
  c_assigned_to r' = c_assigned_to r ∧
  c_person_name r' = c_person_name r ∧ c_nhs_number r' = c_nhs_number r ∧
  c_dob_day r' = c_dob_day r ∧ c_dob_month r' = c_dob_month r ∧ c_dob_year r' = c_dob_year r ∧
  c_symptoms_day r' = c_symptoms_day r ∧ c_symptoms_month r' = c_symptoms_month r ∧
  c_symptoms_year r' = c_symptoms_year r ∧
  c_postcode r' = c_postcode r ∧ c_organisation r' = c_organisation r.

Definition kept_by_person (r r' : case_row) : Prop :=
  c_state r' = c_state r ∧ c_created_by r' = c_created_by r ∧
  c_created_at r' = c_created_at r ∧ c_version r' = c_version r ∧
  c_assigned_to r' = c_assigned_to r ∧
  c_title r' = c_title r ∧ c_description r' = c_description r ∧
  c_symptoms_day r' = c_symptoms_day r ∧ c_symptoms_month r' = c_symptoms_month r ∧
  c_symptoms_year r' = c_symptoms_year r ∧
  c_postcode r' = c_postcode r ∧ c_organisation r' = c_organisation r.

Definition kept_by_clinical (r r' : case_row) : Prop :=
  c_state r' = c_state r ∧ c_created_by r' = c_created_by r ∧
  c_created_at r' = c_created_at r ∧ c_version r' = c_version r ∧
  c_assigned_to r' = c_assigned_to r ∧
  c_title r' = c_title r ∧ c_description r' = c_description r ∧
  c_person_name r' = c_person_name r ∧ c_nhs_number r' = c_nhs_number r ∧
  c_dob_day r' = c_dob_day r ∧ c_dob_month r' = c_dob_month r ∧ c_dob_year r' = c_dob_year r ∧
  c_postcode r' = c_postcode r ∧ c_organisation r' = c_organisation r.

Definition kept_by_location (r r' : case_row) : Prop :=
  c_state r' = c_state r ∧ c_created_by r' = c_created_by r ∧
  c_created_at r' = c_created_at r ∧ c_version r' = c_version r ∧
  c_assigned_to r' = c_assigned_to r ∧
  c_title r' = c_title r ∧ c_description r' = c_description r ∧
  c_person_name r' = c_person_name r ∧ c_nhs_number r' = c_nhs_number r ∧
  c_dob_day r' = c_dob_day r ∧ c_dob_month r' = c_dob_month r ∧ c_dob_year r' = c_dob_year r ∧
  c_symptoms_day r' = c_symptoms_day r ∧ c_symptoms_month r' = c_symptoms_month r ∧
  c_symptoms_year r' = c_symptoms_year r.

Definition kept_by (e : field_edit) : case_row → case_row → Prop :=
  match e with
  | CaseDetails _ _ _ => kept_by_details
  | PersonDetails _ _ _ _ _ _ => kept_by_person
  | ClinicalDetails _ _ _ _ => kept_by_clinical
  | LocationDetails _ _ _ => kept_by_location
  end.

Inductive engine_call : Type :=
| Create (title description createdBy : prim)
| Edit (id : string) (e : field_edit)
| Transition (id : string) (eventType comment actorId : prim).

Inductive engine_result : Type :=
| ReturnedCase (c : jsval)
| ReturnedUpdate (result : option update_result).

Definition run_engine (c : engine_call) : M engine_result :=
  match c with
  | Create title description createdBy =>
      let* c := createCase title description createdBy in ret (ReturnedCase c)
  | Edit id e =>
      let* result := run_edit id e in ret (ReturnedUpdate result)
  | Transition id eventType comment actorId =>
      let* c := transitionCase id eventType comment actorId in ret (ReturnedCase c)
  end.

(** The legal transitions, as the specification lists them. *)
Definition legal_transition (from to : string) : Prop :=
  (from, to) ∈ [ ("DRAFT", "IN_REVIEW"); ("IN_REVIEW", "APPROVED");
                 ("IN_REVIEW", "RETURNED"); ("RETURNED", "IN_REVIEW") ].

#[global] Instance legal_transition_dec from to : Decision (legal_transition from to).
Proof. unfold legal_transition. apply _. Defined.

(** ** Traces *)

(** No call among the next [k] is made to fail. *)
Definition quiet (w : world) (k : nat) : Prop :=
  ∀ i, (i < k)%nat → faults w (i + calls w)%nat = None.

(** The first failed call of a trace, and what was called after it. *)
Fixpoint first_failure (tr : list (call * option error))
    : option (call * error * list (call * option error)) :=
  match tr with
  | [] => None
  | (c, Some e) :: rest => Some (c, e, rest)
  | (_, None) :: rest => first_failure rest
  end.

(** ** Predicate transformers *)

Definition wp {A} (m : M A) (Q : outcome A → world → Prop) (w : world) : Prop :=
  Q (m w).1 (m w).2.

Definition released (w : world) : world :=
  record Release None (set_store w (committed w) None (event_seq w)).

Definition rolled_back (w : world) : world :=
  record (ClientQuery ROLLBACK) None (set_store w (committed w) None (event_seq w)).

(** What the [catch] and [finally] blocks make of the outcome of the [try]
    block. *)
Definition after_try {A} (Q : outcome A → world → Prop) (r : outcome A) (w : world) : Prop :=
  match r with
  | Ok a => Q (Ok a) (released w)
  | Throw e =>
      match faults w (calls w) with
      | Some e2 => Q (Throw e2) (released (record (ClientQuery ROLLBACK) (Some e2) w))
      | None => Q (Throw e) (released (rolled_back w))
      end
  end.

Definition is_control (q : stmt) : bool :=
  match q with BEGIN | COMMIT | ROLLBACK => true | _ => false end.

(** The world after a statement that left the tables [t'] behind. *)
Definition written (q : stmt) (t' : tables) (w : world) : world :=
  match working w with
  | Some _ => set_store w (committed w) (Some t') (next_seq q (event_seq w))
  | None => set_store w t' None (next_seq q (event_seq w))
  end.

(** ** What an operation leaves behind *)

(** After the first statement the store failed: the tables are as before,
    exactly a rollback and the release follow, and the error thrown is the
    one the store raised, unless the rollback failed too. *)
Definition rolls_back {A} (w : world) (r : outcome A) (w' : world)
    (tr : list (call * option error)) : Prop :=
  match first_failure tr with
  | Some (ClientQuery q, e, rest) =>
      committed w' = committed w ∧
      ∃ rb, rest = [(ClientQuery ROLLBACK, rb); (Release, None)] ∧ r = Throw (default e rb)
  | _ => True
  end.

(** What holds of every run of an engine operation. *)
Definition transactional {A} (w : world) (r : outcome A) (w' : world) : Prop :=
  (∀ e, r = Throw e → committed w' = committed w) ∧
  ∃ tr, log w' = (log w ++ tr)%list ∧ calls w' = (List.length tr + calls w)%nat ∧
        rolls_back w r w' tr.

(** A committed field-group edit of the case whose key is [id]. *)
Definition edit_recorded (id tag : string) (keeps : case_row → case_row → Prop)
    (actorId : prim) (w : world) (res : update_result) (w' : world) : Prop :=
  ∃ r0 r1 actor,
    cases (committed w) !! id = Some r0 ∧
    keeps r0 r1 ∧ c_updated_at r1 = clock w (3 + calls w)%nat ∧
    to_text actorId = Some actor ∧ c_updated_by r1 = actor ∧
    committed w' =
      add_event (put_case (committed w) id r1)
        (EventRow (event_seq w) id tag (Some (c_state r0)) (Some (c_state r0)) actor None
           (clock w (4 + calls w)%nat)
           (Some (EventData (pickCaseSnapshot (VObj (row_obj (all_fields id r0))))
                            (pickCaseSnapshot (VObj (row_obj (detail_fields id r1))))))) ∧
    res = UpdateResult (VObj (row_obj (detail_fields id r1))) (PStr (pretty (event_seq w))) ∧
    event_seq w' = event_seq w + 1.

Definition edit_summary (id tag : string) (keeps : case_row → case_row → Prop)
    (actorId : prim) (w : world) (r : outcome (option update_result)) (w' : world) : Prop :=
  transactional w r w' ∧
  match r with
  | Ok (Some res) => ∃ k, uuid_in id = Some k ∧ edit_recorded k tag keeps actorId w res w'
  | _ => committed w' = committed w
  end.

(** [q] is the field-group update of the row [id] on behalf of [actorId],
    and [keeps] is what it leaves alone. *)
Definition field_update (id : string) (actorId : prim) (q : stmt)
    (keeps : case_row → case_row → Prop) : Prop :=
  match q with
  | UpdateDetails i _ _ a => i = id ∧ a = actorId ∧ keeps = kept_by_details
  | UpdatePerson i _ _ _ _ _ a => i = id ∧ a = actorId ∧ keeps = kept_by_person
  | UpdateClinical i _ _ _ a => i = id ∧ a = actorId ∧ keeps = kept_by_clinical
  | UpdateLocation i _ _ a => i = id ∧ a = actorId ∧ keeps = kept_by_location
  | _ => False
  end.

(** A committed transition of the case whose key is [id]. *)
Definition transition_recorded (id : string) (eventType comment actorId : prim)
    (w : world) (r : outcome jsval) (w' : world) : Prop :=
  ∃ r0 et actor to,
    cases (committed w) !! id = Some r0 ∧
    to_text eventType = Some et ∧
    to_text (default_arg actorId (PStr "local-user")) = Some actor ∧
    target_state eventType (PStr (c_state r0)) = PStr to ∧
    let r1 := set_state r0 to actor (clock w (3 + calls w)%nat) in
    committed w' =
      add_event (put_case (committed w) id r1)
        (EventRow (event_seq w) id et (Some (c_state r0)) (Some to) actor
           (to_text (default_arg comment PNull)) (clock w (4 + calls w)%nat) None) ∧
    r = Ok (VObj (row_obj (list_fields id r1))) ∧
    event_seq w' = event_seq w + 1.

Definition transition_summary (id : string) (eventType comment actorId : prim)
    (w : world) (r : outcome jsval) (w' : world) : Prop :=
  transactional w r w' ∧
  (committed w' = committed w ∨
   ∃ k, uuid_in id = Some k ∧ transition_recorded k eventType comment actorId w r w').

(** A committed creation. *)
Definition create_recorded (title description createdBy : prim)
    (w : world) (r : outcome jsval) (w' : world) : Prop :=
  ∃ title' actor,
    let id := uuids w (2 + calls w)%nat in
    let r1 := new_case title' (to_text (js_or description PNull)) actor
                (clock w (2 + calls w)%nat) in
    cases (committed w) !! id = None ∧
    to_text title = Some title' ∧
    to_text (default_arg createdBy (PStr "local-user")) = Some actor ∧
    committed w' =
      add_event (put_case (committed w) id r1)
        (EventRow (event_seq w) id "CREATE" None (Some "DRAFT") actor None
           (clock w (3 + calls w)%nat) None) ∧
    r = Ok (VObj (row_obj (detail_fields id r1))) ∧
    event_seq w' = event_seq w + 1.

Definition create_summary (title description createdBy : prim)
    (w : world) (r : outcome jsval) (w' : world) : Prop :=
  transactional w r w' ∧
  (committed w' = committed w ∨ create_recorded title description createdBy w r w').

(** A trace in which every call succeeded. *)
Definition clean_trace (w w' : world) (cs : list call) : Prop :=
  log w' = (log w ++ ((λ c, (c, None)) <$> cs))%list.

(** ** What the claims say *)

(** One event was appended for a field-group edit of [id], holding the
    snapshots of the row before and after the edit, and the state stayed. *)
Definition snapshot_event_written (id : string) (e : field_edit) (w w' : world) : Prop :=
  ∃ r0 r1 ev,
    cases (committed w) !! id = Some r0 ∧
    cases (committed w') !! id = Some r1 ∧
    case_events (committed w') = (case_events (committed w) ++ [ev])%list ∧
    e_case_id ev = id ∧
    e_event_type ev = edit_event_type e ∧
    e_event_data ev =
      Some (EventData (pickCaseSnapshot (VObj (row_obj (all_fields id r0))))
                      (pickCaseSnapshot (VObj (row_obj (all_fields id r1))))) ∧
    e_from_state ev = Some (c_state r0) ∧
    e_to_state ev = Some (c_state r0) ∧
    c_state r1 = c_state r0.

(** The row of [id] kept every column outside the edit's group, and no
    other row changed. *)
Definition other_columns_kept (id : string) (e : field_edit) (r0 : case_row)
    (w w' : world) : Prop :=
  ∃ r1,
    cases (committed w') !! id = Some r1 ∧
    kept_by e r0 r1 ∧
    ∀ id', id' ≠ id → cases (committed w') !! id' = cases (committed w) !! id'.

(** After the first statement the store failed inside the transaction, the
    tables are as they were and a rollback and the release are all that
    follows.  The caller gets the store's error when the rollback is
    carried out, and the error of the rollback when that fails too. *)
Definition failure_rolled_back {A} (w : world) (r : outcome A) (w' : world) : Prop :=
  (∀ e, r = Throw e → committed w' = committed w) ∧
  ∃ tr, log w' = (log w ++ tr)%list ∧
    ∀ q e rest, first_failure tr = Some (ClientQuery q, e, rest) →
      committed w' = committed w ∧
      ∃ rb, rest = [(ClientQuery ROLLBACK, rb); (Release, None)] ∧
            match rb with
            | None => r = Throw e
            | Some e' => r = Throw e'
            end.

(** The case an operation is asked to change. *)
Definition target (c : engine_call) : option string :=
  match c with
  | Create _ _ _ => None
  | Edit id _ | Transition id _ _ _ => Some id
  end.

(** What the operation returns for a case that does not exist: [null]. *)
Definition not_found_result (c : engine_call) : engine_result :=
  match c with
  | Edit _ _ => ReturnedUpdate None
  | _ => ReturnedCase (VPrim PNull)
  end.


(** The state of the case with the key [k] after a call, given its state
    before: what the code makes of the event type, and nothing else. *)
Definition state_after (c : engine_call) (k from to : string) : Prop :=
  to = from ∨
  ∃ id eventType comment actorId,
    c = Transition id eventType comment actorId ∧ uuid_in id = Some k ∧
    target_state eventType (PStr from) = PStr to.

Definition unrecognized (eventType : prim) : Prop :=
  eventType ≠ PStr "SUBMIT_FOR_REVIEW" ∧ eventType ≠ PStr "RETURN" ∧
  eventType ≠ PStr "APPROVE".

(** No case is in a state only a reviewer's decision leads to. *)
Definition never_reviewed (t : tables) : Prop :=
  ∀ id r, cases t !! id = Some r → c_state r ≠ "APPROVED" ∧ c_state r ≠ "RETURNED".

(** [m] keeps the committed tables within [P]. *)
Definition preserves (P : tables → Prop) {A} (m : M A) : Prop :=
  ∀ w, P (committed w) → P (committed (m w).2).

(** What a transition that went through has made of the case the id
    names, whose key is [k]. *)
Definition transitioned (id k : string) (eventType comment actorId : prim)
    (r0 : case_row) (to : string) (w w' : world) : Prop :=
  ∃ et actor r1 ev,
    to_text eventType = Some et ∧
    to_text (default_arg actorId (PStr "local-user")) = Some actor ∧
    transitionCase id eventType comment actorId w
      = (Ok (VObj (row_obj (list_fields k r1))), w') ∧
    r1 = set_state r0 to actor (clock w (3 + calls w)%nat) ∧
    cases (committed w') = <[k := r1]> (cases (committed w)) ∧
    case_events (committed w') = (case_events (committed w) ++ [ev])%list ∧
    ev = EventRow (event_seq w) k et (Some (c_state r0)) (Some to) actor
           (to_text (default_arg comment PNull)) (clock w (4 + calls w)%nat) None.


(** Statements that only read. *)
Definition is_read (q : stmt) : bool :=
  match q with
  | SelectCaseAll _ | SelectCaseIdState _ | SelectCases | SelectCaseById _
  | SelectCaseEventById _ | SelectCaseEvents _ => true
  | _ => false
  end.

(** The event types the routes ask transitions with. *)
Definition route_event_type (eventType : prim) : Prop :=
  eventType = PStr "SUBMIT_FOR_REVIEW" ∨ eventType = PStr "REVIEW_APPROVE" ∨
  eventType = PStr "REVIEW_RETURN".

(** ** The claims that fail, as they are stated *)

(** Worlds the engine can be in: a store that starts empty, and whatever
    engine operations and environments make of it. *)
Inductive reachable : world → Prop :=
| reachable_empty seq n lg f clk u :
    reachable (World (Tables ∅ []) None seq n lg f clk u)
| reachable_step c w :
    reachable w → reachable (run_engine c w).2
| reachable_environment w f clk u :
    reachable w →
    reachable (World (committed w) (working w) (event_seq w) (calls w) (log w) f clk u).

(** "For every reachable case no state transition outside this set ever
    occurs." *)
Definition only_legal_transitions : Prop :=
  ∀ c w id row row',
    reachable w →
    cases (committed w) !! id = Some row →
    cases (committed (run_engine c w).2) !! id = Some row' →
    c_state row' = c_state row ∨ legal_transition (c_state row) (c_state row').

(** "APPROVED is terminal (no operation moves a case out of APPROVED)." *)
Definition approved_is_terminal : Prop :=
  ∀ c w id row row',
    reachable w →
    cases (committed w) !! id = Some row →
    cases (committed (run_engine c w).2) !! id = Some row' →
    c_state row = "APPROVED" → c_state row' = "APPROVED".

(** "The error is re-raised to the caller unmodified." *)
Definition reraised_unmodified : Prop :=
  ∀ c w w' (r : outcome engine_result) tr q e rest,
    run_engine c w = (r, w') →
    log w' = (log w ++ tr)%list →
    first_failure tr = Some (ClientQuery q, e, rest) →
    r = Throw e.



(** "Normalizes every missing value to an explicit absent marker that is
    not the host language's ambient null variants." *)
Definition absent_marker_is_not_ambient : Prop :=
  ∃ marker,
    ¬ ambient_null marker ∧
    ∀ c (o : obj) k,
      pickCaseSnapshot c = VObj o → k ∈ snapshot_keys →
      ambient_null (member c k) → prop o k = marker.

(** * Vocabulary for the rest of the program *)

Definition completed : task_status := StatusText "Completed".
Definition in_progress : task_status := StatusTag "In progress".
Definition not_started : task_status := StatusTag "Not started".

(** The keys [buildChangedRows] reads. *)
Definition displayed_keys : list string :=
  (simpleKeys ++ [ "dob_day"; "dob_month"; "dob_year";
                   "symptoms_day"; "symptoms_month"; "symptoms_year" ])%list.

(** Every label a change row can carry, in the order the rows come. *)
Definition change_labels : list string :=
  ((label <$> simpleKeys) ++ [ "Date of birth"; "Symptoms start date" ])%list.

(** [String(s[k] ?? "")]: the text a simple field is compared by. *)
Definition compared_text (s : obj) (k : string) : string :=
  js_String (nullish (prop s k) (PStr "")).

(** The labels of the rows a field group's edit can change. *)
Definition group_labels (e : field_edit) : list string :=
  match e with
  | CaseDetails _ _ _ => [ "Title"; "Description" ]
  | PersonDetails _ _ _ _ _ _ => [ "Full name"; "NHS number"; "Date of birth" ]
  | ClinicalDetails _ _ _ _ => [ "Symptoms start date" ]
  | LocationDetails _ _ _ => [ "Postcode"; "Organisation" ]
  end.

(** The snapshot an event holds of the row [r], as the summary reads it. *)
Definition row_snapshot (id : string) (r : case_row) : obj :=
  snapshot_or_empty (Some (pickCaseSnapshot (VObj (row_obj (all_fields id r))))).

(** ** Requests and the engine *)

(** What a request finds in the store and leaves there: the committed
    tables and the event id sequence. *)
Definition same_store (w w' : world) : Prop :=
  committed w' = committed w ∧ event_seq w' = event_seq w.

(** A [SELECT] sent through the pool. *)
Definition is_pool_read (c : call * option error) : Prop :=
  match c.1 with
  | PoolQuery q => is_read q = true
  | _ => False
  end.

(** [m] only reads: it leaves the store as it is, and all it calls the
    store for are [SELECT]s through the pool. *)
Definition reads_only {A} (m : M A) : Prop :=
  ∀ w, same_store w (m w).2 ∧
       ∃ tr, log (m w).2 = (log w ++ tr)%list ∧ Forall is_pool_read tr.

(** Whether a form post accepts the form it is sent: no field it requires
    is missing or blank.  The workflow actions without a form accept. *)
Definition form_accepted (r : request) : bool :=
  match r with
  | PostCasesNew body => truthy (PStr (trimmed body "title"))
  | PostPerson _ body =>
      negb (negb (truthy (PStr (trimmed body "person_name"))) ||
            negb (truthy (PStr (trimmed body "nhs_number"))) ||
            (negb (truthy (number_or_null body "dob_day")) ||
             negb (truthy (number_or_null body "dob_month")) ||
             negb (truthy (number_or_null body "dob_year"))))
  | PostClinical _ body =>
      negb (negb (truthy (number_or_null body "symptoms_day")) ||
            negb (truthy (number_or_null body "symptoms_month")) ||
            negb (truthy (number_or_null body "symptoms_year")))
  | PostLocation _ body => truthy (PStr (trimmed body "postcode"))
  | PostReturn _ body => truthy (PStr (trimmed body "comment"))
  | _ => true
  end.

(** The engine call a form post makes once it has accepted the form. *)
Definition engine_call_of (r : request) : option engine_call :=
  match r with
  | PostCasesNew body =>
      Some (Create (PStr (trimmed body "title")) (PStr (trimmed body "description"))
              (PStr "local-user"))
  | PostPerson id body =>
      Some (Edit id (PersonDetails (PStr (trimmed body "person_name"))
                       (PStr (trimmed body "nhs_number"))
                       (number_or_null body "dob_day") (number_or_null body "dob_month")
                       (number_or_null body "dob_year") (PStr "local-user")))
  | PostClinical id body =>
      Some (Edit id (ClinicalDetails (number_or_null body "symptoms_day")
                       (number_or_null body "symptoms_month")
                       (number_or_null body "symptoms_year") (PStr "local-user")))
  | PostLocation id body =>
      Some (Edit id (LocationDetails (PStr (trimmed body "postcode"))
                       (PStr (trimmed body "organisation")) (PStr "local-user")))
  | PostSubmit id =>
      Some (Transition id (PStr "SUBMIT_FOR_REVIEW") PUndefined (PStr "local-user"))
  | PostApprove id =>
      Some (Transition id (PStr "REVIEW_APPROVE") PUndefined (PStr "local-user"))
  | PostReturn id body =>
      Some (Transition id (PStr "REVIEW_RETURN") (PStr (trimmed body "comment"))
              (PStr "local-user"))
  | _ => None
  end.

(** Where a form post redirects to after the engine call has returned. *)
Definition redirect_to (r : request) (res : engine_result) : string :=
  match r, res with
  | PostCasesNew _, ReturnedCase c => "/cases/" +:+ js_String (member c "id")
  | PostPerson id _, ReturnedUpdate (Some result)
  | PostClinical id _, ReturnedUpdate (Some result)
  | PostLocation id _, ReturnedUpdate (Some result) =>
      "/cases/" +:+ id +:+ "/changes-saved/" +:+ js_String (eventId result)
  | PostSubmit id, _ => "/cases/" +:+ id +:+ "/submitted"
  | PostApprove id, _ => "/cases/" +:+ id +:+ "/approved"
  | PostReturn id _, _ => "/cases/" +:+ id +:+ "/returned"
  | _, _ => ""
  end.

(** The engine returned something other than [null]. *)
Definition succeeded (res : engine_result) : Prop :=
  match res with
  | ReturnedCase c => truthy_val c = true
  | ReturnedUpdate result => is_Some result
  end.

(** The row an edit has written and returned is the one its [UPDATE]
    statement [q] makes of the tables the edit found. *)
Definition edit_applied (id : string) (q : stmt) (w : world) (res : update_result)
    (w' : world) : Prop :=
  ∃ rows t',
    sem (clock w (3 + calls w)%nat) (uuids w (3 + calls w)%nat) (event_seq w) q (committed w)
    = inr (rows, t') ∧
    cases (committed w') = cases t' ∧ updated_case res = first_row rows.

(** What a call that succeeded has committed. *)
Definition recorded (c : engine_call) (w : world) (res : engine_result) (w' : world) : Prop :=
  match c, res with
  | Create title description createdBy, ReturnedCase x =>
      create_recorded title description createdBy w (Ok x) w'
  | Edit id e, ReturnedUpdate (Some result) =>
      ∃ k, uuid_in id = Some k ∧
           edit_recorded k (edit_event_type e) (kept_by e) (edit_actor e) w result w' ∧
           edit_applied id (edit_stmt id e) w result w'
  | Transition id eventType comment actorId, ReturnedCase x =>
      ∃ k, uuid_in id = Some k ∧ transition_recorded k eventType comment actorId w (Ok x) w'
  | _, _ => False
  end.

(** What every run of an engine operation comes to: it throws and nothing
    is committed, or it returns [null] for a case that does not exist and
    nothing is committed, or it returns its result and has committed the
    case row and its event. *)
Definition engine_outcome (c : engine_call) (w : world) (r : outcome engine_result)
    (w' : world) : Prop :=
  match r with
  | Throw _ => committed w' = committed w
  | Ok res =>
      (succeeded res ∧ recorded c w res w') ∨
      (res = not_found_result c ∧ committed w' = committed w ∧
       ∃ id k, target c = Some id ∧ uuid_in id = Some k ∧ cases (committed w) !! k = None)
  end.

(** What every run of a route comes to: a redirect after an engine call
    that succeeded, or another response and nothing committed. *)
Definition route_outcome (r : request) (w : world) (x : outcome response) (w' : world)
    : Prop :=
  match x with
  | Ok (Redirect loc) =>
      ∃ c w0 res,
        form_accepted r = true ∧
        engine_call_of r = Some c ∧ same_store w w0 ∧
        run_engine c w0 = (Ok res, w') ∧ succeeded res ∧ loc = redirect_to r res
  | _ => committed w' = committed w
  end.

(** The case a request is about. *)
Definition case_of (r : request) : option string :=
  match r with
  | GetIndex | GetPlaceholder _ | GetCasesNew | PostCasesNew _ => None
  | GetCase id | GetTasks id | GetChangesSaved id _ | GetPerson id | PostPerson id _
  | GetClinical id | PostClinical id _ | GetLocation id | PostLocation id _
  | GetCheckAnswers id | GetReview id | PostReview id | GetSubmit id | PostSubmit id
  | GetSubmitted id | GetApprove id | PostApprove id | GetApproved id | GetReturn id
  | PostReturn id _ | GetReturned id | GetTimeline id => Some id
  end.

(** The same, operation by operation. *)
Definition create_outcome (title description createdBy : prim)
    (w : world) (r : outcome jsval) (w' : world) : Prop :=
  match r with
  | Ok c => create_recorded title description createdBy w (Ok c) w'
  | Throw _ => committed w' = committed w
  end.

Definition edit_outcome (id tag : string) (q : stmt) (keeps : case_row → case_row → Prop)
    (actorId : prim) (w : world) (r : outcome (option update_result)) (w' : world) : Prop :=
  match r with
  | Ok (Some res) =>
      ∃ k, uuid_in id = Some k ∧
           edit_recorded k tag keeps actorId w res w' ∧ edit_applied id q w res w'
  | Ok None =>
      committed w' = committed w ∧ ∃ k, uuid_in id = Some k ∧ cases (committed w) !! k = None
  | Throw _ => committed w' = committed w
  end.

Definition transition_outcome (id : string) (eventType comment actorId : prim)
    (w : world) (r : outcome jsval) (w' : world) : Prop :=
  match r with
  | Ok c =>
      (∃ k, uuid_in id = Some k ∧ transition_recorded k eventType comment actorId w (Ok c) w') ∨
      (c = VPrim PNull ∧ committed w' = committed w ∧
       ∃ k, uuid_in id = Some k ∧ cases (committed w) !! k = None)
  | Throw _ => committed w' = committed w
  end.

(** ** The history of a case *)

(** The events of a case, oldest first. *)
Definition events_of (t : tables) (id : string) : list event_row :=
  filter (λ e, e_case_id e = id) (case_events t).

(** Each event starts from the state the one before it led to, the first
    from [prev]. *)
Fixpoint chained (prev : option string) (evs : list event_row) : Prop :=
  match evs with
  | [] => True
  | e :: evs => e_from_state e = prev ∧ chained (e_to_state e) evs
  end.

(** The events of every case lead, in an unbroken chain that starts from no
    state, to the state the case is in; there are no events of cases that
    do not exist. *)
Definition history_matches (t : tables) : Prop :=
  ∀ id,
    match cases t !! id with
    | Some r =>
        chained None (events_of t id) ∧
        last (events_of t id) ≫= e_to_state = Some (c_state r)
    | None => events_of t id = []
    end.

(** The columns no operation writes after the case was created. *)
Definition creation_kept (r r' : case_row) : Prop :=
  c_created_by r' = c_created_by r ∧ c_created_at r' = c_created_at r ∧
  c_version r' = c_version r ∧ c_assigned_to r' = c_assigned_to r.

(** [t'] has all the events of [t], unchanged and in the same places, and
    all its cases, with the columns of their creation unchanged. *)
Definition extends (t t' : tables) : Prop :=
  case_events t `prefix_of` case_events t' ∧
  ∀ id r, cases t !! id = Some r →
          ∃ r', cases t' !! id = Some r' ∧ creation_kept r r'.

(** The ids of the events are distinct and below the next value of the
    sequence. *)
Definition event_ids_fresh (w : world) : Prop :=
  NoDup (e_id <$> case_events (committed w)) ∧
  Forall (λ e, e_id e < event_seq w) (case_events (committed w)).

(** [m] never sets the event id sequence back. *)
Definition seq_grows {A} (m : M A) : Prop := ∀ w, event_seq w ≤ event_seq (m w).2.

(** ** Reading back *)

(** The case [getCaseById] is to return for [id]. *)
Definition stored_case (t : tables) (id : string) : jsval :=
  match cases t !! id with
  | Some r => VObj (row_obj (detail_fields id r))
  | None => VPrim PNull
  end.

(** The case an engine call has returned. *)
Definition returned_case (res : engine_result) : jsval :=
  match res with
  | ReturnedCase c => c
  | ReturnedUpdate (Some result) => updated_case result
  | ReturnedUpdate None => VPrim PNull
  end.

(** Every property of [a] is a property of [b], with the same value. *)
Definition part_of (a b : jsval) : Prop :=
  match a, b with
  | VObj o, VObj o' => o ⊆ o'
  | _, _ => False
  end.

(** [getCaseById] returns [c] for [id]: it does whenever the store carries
    out the read, and it never returns anything else. *)
Definition reads_back (id : string) (w : world) (c : jsval) : Prop :=
  (quiet w 1 → ∃ w', getCaseById id w = (Ok c, w')) ∧
  (∀ c' w', getCaseById id w = (Ok c', w') → c' = c).

(** What a form post that was accepted is to leave in the case [c]. *)
Definition form_stored (r : request) (c : jsval) : Prop :=
  match r with
  | PostCasesNew body =>
      member c "title" = PStr (trimmed body "title") ∧
      member c "description" = js_or (PStr (trimmed body "description")) PNull ∧
      member c "state" = PStr "DRAFT" ∧ member c "created_by" = PStr "local-user"
  | PostPerson _ body =>
      member c "person_name" = PStr (trimmed body "person_name") ∧
      member c "nhs_number" = PStr (trimmed body "nhs_number") ∧
      member c "dob_day" = number_or_null body "dob_day" ∧
      member c "dob_month" = number_or_null body "dob_month" ∧
      member c "dob_year" = number_or_null body "dob_year"
  | PostClinical _ body =>
      member c "symptoms_day" = number_or_null body "symptoms_day" ∧
      member c "symptoms_month" = number_or_null body "symptoms_month" ∧
      member c "symptoms_year" = number_or_null body "symptoms_year"
  | PostLocation _ body =>
      member c "postcode" = PStr (trimmed body "postcode") ∧
      member c "organisation" = js_or (PStr (trimmed body "organisation")) PNull
  | PostSubmit _ => member c "state" = PStr "IN_REVIEW"
  | _ => True
  end.

(** The case a redirect is about: the one the request names, or the one
    whose page the redirect leads to. *)
Definition redirect_case (r : request) (loc id : string) : Prop :=
  match case_of r with
  | Some id' => id' = id
  | None => loc = "/cases/" +:+ id
  end.

(** The place in the task list of the task a form belongs to. *)
Definition task_of (r : request) : option nat :=
  match r with
  | PostPerson _ _ => Some 0%nat
  | PostClinical _ _ => Some 1%nat
  | PostLocation _ _ => Some 2%nat
  | _ => None
  end.

(** The field group a form edits. *)
Definition edit_of (r : request) : option (string * field_edit) :=
  match engine_call_of r with
  | Some (Edit id e) => Some (id, e)
  | _ => None
  end.

(** ** Forms *)

(** The view a form post renders again when it does not accept the form. *)
Definition form_view (r : request) : string :=
  match r with
  | PostCasesNew _ => "cases-new.njk"
  | PostPerson _ _ => "case-edit-person.njk"
  | PostClinical _ _ => "case-edit-clinical.njk"
  | PostLocation _ _ => "case-edit-location.njk"
  | PostReturn _ _ => "case-return.njk"
  | _ => ""
  end.


(** A number the store's [integer] type does not hold. *)
Definition out_of_range (p : prim) : Prop :=
  ∃ z, p = PNum z ∧ (z < -2147483648 ∨ 2147483647 < z).

#[global] Instance out_of_range_dec p : Decision (out_of_range p).
Proof.
  refine (match p with
          | PNum z => cast_if (decide (z < -2147483648 ∨ 2147483647 < z))
          | _ => right _
          end); unfold out_of_range; first [by eauto | by intros (? & [= <-] & ?) | by intros (? & [=] & ?)].
Defined.


(** ** Sample data *)

(** The id of the sample case, the id the sample store draws next, the id
    of no case, and a text that is not a uuid. *)
Definition sample_id : string := "00000000-0000-4000-8000-000000000001".
Definition drawn_id : string := "00000000-0000-4000-8000-000000000002".
Definition missing_id : string := "00000000-0000-4000-8000-000000000009".
Definition malformed_id : string := "case-9".

Definition sample_case : case_row :=
  {| c_state := "DRAFT"; c_title := "Flu cluster"; c_description := None;
     c_created_by := "local-user"; c_created_at := 1000; c_updated_at := 1000;
     c_version := 1; c_updated_by := "local-user"; c_assigned_to := None;
     c_person_name := Some "Jane Doe"; c_nhs_number := Some "123 456 7890";
     c_dob_day := Some 1; c_dob_month := Some 1; c_dob_year := Some 1990;
     c_symptoms_day := None; c_symptoms_month := None; c_symptoms_year := None;
     c_postcode := None; c_organisation := None |}.

Definition sample_tables : tables :=
  Tables {[ sample_id := sample_case ]}
    [ EventRow 1 sample_id "CREATE" None (Some "DRAFT") "local-user" None 1000 None ].

(** A store that carries out every call. *)
Definition sample_world : world :=
  {| committed := sample_tables; working := None; event_seq := 2; calls := 0; log := [];
     faults := λ _, None; clock := λ n, 2000 + Z.of_nat n; draws := λ _, 2%N |}.

(** A store that deadlocks on the fifth call, the event insert of an edit. *)
Definition deadlock : error := StoreError "40P01".

Definition failing_world : world :=
  {| committed := sample_tables; working := None; event_seq := 2; calls := 0; log := [];
     faults := λ n, if (n =? 4)%nat then Some deadlock else None;
     clock := λ n, 2000 + Z.of_nat n; draws := λ _, 2%N |}.

(** A store that deadlocks on the event insert and has lost the connection
    when the rollback is asked for. *)
Definition connection_failure : error := StoreError "08006".

Definition lost_world : world :=
  {| committed := sample_tables; working := None; event_seq := 2; calls := 0; log := [];
     faults := λ n, if (n =? 4)%nat then Some deadlock
                    else if (n =? 5)%nat then Some connection_failure else None;
     clock := λ n, 2000 + Z.of_nat n; draws := λ _, 2%N |}.

Definition empty_world : world :=
  {| committed := Tables ∅ []; working := None; event_seq := 1; calls := 0; log := [];
     faults := λ _, None; clock := λ n, 1000 + Z.of_nat n; draws := λ _, 1%N |}.

Definition sample_edit : field_edit :=
  LocationDetails (PStr "AB1 2CD") (PStr "") PUndefined.

Definition sample_snapshot : obj :=
  list_to_map [ ("dob_day", PNum 15); ("dob_month", PNum 3); ("dob_year", PNum 1990) ].

(** Forms as they are posted, and what the sample edit makes of the sample
    case. *)
Definition sample_location_form : form := list_to_map [ ("postcode", "AB1 2CD") ].

Definition sample_updated : case_row :=
  set_location sample_case (Some "AB1 2CD") None "local-user" 2003.

Definition sample_located : case_row :=
  set_location sample_case (Some "AB1 2CD") None "local-user" 2004.

Definition sample_submitted : case_row :=
  set_state sample_case "IN_REVIEW" "local-user" 2003.

Definition sample_create_event : event_row :=
  EventRow 1 sample_id "CREATE" None (Some "DRAFT") "local-user" None 1000 None.

(** * Properties *)

Lemma wp_ret {A} (a : A) Q w : Q (Ok a) w → wp (ret a) Q w.
Proof. done. Qed.

Lemma wp_throw {A} e (Q : outcome A → world → Prop) w : Q (Throw e) w → wp (throw e) Q w.
Proof. done. Qed.

Lemma wp_bind {A B} (m : M A) (k : A → M B) Q w :
  wp m (λ r w1, match r with Ok a => wp (k a) Q w1 | Throw e => Q (Throw e) w1 end) w →
  wp (bind m k) Q w.
Proof. unfold wp, bind. by destruct (m w) as [[a|e] w1]. Qed.

Lemma wp_mono {A} (m : M A) (Q Q' : outcome A → world → Prop) w :
  (∀ r w', Q r w' → Q' r w') → wp m Q w → wp m Q' w.
Proof. unfold wp. auto. Qed.

Lemma wp_connect Q w :
  match faults w (calls w) with
  | Some e => Q (Throw e) (record Connect (Some e) w)
  | None => Q (Ok tt) (record Connect None (set_store w (committed w) None (event_seq w)))
  end → wp connect Q w.
Proof. unfold wp, connect. by destruct (faults w (calls w)). Qed.

Lemma wp_control q Q w :
  is_control q = true →
  match faults w (calls w) with
  | Some e => Q (Throw e) (record (ClientQuery q) (Some e) w)
  | None => Q (Ok (Rows [])) (record (ClientQuery q) None (run_client q w).2)
  end → wp (client_query q) Q w.
Proof.
  unfold wp, client_query. destruct (faults w (calls w)); [done|].
  by destruct q.
Qed.

Lemma run_client_data q w :
  is_control q = false →
  run_client q w =
    match sem (clock w (calls w)) (uuids w (calls w)) (event_seq w) q (visible w) with
    | inl e => (inl e, set_store w (committed w) (working w) (next_seq q (event_seq w)))
    | inr (rows, t') => (inr rows, written q t' w)
    end.
Proof. by destruct q. Qed.

Lemma wp_data q Q w :
  is_control q = false →
  match faults w (calls w) with
  | Some e => Q (Throw e) (record (ClientQuery q) (Some e) w)
  | None =>
      match sem (clock w (calls w)) (uuids w (calls w)) (event_seq w) q (visible w) with
      | inl e =>
          Q (Throw e) (record (ClientQuery q) (Some e)
                         (set_store w (committed w) (working w) (next_seq q (event_seq w))))
      | inr (rows, t') => Q (Ok rows) (record (ClientQuery q) None (written q t' w))
      end
  end → wp (client_query q) Q w.
Proof.
  intros Hq. unfold wp, client_query. destruct (faults w (calls w)); [done|].
  rewrite (run_client_data q w Hq).
  by destruct (sem _ _ _ _ _) as [?|[??]].
Qed.

Lemma wp_pool q Q w :
  match faults w (calls w) with
  | Some e => Q (Throw e) (record (PoolQuery q) (Some e) w)
  | None =>
      match sem (clock w (calls w)) (uuids w (calls w)) (event_seq w) q (committed w) with
      | inl e =>
          Q (Throw e) (record (PoolQuery q) (Some e)
                         (set_store w (committed w) (working w) (next_seq q (event_seq w))))
      | inr (rows, t') =>
          Q (Ok rows) (record (PoolQuery q) None
                         (set_store w t' (working w) (next_seq q (event_seq w))))
      end
  end → wp (pool_query q) Q w.
Proof.
  unfold wp, pool_query, run_pool. destruct (faults w (calls w)); [done|].
  by destruct (sem _ _ _ _ _) as [?|[??]].
Qed.

Lemma wp_in_transaction {A} (body : M A) Q w :
  match faults w (calls w) with
  | Some e => Q (Throw e) (record Connect (Some e) w)
  | None =>
      wp (client_query BEGIN ;; body) (after_try Q)
         (record Connect None (set_store w (committed w) None (event_seq w)))
  end → wp (in_transaction body) Q w.
Proof.
  unfold in_transaction. intros H. apply wp_bind, wp_connect.
  destruct (faults w (calls w)) as [e|]; [done|].
  revert H. generalize (record Connect None (set_store w (committed w) None (event_seq w))).
  intros w1. unfold wp, try_finally, try_catch, after_try, release, released, rolled_back.
  destruct ((client_query BEGIN;; body) w1) as [[a|e] w2]; simpl; [done|].
  unfold bind, client_query, throw. 
  destruct (faults w2 (calls w2)); simpl; done.
Qed.

Lemma field_update_data id actorId q keeps : field_update id actorId q keeps → is_control q = false.
Proof. by destruct q. Qed.

Lemma inr_pair_inv {E A B} (a a' : A) (b b' : B) :
  (inr (a, b) : E + A * B) = inr (a', b') → a = a' ∧ b = b'.
Proof. by intros [= -> ->]. Qed.

Lemma update_by_id_inv t id returning set rows t' :
  update_by_id t id returning set = inr (rows, t') →
  match cases t !! id with
  | None => rows = Rows [] ∧ t' = t
  | Some r => ∃ r', set r = inr r' ∧ rows = Rows [row_obj (returning id r')] ∧
                    t' = put_case t id r'
  end.
Proof.
  unfold update_by_id. destruct (cases t !! id) as [r|]; [|by intros [= <- <-]].
  destruct (set r) as [e|r'] eqn:E; [done|]. intros [= <- <-]. eauto.
Qed.

Lemma uuid_param_ok id k : uuid_in id = Some k → uuid_param id = inr k.
Proof. unfold uuid_param. by intros ->. Qed.

Lemma uuid_param_refused id : uuid_in id = None → uuid_param id = inl invalid_text_representation.
Proof. unfold uuid_param. by intros ->. Qed.

Lemma uuid_param_inv id k : uuid_param id = inr k → uuid_in id = Some k.
Proof. unfold uuid_param. destruct (uuid_in id); by intros [= <-]. Qed.

Lemma uuid_param_error id e : uuid_param id = inl e → uuid_in id = None.
Proof. unfold uuid_param. by destruct (uuid_in id). Qed.

Lemma uuids_canonical w n : uuid_in (uuids w n) = Some (uuids w n).
Proof. apply uuid_in_out. Qed.

(** The parameter [id] of a statement that went through was read as [k]. *)
Ltac bound Hs k Hk :=
  match type of Hs with
  | context [uuid_param ?id] =>
      destruct (uuid_param id) as [?|k] eqn:Hk; [discriminate|];
      apply uuid_param_inv in Hk
  end.

Lemma sem_field_update id actorId q keeps now fresh seq t rows t' :
  field_update id actorId q keeps →
  sem now fresh seq q t = inr (rows, t') →
  ∃ k, uuid_in id = Some k ∧
    match cases t !! k with
    | None => rows = Rows [] ∧ t' = t
    | Some r => ∃ r', keeps r r' ∧ c_updated_at r' = now ∧
                      to_text actorId = Some (c_updated_by r') ∧
                      rows = Rows [row_obj (detail_fields k r')] ∧ t' = put_case t k r'
    end.
Proof.
  intros Hq Hs. destruct q; try done; destruct Hq as (-> & -> & ->); cbn [sem] in Hs;
    bound Hs k Hk; exists k; (split; [done|]);
    repeat match type of Hs with
      | match ?x with inl _ => _ | inr _ => _ end = _ => destruct x as [?|?]; [discriminate|]
      end;
    apply update_by_id_inv in Hs; destruct (cases t !! k) as [r|]; try done;
    destruct Hs as (r' & Hset & -> & ->); exists r';
    repeat match type of Hset with
      | match not_null ?x with inl _ => _ | inr _ => _ end = _ =>
          destruct x as [?|]; [|discriminate]; cbn [not_null] in Hset
      end;
    injection Hset as <-; repeat split; reflexivity.
Qed.

Lemma snapshot_has_no_undefined c k x :
  (list_to_map ((λ k, (k, nullish (member c k) PNull)) <$> snapshot_keys) : obj) !! k = Some x →
  x ≠ PUndefined.
Proof.
  intros H%elem_of_list_to_map_2. apply list_elem_of_fmap in H as (k' & [= -> ->] & _).
  by destruct (member c k').
Qed.

Lemma to_jsonb_snapshot c : to_jsonb (pickCaseSnapshot c) = pickCaseSnapshot c.
Proof.
  unfold pickCaseSnapshot. destruct (negb (truthy_val c)); [done|].
  unfold to_jsonb. f_equal. apply map_filter_id. intros k x H. simpl.
  by apply (snapshot_has_no_undefined c k).
Qed.

Lemma jsonb_snapshots b a :
  jsonb_event_data (EventData (pickCaseSnapshot b) (pickCaseSnapshot a))
  = EventData (pickCaseSnapshot b) (pickCaseSnapshot a).
Proof. unfold jsonb_event_data. cbn [before after]. by rewrite !to_jsonb_snapshot. Qed.

Lemma prop_singleton k v : prop {[ k := v ]} k = v.
Proof. unfold prop. by rewrite lookup_singleton_eq. Qed.

Lemma prop_detail_state id r : prop (row_obj (detail_fields id r)) "state" = PStr (c_state r).
Proof. reflexivity. Qed.

Ltac wsimpl :=
  cbn [record set_store written committed working event_seq calls log faults clock uuids draws
       visible run_client released rolled_back fst snd after_try next_seq draws_event_id
       option_list option_rect fmap list_fmap compose
       first_row truthy_val truthy negb member is_control] in *.

Lemma wp_get_member_obj o k Q w : Q (Ok (prop o k)) w → wp (get_member (VObj o) k) Q w.
Proof. done. Qed.

Ltac wp_step :=
  lazymatch goal with
  | |- wp (bind _ _) _ _ => apply wp_bind
  | |- wp (get_member (VObj _) _) _ _ => apply wp_get_member_obj
  | |- wp (insertEvent _ _ _ _ _ _) _ _ => unfold insertEvent
  | |- wp (ret _) _ _ => apply wp_ret
  | |- wp (throw _) _ _ => apply wp_throw
  end; wsimpl.

(** A leaf where the [try] block has thrown: the handler's rollback runs. *)
Ltac thrown tac :=
  wsimpl;
  lazymatch goal with
  | |- match ?f ?n with Some _ => _ | None => _ end => destruct (f n) eqn:?; wsimpl; tac
  | |- _ => tac
  end.

(** One store call: the injected fault, then what the statement does. *)
Ltac wp_call tac :=
  repeat wp_step;
  lazymatch goal with
  | |- wp (in_transaction _) _ _ => apply wp_in_transaction
  | |- wp (client_query ?q) _ _ =>
      first [ apply wp_control; [reflexivity|]
            | apply wp_data; [first [reflexivity | eauto using field_update_data]|] ]
  | |- wp (pool_query _) _ _ => apply wp_pool
  end;
  wsimpl;
  lazymatch goal with
  | |- match ?f ?n with Some _ => _ | None => _ end =>
      let F := fresh "F" in destruct (f n) eqn:F; [thrown tac|]
  end;
  try lazymatch goal with
  | |- match sem ?a ?b ?c ?q ?t with inl _ => _ | inr _ => _ end =>
      let S := fresh "Hsem" in
      destruct (sem a b c q t) as [?|[??]] eqn:S;
      [first [by cbn [sem] in S | thrown tac]|]
  end.

Lemma sem_insert_event now fresh seq caseId eventType state actorId comment eventData t rows t' :
  sem now fresh seq (InsertEvent caseId eventType state actorId comment eventData) t
    = inr (rows, t') →
  ∃ k eventType' actorId',
    uuid_in caseId = Some k ∧
    to_text eventType = Some eventType' ∧ to_text actorId = Some actorId' ∧
    is_Some (cases t !! k) ∧
    rows = Rows [ {[ "id" := PStr (pretty seq) ]} ] ∧
    t' = add_event t (EventRow seq k eventType' (to_text state) (to_text state) actorId'
                        (to_text comment) now (jsonb_event_data <$> eventData)).
Proof.
  cbn [sem]. unfold references_case. intros Hs. bound Hs k Hk. revert Hs.
  destruct (to_text eventType) as [et|]; cbn [not_null]; [|done].
  destruct (to_text actorId) as [a|]; cbn [not_null]; [|done].
  destruct (cases t !! k) as [r|] eqn:E; [|done].
  intros [<- <-]%inr_pair_inv. exists k, et, a. rewrite E. repeat split; eauto.
Qed.

Lemma sem_select_all now fresh seq id t rows t' :
  sem now fresh seq (SelectCaseAll id) t = inr (rows, t') →
  ∃ k, uuid_in id = Some k ∧
       rows = Rows (row_obj ∘ all_fields k <$> option_list (cases t !! k)) ∧ t' = t.
Proof. cbn [sem]. intros Hs. bound Hs k Hk. injection Hs as <- <-. eauto. Qed.

Lemma sem_select_id_state now fresh seq id t rows t' :
  sem now fresh seq (SelectCaseIdState id) t = inr (rows, t') →
  ∃ k, uuid_in id = Some k ∧
       rows = Rows (row_obj ∘ id_state_fields k <$> option_list (cases t !! k)) ∧ t' = t.
Proof. cbn [sem]. intros Hs. bound Hs k Hk. injection Hs as <- <-. eauto. Qed.

Lemma sem_select_by_id now fresh seq id t rows t' :
  sem now fresh seq (SelectCaseById id) t = inr (rows, t') →
  ∃ k, uuid_in id = Some k ∧
       rows = Rows (row_obj ∘ detail_fields k <$> option_list (cases t !! k)) ∧ t' = t.
Proof. cbn [sem]. intros Hs. bound Hs k Hk. injection Hs as <- <-. eauto. Qed.

Lemma field_update_state id actorId q keeps r r' :
  field_update id actorId q keeps → keeps r r' → c_state r' = c_state r.
Proof. destruct q; try done; intros (_ & _ & ->) H; apply H. Qed.

Lemma field_update_next_seq id actorId q keeps seq : field_update id actorId q keeps → next_seq q seq = seq.
Proof. by destruct q. Qed.


Ltac trace_leaf :=
  unfold transactional; wsimpl;
  split; [first [done | intros ? ?; reflexivity]|];
  eexists; split; [rewrite <- ?app_assoc; reflexivity|];
  split; [reflexivity|];
  unfold rolls_back; cbn [first_failure app];
  first [ exact I | split; [reflexivity|]; eexists; split; reflexivity ].

Ltac edit_leaf := unfold edit_summary; wsimpl; split; [trace_leaf | done].

Lemma update_group_summary id tag q keeps actorId w :
  field_update id actorId q keeps →
  wp (update_group id tag q actorId) (edit_summary id tag keeps actorId w) w.
Proof.
  intros Hq. destruct w as [c wk seq n lg f clk u]. unfold update_group.
  wp_call edit_leaf. wp_call edit_leaf. wp_call edit_leaf.
  apply sem_select_all in Hsem as (k & Hk & -> & ->).
  destruct (cases c !! k) as [r0|] eqn:Hr0; wsimpl.
  2:{ wp_call edit_leaf. wp_step. edit_leaf. }
  wp_call edit_leaf.
  apply (sem_field_update id actorId q keeps) in Hsem as (k' & Hk' & Hsem); [|done].
  assert (k' = k) as -> by congruence. rewrite Hr0 in Hsem.
  destruct Hsem as (r1 & Hkept & Hat & Hby & -> & ->). wsimpl.
  wp_step. wp_step. rewrite prop_detail_state.
  wp_call edit_leaf.
  apply sem_insert_event in Hsem as (k' & et & actor & Hk'' & [= <-] & Hactor & _ & -> & ->).
  assert (k' = k) as -> by congruence. wsimpl.
  wp_step. wp_call edit_leaf. wp_step.
  split; [trace_leaf|].
  rewrite (field_update_next_seq id actorId q keeps) by done.
  exists k. split; [done|]. exists r0, r1, actor. wsimpl.
  cbn [fmap option_fmap option_map to_text default_arg js_String].
  rewrite jsonb_snapshots, prop_singleton, (field_update_state id actorId q keeps r0 r1) by done.
  repeat split; try done. congruence.
Qed.

Lemma update_by_id_state_inv t id set rows t' :
  update_by_id t id list_fields set = inr (rows, t') →
  match cases t !! id with
  | None => rows = Rows [] ∧ t' = t
  | Some r => ∃ r', set r = inr r' ∧ rows = Rows [row_obj (list_fields id r')] ∧
                    t' = put_case t id r'
  end.
Proof. apply update_by_id_inv. Qed.

Lemma sem_update_state now fresh seq id toState actorId t rows t' :
  sem now fresh seq (UpdateState id toState actorId) t = inr (rows, t') →
  ∃ k, uuid_in id = Some k ∧
    match cases t !! k with
    | None => rows = Rows [] ∧ t' = t
    | Some r => ∃ s a, to_text toState = Some s ∧ to_text actorId = Some a ∧
                       rows = Rows [row_obj (list_fields k (set_state r s a now))] ∧
                       t' = put_case t k (set_state r s a now)
    end.
Proof.
  cbn [sem]. intros H. bound H k Hk. exists k. split; [done|].
  apply update_by_id_inv in H. destruct (cases t !! k) as [r|]; [|done].
  destruct H as (r' & Hset & -> & ->).
  destruct (to_text toState) as [s|]; cbn [not_null] in Hset; [|done].
  destruct (to_text actorId) as [a|]; cbn [not_null] in Hset; [|done].
  injection Hset as <-. exists s, a. done.
Qed.

Lemma sem_insert_transition_event now fresh seq id eventType fromState toState comment
    actorId t rows t' :
  sem now fresh seq (InsertTransitionEvent id eventType fromState toState comment actorId) t
    = inr (rows, t') →
  ∃ k eventType' actorId',
    uuid_in id = Some k ∧
    to_text eventType = Some eventType' ∧ to_text actorId = Some actorId' ∧
    is_Some (cases t !! k) ∧ rows = Rows [] ∧
    t' = add_event t (EventRow seq k eventType' (to_text fromState) (to_text toState)
                        actorId' (to_text comment) now None).
Proof.
  cbn [sem]. unfold references_case. intros Hs. bound Hs k Hk. revert Hs.
  destruct (to_text eventType) as [et|]; cbn [not_null]; [|done].
  destruct (to_text actorId) as [a|]; cbn [not_null]; [|done].
  destruct (cases t !! k) as [r|] eqn:E; [|done].
  intros [<- <-]%inr_pair_inv. exists k, et, a. rewrite E. repeat split; eauto.
Qed.

Lemma sem_insert_case now fresh seq title description createdBy t rows t' :
  sem now fresh seq (InsertCase title description createdBy) t = inr (rows, t') →
  ∃ title' actor,
    to_text title = Some title' ∧ to_text createdBy = Some actor ∧
    cases t !! fresh = None ∧
    let r := new_case title' (to_text description) actor now in
    rows = Rows [row_obj (detail_fields fresh r)] ∧ t' = put_case t fresh r.
Proof.
  cbn [sem].
  destruct (to_text title) as [ti|]; cbn [not_null]; [|done].
  destruct (to_text createdBy) as [a|]; cbn [not_null]; [|done].
  destruct (cases t !! fresh) as [r|] eqn:E; [done|].
  cbv zeta. intros [<- <-]%inr_pair_inv. exists ti, a. repeat split; eauto.
Qed.

Lemma sem_insert_create_event now fresh seq caseId state createdBy t rows t' :
  sem now fresh seq (InsertCreateEvent caseId state createdBy) t = inr (rows, t') →
  ∃ id k actor,
    to_text caseId = Some id ∧ uuid_in id = Some k ∧ to_text createdBy = Some actor ∧
    is_Some (cases t !! k) ∧ rows = Rows [] ∧
    t' = add_event t (EventRow seq k "CREATE" None (to_text state) actor None now None).
Proof.
  cbn [sem]. unfold references_case, uuid_bind.
  destruct (to_text caseId) as [i|]; cbn [not_null]; [|done].
  destruct (uuid_in i) as [k|] eqn:Hk; cbn [not_null]; [|done].
  destruct (to_text createdBy) as [a|]; cbn [not_null]; [|done].
  destruct (cases t !! k) as [r|] eqn:E; [|done].
  intros [<- <-]%inr_pair_inv. exists i, k, a. rewrite E. repeat split; eauto.
Qed.

Lemma prop_id_state_state id r : prop (row_obj (id_state_fields id r)) "state" = PStr (c_state r).
Proof. reflexivity. Qed.

Lemma prop_detail_id id r : prop (row_obj (detail_fields id r)) "id" = PStr id.
Proof. reflexivity. Qed.

Lemma target_state_text eventType s : ∃ to, target_state eventType (PStr s) = PStr to.
Proof. unfold target_state. repeat case_match; eauto. Qed.

Ltac transition_leaf :=
  unfold transition_summary; wsimpl; split; [trace_leaf | try (by left)].

Lemma transitionCase_summary id eventType comment actorId w :
  wp (transitionCase id eventType comment actorId)
     (transition_summary id eventType comment actorId w) w.
Proof.
  destruct w as [c wk seq n lg f clk u]. unfold transitionCase.
  wp_call transition_leaf. wp_call transition_leaf. wp_call transition_leaf.
  apply sem_select_id_state in Hsem as (k & Hk & -> & ->).
  destruct (cases c !! k) as [r0|] eqn:Hr0; wsimpl.
  2:{ wp_call transition_leaf. wp_step. transition_leaf. }
  rewrite prop_id_state_state.
  destruct (target_state_text eventType (c_state r0)) as [to Hto]. rewrite Hto.
  wp_call transition_leaf.
  apply sem_update_state in Hsem as (k' & Hk' & Hsem).
  assert (k' = k) as -> by congruence. rewrite Hr0 in Hsem.
  destruct Hsem as (s & a & [= <-] & Ha & -> & ->). wsimpl.
  wp_call transition_leaf.
  apply sem_insert_transition_event in Hsem as (k' & et & a' & Hk'' & Het & Ha' & _ & -> & ->).
  assert (k' = k) as -> by congruence. wsimpl.
  wp_call transition_leaf. wp_step.
  transition_leaf. right. exists k. split; [done|]. exists r0, et, a, to. wsimpl.
  assert (a' = a) as -> by congruence.
  cbn [to_text js_String]. repeat split; done.
Qed.

Ltac create_leaf :=
  unfold create_summary; wsimpl; split; [trace_leaf | try (by left)].

Lemma createCase_summary title description createdBy w :
  wp (createCase title description createdBy)
     (create_summary title description createdBy w) w.
Proof.
  destruct w as [c wk seq n lg f clk u]. unfold createCase.
  wp_call create_leaf. wp_call create_leaf. wp_call create_leaf.
  apply sem_insert_case in Hsem as (title' & actor & Ht & Ha & Hfresh & -> & ->). wsimpl.
  wp_step. wp_step. wp_step. wp_step. rewrite prop_detail_id, prop_detail_state.
  wp_call create_leaf.
  apply sem_insert_create_event in Hsem as (i & k & a' & [= <-] & Hk & Ha' & _ & -> & ->).
  rewrite uuid_in_out in Hk. injection Hk as <-. wsimpl.
  wp_call create_leaf. wp_step.
  create_leaf. right. exists title', actor. wsimpl.
  assert (a' = actor) as -> by congruence.
  cbn [to_text js_String new_case c_state]. repeat split; done.
Qed.

Lemma sem_update_state_ok now fresh seq id k toState actorId t r s a :
  uuid_in id = Some k →
  cases t !! k = Some r → to_text toState = Some s → to_text actorId = Some a →
  sem now fresh seq (UpdateState id toState actorId) t
  = inr (Rows [row_obj (list_fields k (set_state r s a now))],
         put_case t k (set_state r s a now)).
Proof.
  intros Hk Hr Hs Ha. cbn [sem]. rewrite (uuid_param_ok id k Hk).
  unfold update_by_id. by rewrite Hr, Hs, Ha.
Qed.

Lemma sem_insert_transition_event_ok now fresh seq id k eventType fromState toState comment
    actorId t et a :
  uuid_in id = Some k →
  to_text eventType = Some et → to_text actorId = Some a → is_Some (cases t !! k) →
  sem now fresh seq (InsertTransitionEvent id eventType fromState toState comment actorId) t
  = inr (Rows [],
         add_event t (EventRow seq k et (to_text fromState) (to_text toState) a
                        (to_text comment) now None)).
Proof.
  intros Hk He Ha [r Hr]. cbn [sem]. rewrite (uuid_param_ok id k Hk).
  unfold references_case. by rewrite He, Ha, Hr.
Qed.

(** The instances of [quiet] for the calls of one operation. *)
Ltac quiet_at H i :=
  let Q := fresh "Q" in
  try (assert (Q := H i ltac:(lia)); cbn [Nat.add calls faults] in Q).

Ltac quiet_calls H :=
  quiet_at H 0%nat; quiet_at H 1%nat; quiet_at H 2%nat; quiet_at H 3%nat;
  quiet_at H 4%nat; quiet_at H 5%nat; quiet_at H 6%nat; quiet_at H 7%nat.

(** A store call that is not made to fail. *)
Ltac wp_quiet :=
  repeat wp_step;
  lazymatch goal with
  | |- wp (in_transaction _) _ _ => apply wp_in_transaction
  | |- wp (client_query ?q) _ _ =>
      first [ apply wp_control; [reflexivity|] | apply wp_data; [reflexivity|] ]
  | |- wp (pool_query _) _ _ => apply wp_pool
  end;
  wsimpl;
  lazymatch goal with
  | |- match ?f ?n with Some _ => _ | None => _ end =>
      let F := fresh "F" in
      destruct (f n) eqn:F; [ exfalso; congruence | clear F ]
  end.

Ltac side :=
  first [ eassumption | reflexivity
        | cbn [put_case add_event cases]; rewrite lookup_insert_eq; eauto ].

(** The same, for a statement that [eq] says succeeds. *)
Ltac wp_run eq := wp_quiet; erewrite eq by side; wsimpl.

(** The same, for a [SELECT] or a transaction command. *)
Ltac wp_read :=
  wp_quiet; cbn [sem];
  repeat match goal with
         | H : uuid_in ?id = Some _ |- context [uuid_param ?id] =>
             rewrite (uuid_param_ok id _ H)
         | H : uuid_in ?id = None |- context [uuid_param ?id] =>
             rewrite (uuid_param_refused id H)
         end;
  wsimpl.

Lemma transitionCase_run id k eventType comment actorId w r0 et actor :
  quiet w 6 →
  uuid_in id = Some k →
  cases (committed w) !! k = Some r0 →
  to_text eventType = Some et →
  to_text (default_arg actorId (PStr "local-user")) = Some actor →
  wp (transitionCase id eventType comment actorId)
     (λ r w', transition_recorded k eventType comment actorId w r w' ∧
              clean_trace w w'
                (let toState := target_state eventType (PStr (c_state r0)) in
                 let comment := default_arg comment PNull in
                 let actorId := default_arg actorId (PStr "local-user") in
                 [ Connect; ClientQuery BEGIN; ClientQuery (SelectCaseIdState id);
                   ClientQuery (UpdateState id toState actorId);
                   ClientQuery (InsertTransitionEvent id eventType (PStr (c_state r0)) toState
                                  comment actorId);
                   ClientQuery COMMIT; Release ])) w.
Proof.
  intros Hq Hk Hr0 Het Hactor. destruct w as [c wk seq n lg f clk u]. cbn [committed] in Hr0.
  quiet_calls Hq. unfold transitionCase.
  wp_read. wp_read. wp_read. rewrite Hr0. wsimpl. rewrite prop_id_state_state.
  destruct (target_state_text eventType (c_state r0)) as [to Hto]. rewrite Hto.
  wp_run sem_update_state_ok.
  wp_run sem_insert_transition_event_ok.
  wp_read. wp_step.
  split.
  - exists r0, et, actor, to. wsimpl. cbn [to_text js_String]. repeat split; done.
  - unfold clean_trace. wsimpl. rewrite <- !app_assoc. reflexivity.
Qed.

Lemma transitionCase_not_found id k eventType comment actorId w :
  quiet w 4 →
  uuid_in id = Some k →
  cases (committed w) !! k = None →
  wp (transitionCase id eventType comment actorId)
     (λ r w', r = Ok (VPrim PNull) ∧ committed w' = committed w ∧
              clean_trace w w'
                [ Connect; ClientQuery BEGIN; ClientQuery (SelectCaseIdState id);
                  ClientQuery ROLLBACK; Release ]) w.
Proof.
  intros Hq Hk Hr0. destruct w as [c wk seq n lg f clk u]. cbn [committed] in Hr0.
  quiet_calls Hq. unfold transitionCase.
  wp_read. wp_read. wp_read. rewrite Hr0. wsimpl.
  wp_read. wp_step.
  repeat split. unfold clean_trace. wsimpl. rewrite <- !app_assoc. reflexivity.
Qed.

(** A text that is not a uuid is refused where the case is read. *)
Lemma transitionCase_refused id eventType comment actorId w :
  quiet w 4 →
  uuid_in id = None →
  wp (transitionCase id eventType comment actorId)
     (λ r w', r = Throw invalid_text_representation ∧ committed w' = committed w ∧
              log w' = (log w ++
                        [ (Connect, None); (ClientQuery BEGIN, None);
                          (ClientQuery (SelectCaseIdState id), Some invalid_text_representation);
                          (ClientQuery ROLLBACK, None); (Release, None) ])%list) w.
Proof.
  intros Hq Hk. destruct w as [c wk seq n lg f clk u].
  quiet_calls Hq. unfold transitionCase.
  wp_read. wp_read. wp_read. rewrite Q2. wsimpl.
  repeat split. rewrite <- !app_assoc. reflexivity.
Qed.



(** ** The snapshot *)

Lemma snapshot_keys_NoDup : NoDup snapshot_keys.
Proof. compute_done. Qed.

Lemma snapshot_fields_keys c : (snapshot_fields c).*1 = snapshot_keys.
Proof. reflexivity. Qed.

Lemma pickCaseSnapshot_truthy c :
  truthy_val c = true → pickCaseSnapshot c = VObj (list_to_map (snapshot_fields c)).
Proof. intros H. unfold pickCaseSnapshot. rewrite H. reflexivity. Qed.

Lemma snapshot_fields_lookup c k :
  k ∈ snapshot_keys →
  (list_to_map (snapshot_fields c) : obj) !! k = Some (nullish (member c k) PNull).
Proof.
  intros Hk. apply elem_of_list_to_map.
  - rewrite snapshot_fields_keys. apply snapshot_keys_NoDup.
  - unfold snapshot_fields. apply list_elem_of_fmap. eauto.
Qed.

Lemma snapshot_fields_dom c :
  dom (list_to_map (snapshot_fields c) : obj) = list_to_set snapshot_keys.
Proof. by rewrite dom_list_to_map_L, snapshot_fields_keys. Qed.

Lemma nullish_null_not_undefined p : nullish p PNull ≠ PUndefined.
Proof. by destruct p. Qed.

(** C10 (as amended).  [pickCaseSnapshot] is a total function.  Of a falsy
    case it returns [null].  Of any other case it returns an object whose
    properties are exactly the fifteen snapshot keys, each holding the
    case's value for that key, or [null] where that value is [undefined] or
    [null]: a missing value is normalized to JavaScript's own [null], and no
    property of a snapshot is [undefined]. *)
Theorem pickCaseSnapshot_normalizes_to_null (c : jsval) :
  if truthy_val c then
    ∃ o : obj,
      pickCaseSnapshot c = VObj o ∧
      dom o = list_to_set snapshot_keys ∧
      Forall (λ k, o !! k = Some (nullish (member c k) PNull) ∧ prop o k ≠ PUndefined)
        snapshot_keys
  else pickCaseSnapshot c = VPrim PNull.
Proof.
  destruct (truthy_val c) eqn:Ht.
  - exists (list_to_map (snapshot_fields c)).
    split; [by apply pickCaseSnapshot_truthy|].
    split; [apply snapshot_fields_dom|].
    apply Forall_forall. intros k Hk.
    pose proof (snapshot_fields_lookup c k Hk) as E. split; [done|].
    unfold prop. rewrite E. apply nullish_null_not_undefined.
  - unfold pickCaseSnapshot. by rewrite Ht.
Qed.

Lemma snapshot_of_row id r :
  pickCaseSnapshot (VObj (row_obj (detail_fields id r)))
  = pickCaseSnapshot (VObj (row_obj (all_fields id r))).
Proof. reflexivity. Qed.

(** ** The change summary *)

Lemma buildChangedRows_parts before after :
  buildChangedRows before after
  = (simple_rows before after
     ++ (if dobChanged before after
         then [change_row "Date of birth" "dob_day" before after] else [])
     ++ (if symptomsChanged before after
         then [change_row "Symptoms start date" "symptoms_day" before after] else []))%list.
Proof.
  unfold buildChangedRows. fold (simple_rows before after).
  destruct (dobChanged before after), (symptomsChanged before after);
    cbn [app]; rewrite <- ?app_assoc, ?app_nil_r; reflexivity.
Qed.

Lemma simple_rows_labels before after :
  Forall (λ r, key_text r ∈ label <$> simpleKeys) (simple_rows before after).
Proof.
  unfold simple_rows. cbn [foldl simpleKeys].
  repeat match goal with
         | |- context [simple_changed ?b ?a ?k] => destruct (simple_changed b a k)
         end;
    cbn [app]; repeat constructor; compute_done.
Qed.

Lemma rows_labelled_simple text before after :
  text ∉ label <$> simpleKeys → rows_labelled text (simple_rows before after) = [].
Proof.
  intros Hn. unfold rows_labelled.
  induction (simple_rows_labels before after) as [|r l Hr _ IH]; [done|].
  rewrite filter_cons. destruct (decide (key_text r = text)) as [<-|]; [done|]. exact IH.
Qed.

Lemma part_changed_differs before after k :
  part_changed before after k = bool_decide (snapshot_part before k ≠ snapshot_part after k).
Proof.
  unfold part_changed, strict_eq, snapshot_part.
  repeat case_bool_decide; done.
Qed.

Lemma dobChanged_differs before after :
  dobChanged before after
  = bool_decide (triple_differs before after "dob_day" "dob_month" "dob_year").
Proof.
  unfold dobChanged, triple_differs. rewrite !part_changed_differs.
  repeat case_bool_decide; cbn; tauto.
Qed.

Lemma symptomsChanged_differs before after :
  symptomsChanged before after
  = bool_decide (triple_differs before after "symptoms_day" "symptoms_month" "symptoms_year").
Proof.
  unfold symptomsChanged, triple_differs. rewrite !part_changed_differs.
  repeat case_bool_decide; cbn; tauto.
Qed.

Lemma snapshot_part_absent s k : snapshot_part s k = PNull → truthy (prop s k) = false.
Proof. unfold snapshot_part. by destruct (prop s k). Qed.

Lemma formatDMY_absent day month year :
  truthy day = false → formatDMY day month year = "".
Proof. intros H. unfold formatDMY. by rewrite H. Qed.

Lemma formatDMY_date (d m y t : Z) :
  d ≠ 0 → m ≠ 0 → y ≠ 0 → Date_getTime y (m - 1) d = Some t →
  formatDMY (PNum d) (PNum m) (PNum y) = toLocaleDateString t.
Proof.
  intros Hd Hm Hy Ht. unfold formatDMY. cbn [truthy js_Number].
  rewrite !(proj2 (Z.eqb_neq _ 0)) by done. cbn [negb orb]. by rewrite Ht.
Qed.

Lemma or_not_provided_nonempty s : s ≠ "" → or_not_provided s = s.
Proof.
  intros H. unfold or_not_provided. destruct (String.eqb_spec s ""); done.
Qed.

Lemma or_not_provided_text s :
  or_not_provided s = if decide (s = "") then "Not provided" else s.
Proof.
  unfold or_not_provided. destruct (String.eqb_spec s "") as [->|Hne]; [done|].
  by rewrite decide_False.
Qed.

Lemma displayValue_dob s :
  displayValue "dob_day" s = date_text s "dob_day" "dob_month" "dob_year".
Proof.
  unfold displayValue, date_text. cbn [String.eqb Ascii.eqb Bool.eqb].
  apply or_not_provided_text.
Qed.

Lemma displayValue_symptoms s :
  displayValue "symptoms_day" s = date_text s "symptoms_day" "symptoms_month" "symptoms_year".
Proof.
  unfold displayValue, date_text. cbn [String.eqb Ascii.eqb Bool.eqb].
  apply or_not_provided_text.
Qed.

(** C9.  The rows [buildChangedRows] labels "Date of birth" are exactly one
    row when any of [dob_day], [dob_month], [dob_year] differs between the
    two snapshots and none otherwise, whatever the number of parts that
    differ.  The row's value is the markup that shows, after "From: " and
    "To: ", the date of the whole triple before and after: the formatted
    date, or "Not provided" when there is none to format.  That text is
    "Not provided" when the triple is absent, and the formatted date when
    day, month and year are numbers of a date the host can format.  The same
    holds of the symptoms date, under the label "Symptoms start date". *)
Theorem buildChangedRows_date_groups (before after : obj) :
  rows_labelled "Date of birth" (buildChangedRows before after)
  = (if decide (triple_differs before after "dob_day" "dob_month" "dob_year")
     then [ SummaryRow "Date of birth"
              ("<span class=" +:+ dquote +:+ "govuk-body" +:+ dquote +:+ ">From: " +:+
               date_text before "dob_day" "dob_month" "dob_year" +:+
               "</span><br><span class=" +:+ dquote +:+ "govuk-body" +:+ dquote +:+
               ">To: " +:+ date_text after "dob_day" "dob_month" "dob_year" +:+ "</span>") ]
     else []) ∧
  rows_labelled "Symptoms start date" (buildChangedRows before after)
  = (if decide (triple_differs before after "symptoms_day" "symptoms_month" "symptoms_year")
     then [ SummaryRow "Symptoms start date"
              ("<span class=" +:+ dquote +:+ "govuk-body" +:+ dquote +:+ ">From: " +:+
               date_text before "symptoms_day" "symptoms_month" "symptoms_year" +:+
               "</span><br><span class=" +:+ dquote +:+ "govuk-body" +:+ dquote +:+
               ">To: " +:+ date_text after "symptoms_day" "symptoms_month" "symptoms_year" +:+
               "</span>") ]
     else []) ∧
  (∀ (s : obj) (k1 k2 k3 : string),
     triple_absent s k1 k2 k3 → date_text s k1 k2 k3 = "Not provided") ∧
  (∀ (s : obj) (k1 k2 k3 : string) (d m y t : Z),
     d ≠ 0 → m ≠ 0 → y ≠ 0 →
     Date_getTime y (m - 1) d = Some t → toLocaleDateString t ≠ "" →
     prop s k1 = PNum d → prop s k2 = PNum m → prop s k3 = PNum y →
     date_text s k1 k2 k3 = toLocaleDateString t).
Proof.
  split; [|split; [|split]].
  - rewrite buildChangedRows_parts. unfold rows_labelled. rewrite !filter_app.
    fold (rows_labelled "Date of birth" (simple_rows before after)).
    rewrite rows_labelled_simple by compute_done.
    rewrite dobChanged_differs. unfold change_row, change_html. rewrite !displayValue_dob.
    destruct (symptomsChanged before after);
      (case_bool_decide; [rewrite decide_True by done | rewrite decide_False by done]);
      reflexivity.
  - rewrite buildChangedRows_parts. unfold rows_labelled. rewrite !filter_app.
    fold (rows_labelled "Symptoms start date" (simple_rows before after)).
    rewrite rows_labelled_simple by compute_done.
    rewrite symptomsChanged_differs. unfold change_row, change_html.
    rewrite !displayValue_symptoms.
    destruct (dobChanged before after);
      (case_bool_decide; [rewrite decide_True by done | rewrite decide_False by done]);
      reflexivity.
  - intros s k1 k2 k3 (Hd & _ & _). apply snapshot_part_absent in Hd.
    unfold date_text. by rewrite formatDMY_absent.
  - intros s k1 k2 k3 d m y t Hd Hm Hy Ht Hne E1 E2 E3. unfold date_text.
    rewrite E1, E2, E3, (formatDMY_date d m y t) by done. by rewrite decide_False.
Qed.

(** ** The field-group updates *)

Lemma wp_elim {A} (m : M A) (Q : outcome A → world → Prop) w r w' :
  m w = (r, w') → wp m Q w → Q r w'.
Proof. unfold wp. by intros ->. Qed.

Lemma run_edit_update_group id e :
  run_edit id e = update_group id (edit_event_type e) (edit_stmt id e) (edit_actor e).
Proof. by destruct e. Qed.

Lemma edit_field_update id e : field_update id (edit_actor e) (edit_stmt id e) (kept_by e).
Proof. by destruct e. Qed.

Lemma run_edit_summary id e w :
  wp (run_edit id e)
     (edit_summary id (edit_event_type e) (kept_by e) (edit_actor e) w) w.
Proof. rewrite run_edit_update_group. apply update_group_summary, edit_field_update. Qed.

Lemma kept_by_refl e r : kept_by e r r.
Proof. destruct e; repeat split. Qed.

Lemma kept_by_state e r r' : kept_by e r r' → c_state r' = c_state r.
Proof. destruct e; intros H; apply H. Qed.

(** C1.  A field-group update that returns its result for an existing case
    has appended exactly one event: its [event_data.before] is the snapshot
    of the row as it was when the transaction began, its [event_data.after]
    the snapshot of the updated row, its [event_type] names the group, and
    [from_state] and [to_state] are both the state of the case, which the
    update has left as it was.  The case is the one whose key [k] the store
    reads the id as. *)
Theorem edit_writes_one_snapshot_event (id : string) (e : field_edit)
    (w w' : world) (res : update_result) :
  run_edit id e w = (Ok (Some res), w') →
  ∃ k, uuid_in id = Some k ∧ snapshot_event_written k e w w'.
Proof.
  intros Hrun. pose proof (wp_elim _ _ _ _ _ Hrun (run_edit_summary id e w)) as [_ Hrec].
  destruct Hrec as (k & Hk & r0 & r1 & actor & Hr0 & Hkept & _ & _ & _ & Hc & _ & _).
  exists k. split; [done|].
  unfold snapshot_event_written. exists r0, r1. eexists. rewrite Hc.
  cbn [add_event put_case cases case_events].
  rewrite lookup_insert_eq, snapshot_of_row.
  repeat split; try done. by apply (kept_by_state e).
Qed.

(** C8.  Whatever a field-group update of an existing case does, the row
    stored under the case's key afterwards agrees with the row before in
    every column outside the group's own fields, [updated_by] and
    [updated_at] ([state], [created_by], [created_at], [version],
    [assigned_to] and the fields of the other three groups), and every other
    row is as it was. *)
Theorem edit_keeps_other_columns (id k : string) (e : field_edit) (w w' : world)
    (r : outcome (option update_result)) (r0 : case_row) :
  run_edit id e w = (r, w') →
  uuid_in id = Some k →
  cases (committed w) !! k = Some r0 →
  other_columns_kept k e r0 w w'.
Proof.
  intros Hrun Hk Hr0.
  pose proof (wp_elim _ _ _ _ _ Hrun (run_edit_summary id e w)) as [_ Hsum].
  assert (committed w' = committed w → other_columns_kept k e r0 w w') as Hsame.
  { intros E. exists r0. rewrite E. split; [done|]. split; [apply kept_by_refl | done]. }
  destruct r as [[res|]|err]; [|by apply Hsame..].
  destruct Hsum as (k' & Hk' & r0' & r1 & actor & Hr0' & Hkept & _ & _ & _ & Hc & _ & _).
  assert (k' = k) as -> by congruence.
  assert (r0' = r0) as -> by congruence.
  unfold other_columns_kept. exists r1. rewrite Hc. cbn [add_event put_case cases].
  rewrite lookup_insert_eq. split; [done|]. split; [done|].
  intros id' Hne. by rewrite lookup_insert_ne.
Qed.

(** ** The engine as a whole *)

Lemma transactional_result {A B} w (r : outcome A) (r' : outcome B) w' :
  (∀ e, r' = Throw e → r = Throw e) →
  (∀ e, r = Throw e → r' = Throw e) →
  transactional w r w' → transactional w r' w'.
Proof.
  intros Hback Hforth (Hthrow & tr & Hlog & Hcalls & Hroll).
  split; [eauto|]. exists tr. split; [done|]. split; [done|].
  unfold rolls_back in *. destruct (first_failure tr) as [[[[] e] rest]|]; try done.
  destruct Hroll as (Hc & rb & Hrest & Hr). eauto 10.
Qed.

Lemma run_engine_summary c w :
  wp (run_engine c)
     (λ r w',
        transactional w r w' ∧
        match c with
        | Create title description createdBy =>
            committed w' = committed w ∨
            ∃ r0, create_recorded title description createdBy w r0 w'
        | Edit id e =>
            committed w' = committed w ∨
            ∃ k res, uuid_in id = Some k ∧
                     edit_recorded k (edit_event_type e) (kept_by e) (edit_actor e) w res w'
        | Transition id eventType comment actorId =>
            committed w' = committed w ∨
            ∃ k r0, uuid_in id = Some k ∧
                    transition_recorded k eventType comment actorId w r0 w'
        end) w.
Proof.
  destruct c as [title description createdBy | id e | id eventType comment actorId];
    cbn [run_engine]; apply wp_bind.
  - eapply wp_mono; [|apply createCase_summary].
    intros [a|err] w' [Htx Hc]; [apply wp_ret|];
      (split; [refine (transactional_result _ _ _ _ _ _ Htx); by intros ? [= ->]|]);
      destruct Hc; eauto.
  - eapply wp_mono; [|apply run_edit_summary].
    intros [a|err] w' [Htx Hc]; [apply wp_ret|];
      (split; [refine (transactional_result _ _ _ _ _ _ Htx); by intros ? [= ->]|]).
    + destruct a as [res|]; [|by left]. destruct Hc as (k & Hk & Hrec). eauto.
    + by left.
  - eapply wp_mono; [|apply transitionCase_summary].
    intros [a|err] w' [Htx Hc]; [apply wp_ret|];
      (split; [refine (transactional_result _ _ _ _ _ _ Htx); by intros ? [= ->]|]);
      destruct Hc as [|(k & Hk & Hrec)]; eauto.
Qed.

(** C2 (as amended).  In every run of an engine operation, if the store
    fails a statement of the transaction, then the tables are afterwards
    what they were before the operation, and what the operation issues after
    the failed statement is one ROLLBACK and the release of the client and
    nothing else (the statement is not tried again).  When the store carries
    the rollback out, the operation throws the very error the store raised;
    when the rollback fails too, it throws the error of the rollback, and
    the first error is lost.  Whenever an operation throws, the tables are
    what they were. *)
Theorem store_failure_rolls_back (c : engine_call) (w w' : world)
    (r : outcome engine_result) :
  run_engine c w = (r, w') →
  failure_rolled_back w r w'.
Proof.
  intros Hrun.
  pose proof (wp_elim _ _ _ _ _ Hrun (run_engine_summary c w)) as [Htx _].
  destruct Htx as (Hthrow & tr & Hlog & _ & Hroll).
  split; [done|]. exists tr. split; [done|].
  intros q e rest Hfirst. unfold rolls_back in Hroll. rewrite Hfirst in Hroll.
  destruct Hroll as (Hc & rb & Hrest & Hr). split; [done|].
  exists rb. split; [done|]. by destruct rb.
Qed.

Lemma target_state_unrecognized eventType from :
  unrecognized eventType → target_state eventType from = from.
Proof.
  intros (H1 & H2 & H3). unfold target_state, strict_eq.
  by rewrite !bool_decide_eq_false_2.
Qed.

Lemma transitionCase_goes_through id k eventType comment actorId w r0 et actor :
  quiet w 6 →
  uuid_in id = Some k →
  cases (committed w) !! k = Some r0 →
  to_text eventType = Some et →
  to_text (default_arg actorId (PStr "local-user")) = Some actor →
  ∃ to w', target_state eventType (PStr (c_state r0)) = PStr to ∧
           transitioned id k eventType comment actorId r0 to w w'.
Proof.
  intros Hq Hk Hr0 Het Hactor.
  destruct (transitionCase id eventType comment actorId w) as [r w'] eqn:Hrun.
  pose proof (wp_elim _ _ _ _ _ Hrun
                (transitionCase_run id k eventType comment actorId w r0 et actor
                   Hq Hk Hr0 Het Hactor)) as [Hrec _].
  destruct Hrec as (r0' & et' & actor' & to & Hr0' & Het' & Hactor' & Hto & Hc & -> & _).
  assert (r0' = r0) as -> by congruence.
  assert (et' = et) as -> by congruence.
  assert (actor' = actor) as -> by congruence.
  exists to, w'. split; [done|]. exists et, actor. do 2 eexists.
  split; [done|]. split; [done|]. split; [exact Hrun|]. split; [reflexivity|].
  cbv zeta in Hc. rewrite Hc. cbn [add_event put_case cases case_events]. done.
Qed.

Lemma unrecognized_transition_recorded id k eventType comment actorId w r0 et actor :
  quiet w 6 →
  uuid_in id = Some k →
  cases (committed w) !! k = Some r0 →
  unrecognized eventType →
  to_text eventType = Some et →
  to_text (default_arg actorId (PStr "local-user")) = Some actor →
  ∃ w', transitioned id k eventType comment actorId r0 (c_state r0) w w'.
Proof.
  intros Hq Hk Hr0 Hun Het Hactor.
  destruct (transitionCase_goes_through id k eventType comment actorId w r0 et actor
              Hq Hk Hr0 Het Hactor) as (to & w' & Hto & Htr).
  rewrite (target_state_unrecognized eventType) in Hto by done.
  injection Hto as <-. eauto.
Qed.

(** C6.  [transitionCase] with SUBMIT_FOR_REVIEW on an existing case in
    DRAFT puts the case into IN_REVIEW and appends exactly one event, from
    DRAFT to IN_REVIEW.  (The store carries out the six calls and reads the
    id as the key [k] of the case, and the actor is a value a text column
    holds.) *)
Theorem submit_draft_for_review (id k : string) (comment actorId : prim)
    (w : world) (r0 : case_row) (actor : string) :
  quiet w 6 →
  uuid_in id = Some k →
  cases (committed w) !! k = Some r0 →
  c_state r0 = "DRAFT" →
  to_text (default_arg actorId (PStr "local-user")) = Some actor →
  ∃ w' r1 ev,
    transitioned id k (PStr "SUBMIT_FOR_REVIEW") comment actorId r0 "IN_REVIEW" w w' ∧
    cases (committed w') !! k = Some r1 ∧ c_state r1 = "IN_REVIEW" ∧
    case_events (committed w') = (case_events (committed w) ++ [ev])%list ∧
    e_case_id ev = k ∧ e_event_type ev = "SUBMIT_FOR_REVIEW" ∧
    e_from_state ev = Some "DRAFT" ∧ e_to_state ev = Some "IN_REVIEW".
Proof.
  intros Hq Hk Hr0 Hdraft Hactor.
  destruct (transitionCase_goes_through id k (PStr "SUBMIT_FOR_REVIEW") comment actorId w r0
              "SUBMIT_FOR_REVIEW" actor Hq Hk Hr0 eq_refl Hactor) as (to & w' & Hto & Htr).
  injection Hto as <-.
  pose proof Htr as (et & actor' & r1 & ev & [= <-] & _ & _ & -> & Hc & He & ->).
  exists w'. do 2 eexists. split; [exact Htr|].
  rewrite Hc, He, lookup_insert_eq.
  repeat split; try reflexivity. cbn [e_from_state]. by rewrite Hdraft.
Qed.

(** ** The routes *)

Lemma preserves_ret P {A} (a : A) : preserves P (ret a).
Proof. by intros w. Qed.

Lemma preserves_throw P {A} e : preserves P (throw e : M A).
Proof. by intros w. Qed.

Lemma preserves_bind P {A B} (m : M A) (k : A → M B) :
  preserves P m → (∀ a, preserves P (k a)) → preserves P (bind m k).
Proof.
  intros Hm Hk w Hw. unfold bind. specialize (Hm w Hw).
  destruct (m w) as [[a|e] w1]; [by apply Hk | done].
Qed.

Lemma preserves_try_catch P {A} (m : M A) (h : error → M A) :
  preserves P m → (∀ e, preserves P (h e)) → preserves P (try_catch m h).
Proof.
  intros Hm Hh w Hw. unfold try_catch. specialize (Hm w Hw).
  destruct (m w) as [[a|e] w1]; [done | by apply Hh].
Qed.

Lemma preserves_wp P {A} (m : M A) :
  (∀ w, P (committed w) → wp m (λ _ w', P (committed w')) w) → preserves P m.
Proof. intros H w Hw. exact (H w Hw). Qed.

Lemma sem_read now fresh seq q t rows t' :
  is_read q = true → sem now fresh seq q t = inr (rows, t') → t' = t.
Proof.
  destruct q; try done; cbn [sem]; intros _ Hs;
    try (destruct (uuid_param _) as [?|?]; [discriminate|]); by injection Hs as _ <-.
Qed.

Lemma preserves_pool_read P q : is_read q = true → preserves P (pool_query q).
Proof.
  intros Hq. apply preserves_wp. intros w Hw. apply wp_pool.
  destruct (faults w (calls w)); [done|].
  destruct (sem _ _ _ _ _) as [e|[rows t']] eqn:Hsem; [done|].
  apply sem_read in Hsem as ->; done.
Qed.

Lemma preserves_get_member P v k : preserves P (get_member v k).
Proof. destruct v as [[]|]; by intros w. Qed.

Lemma never_reviewed_put t id r ev :
  never_reviewed t → c_state r ≠ "APPROVED" → c_state r ≠ "RETURNED" →
  never_reviewed (add_event (put_case t id r) ev).
Proof.
  intros Ht H1 H2 id' r'. cbn [add_event put_case cases].
  destruct (decide (id = id')) as [->|Hne].
  - rewrite lookup_insert_eq. by intros [= <-].
  - rewrite lookup_insert_ne by done. apply Ht.
Qed.

Lemma preserves_createCase title description createdBy :
  preserves never_reviewed (createCase title description createdBy).
Proof.
  apply preserves_wp. intros w Hw.
  eapply wp_mono; [|apply createCase_summary].
  intros r w' [_ [->|Hrec]]; [done|].
  destruct Hrec as (title' & actor & _ & _ & _ & -> & _).
  by apply never_reviewed_put.
Qed.

Lemma preserves_run_edit id e : preserves never_reviewed (run_edit id e).
Proof.
  apply preserves_wp. intros w Hw.
  eapply wp_mono; [|apply run_edit_summary].
  intros r w' [_ Hsum].
  destruct r as [[res|]|err]; [|by rewrite Hsum..].
  destruct Hsum as (k & Hk & r0 & r1 & actor & Hr0 & Hkept & _ & _ & _ & -> & _).
  apply (kept_by_state e) in Hkept. destruct (Hw k r0 Hr0).
  apply never_reviewed_put; [done|congruence..].
Qed.

Lemma route_event_type_target eventType from to :
  route_event_type eventType →
  target_state eventType (PStr from) = PStr to →
  to = "IN_REVIEW" ∨ to = from.
Proof. intros [->|[->| ->]] [= <-]; eauto. Qed.

Lemma preserves_transitionCase id eventType comment actorId :
  route_event_type eventType →
  preserves never_reviewed (transitionCase id eventType comment actorId).
Proof.
  intros Het. apply preserves_wp. intros w Hw.
  eapply wp_mono; [|apply transitionCase_summary].
  intros r w' [_ [->|Hrec]]; [done|].
  destruct Hrec as (k & Hk & r0 & et & actor & to & Hr0 & _ & _ & Hto & Hc & _).
  cbv zeta in Hc. rewrite Hc. destruct (Hw k r0 Hr0).
  apply (route_event_type_target _ _ _ Het) in Hto as [->| ->];
    by apply never_reviewed_put.
Qed.

Lemma preserves_getCaseById P id : preserves P (getCaseById id).
Proof.
  apply preserves_bind; [by apply preserves_pool_read|]. intros. apply preserves_ret.
Qed.

Ltac preserves_step :=
  lazymatch goal with
  | |- preserves _ (bind _ _) => apply preserves_bind; [|intros ?]
  | |- preserves _ (ret _) => apply preserves_ret
  | |- preserves _ (throw _) => apply preserves_throw
  | |- preserves _ (getCaseById _) => apply preserves_getCaseById
  | |- preserves _ (get_member _ _) => apply preserves_get_member
  | |- preserves _ (pool_query _) => by apply preserves_pool_read
  | |- preserves _ (createCase _ _ _) => apply preserves_createCase
  | |- preserves _ (updatePersonDetails ?id ?a ?b ?c ?d ?e ?f) =>
      apply (preserves_run_edit id (PersonDetails a b c d e f))
  | |- preserves _ (updateClinicalDetails ?id ?a ?b ?c ?d) =>
      apply (preserves_run_edit id (ClinicalDetails a b c d))
  | |- preserves _ (updateLocationDetails ?id ?a ?b ?c) =>
      apply (preserves_run_edit id (LocationDetails a b c))
  | |- preserves _ (transitionCase _ _ _ _) =>
      apply preserves_transitionCase; unfold route_event_type; by eauto
  | |- preserves _ (if ?b then _ else _) => destruct b
  | |- preserves _ (match ?x with _ => _ end) => destruct x
  end.

Lemma preserves_route r : preserves never_reviewed (route r).
Proof.
  destruct r; unfold route, show_case, getCaseEventById, listCases, listCaseEvents;
    repeat preserves_step.
Qed.

Lemma preserves_serve csrf_valid r : preserves never_reviewed (serve csrf_valid r).
Proof.
  unfold serve. destruct (is_post r && negb csrf_valid); [apply preserves_ret|].
  apply preserves_try_catch; [apply preserves_route|]. intros. apply preserves_ret.
Qed.

Lemma preserves_serve_all rs : preserves never_reviewed (serve_all rs).
Proof.
  induction rs as [|[csrf_valid r] rs IH]; cbn [serve_all]; [apply preserves_ret|].
  apply preserves_bind; [apply preserves_serve|]. intros x.
  apply preserves_bind; [apply IH|]. intros xs. apply preserves_ret.
Qed.

Lemma unrecognized_review_approve : unrecognized (PStr "REVIEW_APPROVE").
Proof. by repeat split. Qed.

Lemma unrecognized_review_return : unrecognized (PStr "REVIEW_RETURN").
Proof. by repeat split. Qed.

Lemma serve_approve id k w r0 :
  quiet w 6 →
  uuid_in id = Some k →
  cases (committed w) !! k = Some r0 →
  ∃ w', transitioned id k (PStr "REVIEW_APPROVE") PUndefined (PStr "local-user")
          r0 (c_state r0) w w' ∧
        serve true (PostApprove id) w = (Ok (Redirect ("/cases/" +:+ id +:+ "/approved")), w').
Proof.
  intros Hq Hk Hr0.
  destruct (unrecognized_transition_recorded id k (PStr "REVIEW_APPROVE") PUndefined
              (PStr "local-user") w r0 "REVIEW_APPROVE" "local-user" Hq Hk Hr0
              unrecognized_review_approve eq_refl eq_refl) as [w' Htr].
  exists w'. split; [done|].
  destruct Htr as (et & actor & r1 & ev & _ & _ & Hrun & _).
  unfold serve, route, try_catch, bind. cbn [is_post negb andb]. by rewrite Hrun.
Qed.

Lemma getCaseById_found id k w r0 :
  quiet w 1 →
  uuid_in id = Some k →
  cases (committed w) !! k = Some r0 →
  getCaseById id w
  = (Ok (VObj (row_obj (detail_fields k r0))),
     record (PoolQuery (SelectCaseById id)) None
       (set_store w (committed w) (working w) (event_seq w))).
Proof.
  intros Hq Hk Hr0. unfold getCaseById, bind, pool_query, run_pool.
  assert (faults w (calls w) = None) as F by (apply (Hq 0%nat); lia).
  rewrite F. cbn [sem]. rewrite (uuid_param_ok id k Hk). by rewrite Hr0.
Qed.

Lemma serve_return id k body w r0 :
  quiet w 7 →
  uuid_in id = Some k →
  cases (committed w) !! k = Some r0 →
  trimmed body "comment" ≠ "" →
  ∃ w1 w',
    committed w1 = committed w ∧
    transitioned id k (PStr "REVIEW_RETURN") (PStr (trimmed body "comment"))
      (PStr "local-user") r0 (c_state r0) w1 w' ∧
    serve true (PostReturn id body) w
    = (Ok (Redirect ("/cases/" +:+ id +:+ "/returned")), w').
Proof.
  intros Hq Hk Hr0 Hcomment.
  set (w1 := record (PoolQuery (SelectCaseById id)) None
               (set_store w (committed w) (working w) (event_seq w))).
  assert (quiet w1 6) as Hq1.
  { intros i Hi. cbn [w1 record set_store faults calls].
    replace (i + S (calls w))%nat with (S i + calls w)%nat by lia. apply Hq. lia. }
  destruct (unrecognized_transition_recorded id k (PStr "REVIEW_RETURN")
              (PStr (trimmed body "comment")) (PStr "local-user") w1 r0
              "REVIEW_RETURN" "local-user" Hq1 Hk Hr0
              unrecognized_review_return eq_refl eq_refl) as [w' Htr].
  exists w1, w'. split; [done|]. split; [done|].
  destruct Htr as (et & actor & r1 & ev & _ & _ & Hrun & _).
  unfold serve, route, try_catch. cbn [is_post negb andb].
  unfold bind at 1.
  rewrite (getCaseById_found id k w r0) by (try done; intros i Hi; apply Hq; lia).
  fold w1. cbn [truthy_val negb truthy].
  destruct (String.eqb_spec (trimmed body "comment") ""); [done|]. cbn [negb].
  unfold bind. by rewrite Hrun.
Qed.

(** C5.  The approve and return routes ask for transitions with the event
    types REVIEW_APPROVE and REVIEW_RETURN, which the engine does not
    recognize: each leaves the state of the case as it was and records an
    event whose [to_state] is its [from_state], and redirects as if the
    decision had been taken.  Whatever requests the server handles and
    whatever the store does, a store without cases in APPROVED or RETURNED
    stays without: no case gets there through the routes. *)
Theorem review_routes_never_change_state :
  (∀ (id k : string) (w : world) (r0 : case_row),
     quiet w 6 →
     uuid_in id = Some k →
     cases (committed w) !! k = Some r0 →
     ∃ w', transitioned id k (PStr "REVIEW_APPROVE") PUndefined (PStr "local-user")
             r0 (c_state r0) w w' ∧
           serve true (PostApprove id) w
           = (Ok (Redirect ("/cases/" +:+ id +:+ "/approved")), w')) ∧
  (∀ (id k : string) (body : form) (w : world) (r0 : case_row),
     quiet w 7 →
     uuid_in id = Some k →
     cases (committed w) !! k = Some r0 →
     trimmed body "comment" ≠ "" →
     ∃ w1 w',
       committed w1 = committed w ∧
       transitioned id k (PStr "REVIEW_RETURN") (PStr (trimmed body "comment"))
         (PStr "local-user") r0 (c_state r0) w1 w' ∧
       serve true (PostReturn id body) w
       = (Ok (Redirect ("/cases/" +:+ id +:+ "/returned")), w')) ∧
  (∀ (rs : list (bool * request)) (w : world),
     never_reviewed (committed w) →
     never_reviewed (committed (serve_all rs w).2)).
Proof.
  split; [exact serve_approve|]. split; [exact serve_return|].
  intros rs w. apply preserves_serve_all.
Qed.

(** * The rest of the program *)

(** ** The change summary, field by field *)

Lemma simple_changed_text before after k :
  simple_changed before after k
  = bool_decide (compared_text before k ≠ compared_text after k).
Proof.
  unfold simple_changed, compared_text.
  assert (∀ p, nullish (nullish p PNull) (PStr "") = nullish p (PStr "")) as E
    by (by intros []).
  rewrite !E.
  destruct (String.eqb_spec (js_String (nullish (prop before k) (PStr "")))
              (js_String (nullish (prop after k) (PStr ""))));
    cbn [negb]; by case_bool_decide.
Qed.

Lemma simple_rows_unfold before after :
  simple_rows before after
  = omap (λ k, if simple_changed before after k
               then Some (change_row (label k) k before after) else None) simpleKeys.
Proof.
  unfold simple_rows, omap. cbn [foldl simpleKeys list_omap].
  repeat match goal with
         | |- context [simple_changed ?b ?a ?k] => destruct (simple_changed b a k)
         end; reflexivity.
Qed.

Lemma pretty_N_go_nonempty (x : N) s : s ≠ "" → pretty_N_go x s ≠ "".
Proof.
  revert s. induction (N.lt_wf_0 x) as [x _ IH]; intros s ?.
  assert (x = 0 ∨ 0 < x)%N as [->|?] by lia.
  - by rewrite pretty_N_go_0.
  - rewrite pretty_N_go_step by done. apply IH; [by apply N.div_lt | done].
Qed.

Lemma pretty_N_nonempty (x : N) : pretty x ≠ "".
Proof.
  unfold pretty, pretty_N. case_decide; [done|].
  rewrite pretty_N_go_step by lia. by apply pretty_N_go_nonempty.
Qed.

Lemma pretty_Z_nonempty (z : Z) : pretty z ≠ "".
Proof.
  destruct z as [|p|p]; [done|apply pretty_N_nonempty|by cbn].
Qed.

(** The text of a number is not empty. *)
Lemma js_String_number z : js_String (PNum z) ≠ "".
Proof.
  cbn [js_String]. destruct (Z.abs z <? 10 ^ 21); [apply pretty_Z_nonempty|].
  by destruct (exponent_mantissa z).
Qed.

(** The text of a truthy primitive is not empty. *)
Lemma js_String_truthy p : truthy p = true → js_String p ≠ "".
Proof.
  destruct p as [| |[]|z|s]; try done; cbn [truthy].
  - intros _. apply js_String_number.
  - cbn [js_String]. by destruct (String.eqb_spec s "").
Qed.

Lemma label_inj_simple k1 k2 :
  k1 ∈ simpleKeys → k2 ∈ simpleKeys → label k1 = label k2 → k1 = k2.
Proof.
  unfold simpleKeys. rewrite !elem_of_cons, !elem_of_nil.
  intros H1 H2; destruct_or!; subst; try done; by vm_compute.
Qed.

Lemma rows_labelled_omap_simple before after k ks :
  k ∈ simpleKeys → ks ⊆ simpleKeys → NoDup ks →
  rows_labelled (label k)
    (omap (λ k, if simple_changed before after k
                then Some (change_row (label k) k before after) else None) ks)
  = if decide (k ∈ ks) then
      if simple_changed before after k then [change_row (label k) k before after] else []
    else [].
Proof.
  intros Hk. unfold rows_labelled, omap. induction ks as [|k' ks IH]; intros Hsub Hnd.
  { by rewrite decide_False by apply not_elem_of_nil. }
  apply NoDup_cons in Hnd as [Hk' Hnd].
  assert (k' ∈ simpleKeys) as Hk's by (apply Hsub; left).
  assert (ks ⊆ simpleKeys) as Hsub' by (intros x Hx; apply Hsub; by right).
  specialize (IH Hsub' Hnd). cbn [list_omap].
  destruct (decide (k = k')) as [<-|Hne].
  - rewrite decide_True by left. rewrite decide_False in IH by done.
    destruct (simple_changed before after k).
    + rewrite filter_cons_True by done. by rewrite IH.
    + exact IH.
  - assert (label k' ≠ label k) as Hl by (intros E; by apply label_inj_simple in E).
    destruct (simple_changed before after k').
    + rewrite filter_cons_False by done. rewrite IH.
      destruct (decide (k ∈ ks)).
      * by rewrite decide_True by (by right).
      * rewrite decide_False; [done|]. by intros [->|?]%elem_of_cons.
    + rewrite IH. destruct (decide (k ∈ ks)).
      * by rewrite decide_True by (by right).
      * rewrite decide_False; [done|]. by intros [->|?]%elem_of_cons.
Qed.

Lemma simpleKeys_NoDup : NoDup simpleKeys.
Proof. compute_done. Qed.

Lemma displayValue_simple k s :
  k ∈ simpleKeys →
  displayValue k s = or_not_provided (compared_text s k).
Proof.
  intros Hk.
  assert (String.eqb k "dob_day" = false ∧ String.eqb k "symptoms_day" = false) as [E1 E2].
  { revert Hk. unfold simpleKeys. rewrite !elem_of_cons, elem_of_nil.
    intros H; destruct_or!; subst; done. }
  unfold displayValue, compared_text, or_not_provided, strict_eq. rewrite E1, E2.
  destruct (prop s k) as [| |[]|z|t]; try done; cbn [nullish].
  - rewrite !bool_decide_eq_false_2 by done. cbn [orb].
    pose proof (js_String_number z).
    by destruct (String.eqb_spec (js_String (PNum z)) "").
  - cbn [js_String]. destruct (String.eqb_spec t "") as [->|Hne]; [done|].
    rewrite !bool_decide_eq_false_2 by congruence. done.
Qed.

Lemma field_text_compared s k : field_text s k = or_not_provided (compared_text s k).
Proof. unfold field_text, compared_text. by rewrite or_not_provided_text. Qed.

(** X10.  For each of the six simple fields, [buildChangedRows] gives exactly
    one row under the field's label when the texts of the two values differ
    and none otherwise, where a value that is absent ([null] or
    [undefined]) has the empty text.  The row's value is the markup that
    shows, after "From: " and "To: ", the value before and after as its
    text, or as "Not provided" when that text is empty. *)
Theorem buildChangedRows_simple_fields (before after : obj) (k : string) :
  k ∈ simpleKeys →
  rows_labelled (label k) (buildChangedRows before after)
  = (if decide (compared_text before k ≠ compared_text after k)
     then [ SummaryRow (label k)
              ("<span class=" +:+ dquote +:+ "govuk-body" +:+ dquote +:+ ">From: " +:+
               field_text before k +:+
               "</span><br><span class=" +:+ dquote +:+ "govuk-body" +:+ dquote +:+
               ">To: " +:+ field_text after k +:+ "</span>") ]
     else []).
Proof.
  intros Hk. rewrite buildChangedRows_parts. unfold rows_labelled. rewrite !filter_app.
  fold (rows_labelled (label k) (simple_rows before after)).
  rewrite simple_rows_unfold, rows_labelled_omap_simple by (done || apply simpleKeys_NoDup).
  rewrite decide_True by done. rewrite simple_changed_text.
  assert (label k ≠ "Date of birth" ∧ label k ≠ "Symptoms start date") as [N1 N2].
  { revert Hk. unfold simpleKeys. rewrite !elem_of_cons, elem_of_nil.
    intros H; destruct_or!; subst; done. }
  assert (∀ b (r : summary_row), key_text r ≠ label k →
            filter (λ r, key_text r = label k) (if b : bool then [r] else []) = []) as E.
  { intros [] r Hr; [|done]. by rewrite filter_cons_False. }
  rewrite !E by (cbn; congruence). rewrite !app_nil_r.
  case_bool_decide; [rewrite decide_True by done | rewrite decide_False by naive_solver];
    [|done].
  unfold change_row, change_html. by rewrite !displayValue_simple, !field_text_compared.
Qed.

(** X11.  The labels of the rows [buildChangedRows] returns come in one fixed
    order, each at most once: the six simple fields in the order of
    [simpleKeys], then the date of birth, then the symptoms date.  So there
    are never more than eight rows. *)
Theorem buildChangedRows_order (before after : obj) :
  key_text <$> buildChangedRows before after `sublist_of` change_labels ∧
  (List.length (buildChangedRows before after) ≤ 8)%nat.
Proof.
  assert (key_text <$> buildChangedRows before after `sublist_of` change_labels) as H.
  { rewrite buildChangedRows_parts, simple_rows_unfold. unfold omap.
    cbn [simpleKeys list_omap]. unfold change_labels. cbn [simpleKeys fmap list_fmap app].
    repeat match goal with
           | |- context [simple_changed ?b ?a ?k] => destruct (simple_changed b a k)
           end;
      destruct (dobChanged before after); destruct (symptomsChanged before after);
      cbn [app fmap list_fmap change_row key_text];
      repeat first [ apply sublist_nil | apply sublist_skip | apply sublist_cons ]. }
  split; [done|].
  apply sublist_length in H. by rewrite length_fmap in H.
Qed.

Lemma compared_text_part s k :
  compared_text s k = js_String (nullish (snapshot_part s k) (PStr "")).
Proof. unfold compared_text, snapshot_part. by destruct (prop s k). Qed.

(** Rows appear only under the labels of fields that differ. *)
Lemma buildChangedRows_labels before after (L : list string) :
  (∀ k, k ∈ simpleKeys → label k ∉ L → snapshot_part before k = snapshot_part after k) →
  ("Date of birth" ∉ L → ¬ triple_differs before after "dob_day" "dob_month" "dob_year") →
  ("Symptoms start date" ∉ L →
   ¬ triple_differs before after "symptoms_day" "symptoms_month" "symptoms_year") →
  Forall (λ row, key_text row ∈ L) (buildChangedRows before after).
Proof.
  intros Hs Hd Hy. rewrite buildChangedRows_parts, simple_rows_unfold.
  rewrite !Forall_app. split; [|split].
  - apply Forall_forall. intros row (k & Hk & Hrow)%list_elem_of_omap.
    rewrite simple_changed_text in Hrow. case_bool_decide as Hne; [|done].
    injection Hrow as <-. cbn [change_row key_text].
    destruct (decide (label k ∈ L)) as [|Hn]; [done|]. destruct Hne.
    rewrite !compared_text_part. by rewrite (Hs k Hk Hn).
  - rewrite dobChanged_differs. case_bool_decide as Hne; [|done].
    constructor; [|done]. cbn [change_row key_text].
    destruct (decide ("Date of birth" ∈ L)) as [|Hn]; [done|]. by destruct (Hd Hn).
  - rewrite symptomsChanged_differs. case_bool_decide as Hne; [|done].
    constructor; [|done]. cbn [change_row key_text].
    destruct (decide ("Symptoms start date" ∈ L)) as [|Hn]; [done|]. by destruct (Hy Hn).
Qed.

(** X12.  Two snapshots that agree on the twelve fields the summary reads,
    absent counting as [null], give no row: whatever else differs between
    them ([updated_by], [state], [assigned_to]) is not shown. *)
Theorem buildChangedRows_unchanged (before after : obj) :
  (∀ k, k ∈ displayed_keys → snapshot_part before k = snapshot_part after k) →
  buildChangedRows before after = [].
Proof.
  intros H.
  assert (Forall (λ row, key_text row ∈ []) (buildChangedRows before after)) as HF.
  { apply buildChangedRows_labels.
    - intros k Hk _. apply H. unfold displayed_keys. apply elem_of_app. by left.
    - intros _ [Hn|[Hn|Hn]]; apply Hn, H; compute_done.
    - intros _ [Hn|[Hn|Hn]]; apply Hn, H; compute_done. }
  destruct (buildChangedRows before after) as [|row rows]; [done|].
  apply Forall_cons in HF as [HF%elem_of_nil _]. done.
Qed.

Lemma row_snapshot_kept id e r0 r1 :
  kept_by e r0 r1 →
  (∀ k, k ∈ simpleKeys → label k ∉ group_labels e →
        snapshot_part (row_snapshot id r0) k = snapshot_part (row_snapshot id r1) k) ∧
  ("Date of birth" ∉ group_labels e →
   ¬ triple_differs (row_snapshot id r0) (row_snapshot id r1) "dob_day" "dob_month" "dob_year") ∧
  ("Symptoms start date" ∉ group_labels e →
   ¬ triple_differs (row_snapshot id r0) (row_snapshot id r1)
       "symptoms_day" "symptoms_month" "symptoms_year").
Proof.
  intros Hk. destruct r0, r1.
  destruct e; cbn [kept_by] in Hk;
    unfold kept_by_details, kept_by_person, kept_by_clinical, kept_by_location in Hk;
    cbn in Hk; destruct_and!; subst.
  all: split; [|split].
  all: try (intros k Hks Hl; revert Hks Hl; unfold simpleKeys;
            rewrite !elem_of_cons, elem_of_nil; intros Hks Hl; destruct_or!; subst;
            first [ reflexivity | exfalso; apply Hl; compute_done ]).
  all: try (intros Hl; exfalso; apply Hl; compute_done).
  all: intros _ [Hn|[Hn|Hn]]; by apply Hn.
Qed.

(** ** What an engine operation returns and what it has committed *)

Ltac edit_end := unfold edit_outcome; wsimpl; done.

Lemma update_group_outcome id tag q keeps actorId w :
  field_update id actorId q keeps →
  wp (update_group id tag q actorId) (edit_outcome id tag q keeps actorId w) w.
Proof.
  intros Hq. destruct w as [c wk seq n lg f clk u]. unfold update_group.
  wp_call edit_end. wp_call edit_end. wp_call edit_end.
  apply sem_select_all in Hsem as (k & Hk & -> & ->).
  destruct (cases c !! k) as [r0|] eqn:Hr0; wsimpl.
  2:{ wp_call edit_end. wp_step. unfold edit_outcome. wsimpl. split; [done|]. by exists k. }
  wp_call edit_end. pose proof Hsem as Happlied.
  apply (sem_field_update id actorId q keeps) in Hsem as (k' & Hk' & Hsem); [|done].
  assert (k' = k) as -> by congruence. rewrite Hr0 in Hsem.
  destruct Hsem as (r1 & Hkept & Hat & Hby & -> & ->). wsimpl.
  wp_step. wp_step. rewrite prop_detail_state.
  wp_call edit_end.
  apply sem_insert_event in Hsem as (k' & et & actor & Hk'' & [= <-] & Hactor & _ & -> & ->).
  assert (k' = k) as -> by congruence. wsimpl.
  wp_step. wp_call edit_end. wp_step.
  unfold edit_outcome.
  rewrite (field_update_next_seq id actorId q keeps) by done.
  exists k. split; [done|]. split.
  - exists r0, r1, actor. wsimpl.
    cbn [fmap option_fmap option_map to_text default_arg js_String].
    rewrite jsonb_snapshots, prop_singleton, (field_update_state id actorId q keeps r0 r1)
      by done.
    repeat split; try done. congruence.
  - unfold edit_applied. wsimpl. do 2 eexists. split; [exact Happlied|]. done.
Qed.

Lemma run_edit_outcome id e w :
  wp (run_edit id e)
     (edit_outcome id (edit_event_type e) (edit_stmt id e) (kept_by e) (edit_actor e) w) w.
Proof. rewrite run_edit_update_group. apply update_group_outcome, edit_field_update. Qed.

Ltac transition_end := unfold transition_outcome; wsimpl; done.

Lemma transitionCase_outcome id eventType comment actorId w :
  wp (transitionCase id eventType comment actorId)
     (transition_outcome id eventType comment actorId w) w.
Proof.
  destruct w as [c wk seq n lg f clk u]. unfold transitionCase.
  wp_call transition_end. wp_call transition_end. wp_call transition_end.
  apply sem_select_id_state in Hsem as (k & Hk & -> & ->).
  destruct (cases c !! k) as [r0|] eqn:Hr0; wsimpl.
  2:{ wp_call transition_end. wp_step. unfold transition_outcome. wsimpl. right.
      split; [done|]. split; [done|]. by exists k. }
  rewrite prop_id_state_state.
  destruct (target_state_text eventType (c_state r0)) as [to Hto]. rewrite Hto.
  wp_call transition_end.
  apply sem_update_state in Hsem as (k' & Hk' & Hsem).
  assert (k' = k) as -> by congruence. rewrite Hr0 in Hsem.
  destruct Hsem as (s & a & [= <-] & Ha & -> & ->). wsimpl.
  wp_call transition_end.
  apply sem_insert_transition_event in Hsem as (k' & et & a' & Hk'' & Het & Ha' & _ & -> & ->).
  assert (k' = k) as -> by congruence. wsimpl.
  wp_call transition_end. wp_step.
  unfold transition_outcome. left. exists k. split; [done|]. exists r0, et, a, to. wsimpl.
  assert (a' = a) as -> by congruence.
  cbn [to_text js_String]. repeat split; done.
Qed.

Ltac create_end := unfold create_outcome; wsimpl; done.

Lemma createCase_outcome title description createdBy w :
  wp (createCase title description createdBy)
     (create_outcome title description createdBy w) w.
Proof.
  destruct w as [c wk seq n lg f clk u]. unfold createCase.
  wp_call create_end. wp_call create_end. wp_call create_end.
  apply sem_insert_case in Hsem as (title' & actor & Ht & Ha & Hfresh & -> & ->). wsimpl.
  wp_step. wp_step. wp_step. wp_step. rewrite prop_detail_id, prop_detail_state.
  wp_call create_end.
  apply sem_insert_create_event in Hsem as (i & k & a' & [= <-] & Hk & Ha' & _ & -> & ->).
  rewrite uuid_in_out in Hk. injection Hk as <-. wsimpl.
  wp_call create_end. wp_step.
  unfold create_outcome. exists title', actor. wsimpl.
  assert (a' = actor) as -> by congruence.
  cbn [to_text js_String new_case c_state]. repeat split; done.
Qed.

Lemma run_engine_outcome c w : wp (run_engine c) (engine_outcome c w) w.
Proof.
  destruct c as [title description createdBy | id e | id eventType comment actorId];
    cbn [run_engine]; apply wp_bind.
  - eapply wp_mono; [|apply createCase_outcome].
    intros [a|err] w' H; [apply wp_ret|]; cbn [create_outcome engine_outcome] in *; [|done].
    left. split; [|done]. destruct H as (? & ? & _ & _ & _ & _ & [= ->] & _). done.
  - eapply wp_mono; [|apply run_edit_outcome].
    intros [[a|]|err] w' H; [apply wp_ret..|]; cbn [edit_outcome engine_outcome] in *;
      [|right|done].
    + left. split; [by eexists|done].
    + destruct H as [? (k & ? & ?)]. split; [done|]. split; [done|]. by exists id, k.
  - eapply wp_mono; [|apply transitionCase_outcome].
    intros [a|err] w' H; [apply wp_ret|]; cbn [transition_outcome engine_outcome] in *;
      [|done].
    destruct H as [H|(-> & ? & k & ? & ?)]; [left|right].
    + split; [|done].
      destruct H as (k & _ & ? & ? & ? & ? & _ & _ & _ & _ & _ & [= ->] & _). done.
    + split; [done|]. split; [done|]. by exists id, k.
Qed.

(** ** Transitions, and cases that do not exist *)


(** C3 (as amended).  The state an engine operation leaves a case in is
    decided by the event type alone, whatever the state before.  The event
    type SUBMIT_FOR_REVIEW names IN_REVIEW, RETURN names RETURNED, APPROVE
    names APPROVED and any other event type names the state the case is in.
    A transition of an existing case goes through when the store carries
    out the calls, whatever state the case is in, and a transition that
    returns a case has put the case into the state its event type names.
    A case that [createCase] returns is new and in DRAFT.  And nothing else
    changes a state: after any operation, a case that did not exist before
    is in DRAFT, and a case that did is in the state it was in unless the
    operation is a transition of that case. *)
Theorem state_follows_event_type :
  (∀ from,
     target_state (PStr "SUBMIT_FOR_REVIEW") from = PStr "IN_REVIEW" ∧
     target_state (PStr "RETURN") from = PStr "RETURNED" ∧
     target_state (PStr "APPROVE") from = PStr "APPROVED") ∧
  (∀ eventType from, unrecognized eventType → target_state eventType from = from) ∧
  (∀ (id k : string) (eventType comment actorId : prim) (w : world) (r0 : case_row)
     (et actor : string),
     quiet w 6 →
     uuid_in id = Some k →
     cases (committed w) !! k = Some r0 →
     to_text eventType = Some et →
     to_text (default_arg actorId (PStr "local-user")) = Some actor →
     ∃ to w' r1,
       target_state eventType (PStr (c_state r0)) = PStr to ∧
       transitionCase id eventType comment actorId w
       = (Ok (VObj (row_obj (list_fields k r1))), w') ∧
       cases (committed w') !! k = Some r1 ∧ c_state r1 = to) ∧
  (∀ (id : string) (eventType comment actorId : prim) (w w' : world) (c : jsval),
     transitionCase id eventType comment actorId w = (Ok c, w') →
     truthy_val c = true →
     ∃ k r0 r1 to,
       uuid_in id = Some k ∧
       cases (committed w) !! k = Some r0 ∧
       target_state eventType (PStr (c_state r0)) = PStr to ∧
       cases (committed w') !! k = Some r1 ∧ c_state r1 = to ∧
       member c "state" = PStr to) ∧
  (∀ (title description createdBy : prim) (w w' : world) (c : jsval),
     createCase title description createdBy w = (Ok c, w') →
     ∃ r1,
       cases (committed w) !! uuids w (2 + calls w)%nat = None ∧
       cases (committed w') !! uuids w (2 + calls w)%nat = Some r1 ∧
       c_state r1 = "DRAFT" ∧ member c "state" = PStr "DRAFT") ∧
  (∀ (c : engine_call) (w w' : world) (r : outcome engine_result) (k : string)
     (row' : case_row),
     run_engine c w = (r, w') →
     cases (committed w') !! k = Some row' →
     match cases (committed w) !! k with
     | Some row => state_after c k (c_state row) (c_state row')
     | None => c_state row' = "DRAFT"
     end).
Proof.
  split; [done|]. split; [apply target_state_unrecognized|].
  split; [|split; [|split]].
  - intros id k eventType comment actorId w r0 et actor Hq Hk Hr0 Het Hactor.
    destruct (transitionCase_goes_through id k eventType comment actorId w r0 et actor
                Hq Hk Hr0 Het Hactor) as (to & w' & Hto & Htr).
    destruct Htr as (et' & actor' & r1 & ev & _ & _ & Hrun & -> & Hc & _).
    exists to, w'. eexists. split; [done|]. split; [exact Hrun|].
    rewrite Hc, lookup_insert_eq. done.
  - intros id eventType comment actorId w w' c Hrun Hc.
    pose proof (wp_elim _ _ _ _ _ Hrun
                  (transitionCase_outcome id eventType comment actorId w)) as Hout.
    cbn [transition_outcome] in Hout. destruct Hout as [Hrec|(-> & _)]; [|done].
    destruct Hrec as (k & Hk & r0 & et & actor & to & Hr0 & _ & _ & Hto & Hw' & [= ->] & _).
    cbv zeta in Hw'. exists k, r0. eexists. exists to.
    rewrite Hw'. cbn [add_event put_case cases]. rewrite lookup_insert_eq. done.
  - intros title description createdBy w w' c Hrun.
    pose proof (wp_elim _ _ _ _ _ Hrun
                  (createCase_outcome title description createdBy w)) as Hout.
    cbn [create_outcome] in Hout.
    destruct Hout as (title' & actor & Hfresh & _ & _ & Hw' & [= ->] & _).
    eexists. rewrite Hw'. cbn [add_event put_case cases]. rewrite lookup_insert_eq. done.
  - intros c w w' r k row' Hrun Hrow'.
    pose proof (wp_elim _ _ _ _ _ Hrun (run_engine_summary c w)) as [_ Hsum].
    assert (committed w' = committed w →
            match cases (committed w) !! k with
            | Some row => state_after c k (c_state row) (c_state row')
            | None => c_state row' = "DRAFT"
            end) as Hsame.
    { intros E. rewrite E in Hrow'. rewrite Hrow'. by left. }
    destruct c as [title description createdBy | id0 e | id0 eventType comment actorId].
    + destruct Hsum as [Hc|[x Hrec]]; [by apply Hsame|].
      destruct Hrec as (title' & actor & Hfresh & _ & _ & Hc & _ & _).
      rewrite Hc in Hrow'. cbn [add_event put_case cases] in Hrow'.
      destruct (decide (uuids w (2 + calls w)%nat = k)) as [<-|Hne].
      * rewrite lookup_insert_eq in Hrow'. injection Hrow' as <-. by rewrite Hfresh.
      * rewrite lookup_insert_ne in Hrow' by done. rewrite Hrow'. by left.
    + destruct Hsum as [Hc|(k0 & x & Hk0 & Hrec)]; [by apply Hsame|].
      destruct Hrec as (r0 & r1 & actor & Hr0 & Hkept & _ & _ & _ & Hc & _ & _).
      rewrite Hc in Hrow'. cbn [add_event put_case cases] in Hrow'.
      destruct (decide (k0 = k)) as [->|Hne].
      * rewrite lookup_insert_eq in Hrow'. injection Hrow' as <-. rewrite Hr0.
        left. by apply (kept_by_state e).
      * rewrite lookup_insert_ne in Hrow' by done. rewrite Hrow'. by left.
    + destruct Hsum as [Hc|(k0 & x & Hk0 & Hrec)]; [by apply Hsame|].
      destruct Hrec as (r0 & et & actor & to & Hr0 & _ & _ & Hto & Hc & _ & _).
      rewrite Hc in Hrow'. cbn [add_event put_case cases] in Hrow'.
      destruct (decide (k0 = k)) as [->|Hne].
      * rewrite lookup_insert_eq in Hrow'. injection Hrow' as <-. rewrite Hr0.
        right. by exists id0, eventType, comment, actorId.
      * rewrite lookup_insert_ne in Hrow' by done. rewrite Hrow'. by left.
Qed.





(** ** Requests that only read *)

Lemma same_store_refl w : same_store w w.
Proof. by split. Qed.

Lemma same_store_trans w1 w2 w3 : same_store w1 w2 → same_store w2 w3 → same_store w1 w3.
Proof. intros [? ?] [? ?]. split; congruence. Qed.

Lemma reads_only_ret {A} (a : A) : reads_only (ret a).
Proof. intros w. split; [apply same_store_refl|]. exists []. by rewrite app_nil_r. Qed.

Lemma reads_only_throw {A} e : reads_only (throw e : M A).
Proof. intros w. split; [apply same_store_refl|]. exists []. by rewrite app_nil_r. Qed.

Lemma reads_only_bind {A B} (m : M A) (k : A → M B) :
  reads_only m → (∀ a, reads_only (k a)) → reads_only (bind m k).
Proof.
  intros Hm Hk w. unfold bind. specialize (Hm w).
  destruct (m w) as [[a|e] w1]; cbn [snd] in Hm; [|done].
  destruct Hm as (Hs & tr & Hlog & Htr). destruct (Hk a w1) as (Hs' & tr' & Hlog' & Htr').
  split; [by eapply same_store_trans|].
  exists (tr ++ tr')%list. rewrite Hlog', Hlog, app_assoc. split; [done|].
  by apply Forall_app.
Qed.

Lemma reads_only_try_catch {A} (m : M A) (h : error → M A) :
  reads_only m → (∀ e, reads_only (h e)) → reads_only (try_catch m h).
Proof.
  intros Hm Hh w. unfold try_catch. specialize (Hm w).
  destruct (m w) as [[a|e] w1]; cbn [snd] in Hm; [done|].
  destruct Hm as (Hs & tr & Hlog & Htr). destruct (Hh e w1) as (Hs' & tr' & Hlog' & Htr').
  split; [by eapply same_store_trans|].
  exists (tr ++ tr')%list. rewrite Hlog', Hlog, app_assoc. split; [done|].
  by apply Forall_app.
Qed.

Lemma next_seq_read q seq : is_read q = true → next_seq q seq = seq.
Proof. by destruct q. Qed.

Lemma reads_only_pool_query q : is_read q = true → reads_only (pool_query q).
Proof.
  intros Hq w. unfold pool_query, run_pool.
  destruct (faults w (calls w)) as [e|].
  { split; [by split|]. exists [(PoolQuery q, Some e)]. split; [done|]. by constructor. }
  destruct (sem _ _ _ _ _) as [e|[rows t']] eqn:Hsem;
    cbn [snd record set_store committed event_seq log]; rewrite next_seq_read by done.
  - split; [by split|]. eexists [_]. split; [done|]. by constructor.
  - apply sem_read in Hsem as ->; [|done].
    split; [by split|]. eexists [_]. split; [done|]. by constructor.
Qed.

Lemma reads_only_get_member v k : reads_only (get_member v k).
Proof. destruct v as [[]|]; first [apply reads_only_ret | apply reads_only_throw]. Qed.

Lemma reads_only_getCaseById id : reads_only (getCaseById id).
Proof.
  apply reads_only_bind; [by apply reads_only_pool_query|]. intros. apply reads_only_ret.
Qed.

Ltac reads_only_step :=
  lazymatch goal with
  | |- reads_only (bind _ _) => apply reads_only_bind; [|intros ?]
  | |- reads_only (ret _) => apply reads_only_ret
  | |- reads_only (throw _) => apply reads_only_throw
  | |- reads_only (getCaseById _) => apply reads_only_getCaseById
  | |- reads_only (get_member _ _) => apply reads_only_get_member
  | |- reads_only (pool_query _) => by apply reads_only_pool_query
  | |- reads_only (if ?b then _ else _) => destruct b
  | |- reads_only (match ?x with _ => _ end) => destruct x
  end.

Lemma reads_only_route r : engine_call_of r = None → reads_only (route r).
Proof.
  destruct r; try discriminate; intros _;
    unfold route, show_case, getCaseEventById, listCases, listCaseEvents;
    repeat reads_only_step.
Qed.

Lemma reads_only_serve csrf_valid r :
  engine_call_of r = None → reads_only (serve csrf_valid r).
Proof.
  intros Hr. unfold serve. destruct (is_post r && negb csrf_valid); [apply reads_only_ret|].
  apply reads_only_try_catch; [by apply reads_only_route|]. intros. apply reads_only_ret.
Qed.

Lemma is_post_engine_call_of r : is_post r = false → engine_call_of r = None.
Proof. by destruct r. Qed.

(** X16.  A request whose route makes no engine call never changes the
    store, whatever the store does: the tables and the event id sequence
    are afterwards what they were, and the only calls made are [SELECT]s
    through the pool (no transaction is opened).  These are all the [GET]
    requests and [POST /cases/:id/review], which only shows the case. *)
Theorem get_requests_only_read (csrf_valid : bool) (r : request) (w : world) :
  engine_call_of r = None →
  same_store w (serve csrf_valid r w).2 ∧
  ∃ tr, log (serve csrf_valid r w).2 = (log w ++ tr)%list ∧ Forall is_pool_read tr.
Proof. intros Hr. by apply reads_only_serve. Qed.

(** ** Requests that write *)

Lemma wp_reads_only {A} (m : M A) (Q : outcome A → world → Prop) w :
  reads_only m → (∀ r w1, same_store w w1 → Q r w1) → wp m Q w.
Proof. intros Hm HQ. unfold wp. apply HQ, Hm. Qed.

Lemma route_outcome_same_store r w w1 x w' :
  same_store w w1 → route_outcome r w1 x w' → route_outcome r w x w'.
Proof.
  intros Hs. unfold route_outcome.
  destruct x as [[]|]; try (intros ->; apply Hs).
  intros (c & w0 & res & ? & ? & ? & ?). exists c, w0, res. split; [done|]. split; [done|].
  split; [by eapply same_store_trans|done].
Qed.

Lemma run_engine_create title description createdBy w :
  run_engine (Create title description createdBy) w
  = match createCase title description createdBy w with
    | (Ok c, w') => (Ok (ReturnedCase c), w')
    | (Throw e, w') => (Throw e, w')
    end.
Proof. cbn [run_engine]. unfold bind. by destruct (createCase _ _ _ w) as [[]?]. Qed.

Lemma run_engine_edit id e w :
  run_engine (Edit id e) w
  = match run_edit id e w with
    | (Ok result, w') => (Ok (ReturnedUpdate result), w')
    | (Throw e, w') => (Throw e, w')
    end.
Proof. cbn [run_engine]. unfold bind. by destruct (run_edit _ _ w) as [[]?]. Qed.

Lemma run_engine_transition id eventType comment actorId w :
  run_engine (Transition id eventType comment actorId) w
  = match transitionCase id eventType comment actorId w with
    | (Ok c, w') => (Ok (ReturnedCase c), w')
    | (Throw e, w') => (Throw e, w')
    end.
Proof. cbn [run_engine]. unfold bind. by destruct (transitionCase _ _ _ _ w) as [[]?]. Qed.

(** The engine call of a route, followed by the route's answer. *)
Lemma wp_route_create r title description createdBy w :
  form_accepted r = true →
  engine_call_of r = Some (Create title description createdBy) →
  (∀ c, redirect_to r (ReturnedCase c) = "/cases/" +:+ js_String (member c "id")) →
  wp (let* c := createCase title description createdBy in
      let* c_id := get_member c "id" in
      ret (Redirect ("/cases/" +:+ js_String c_id)))
     (route_outcome r w) w.
Proof.
  intros Hacc Hr Hloc. unfold wp, bind.
  pose proof (run_engine_outcome (Create title description createdBy) w) as H.
  unfold wp in H. rewrite run_engine_create in H.
  destruct (createCase title description createdBy w) as [[c|e] w'] eqn:Hrun;
    cbn [fst snd engine_outcome] in *; [|done].
  destruct H as [[Hs Hrec]|(_ & _ & id & k & [=] & _)].
  destruct Hrec as (? & ? & _ & _ & _ & _ & [= ->] & _).
  cbn [get_member ret fst snd route_outcome].
  eexists _, w, _. split; [exact Hacc|]. split; [exact Hr|]. split; [apply same_store_refl|].
  rewrite run_engine_create, Hrun. split; [reflexivity|]. split; [done|].
  by rewrite Hloc.
Qed.

Lemma wp_route_edit r id e w :
  form_accepted r = true →
  engine_call_of r = Some (Edit id e) →
  (∀ result, redirect_to r (ReturnedUpdate (Some result))
             = "/cases/" +:+ id +:+ "/changes-saved/" +:+ js_String (eventId result)) →
  wp (let* result := run_edit id e in
      match result with
      | None => ret not_found
      | Some result =>
          ret (Redirect ("/cases/" +:+ id +:+ "/changes-saved/" +:+
                         js_String (eventId result)))
      end)
     (route_outcome r w) w.
Proof.
  intros Hacc Hr Hloc. unfold wp, bind.
  pose proof (run_engine_outcome (Edit id e) w) as H.
  unfold wp in H. rewrite run_engine_edit in H.
  destruct (run_edit id e w) as [[[result|]|err] w'] eqn:Hrun;
    cbn [fst snd engine_outcome] in *; [| |done].
  - cbn [ret fst snd route_outcome].
    eexists _, w, _. split; [exact Hacc|]. split; [exact Hr|]. split; [apply same_store_refl|].
    rewrite run_engine_edit, Hrun. split; [reflexivity|]. split; [by eexists|].
    by rewrite Hloc.
  - cbn [ret not_found fst snd route_outcome].
    destruct H as [[[? [=]] _]|(_ & ? & _)]. done.
Qed.

Lemma wp_route_transition r id eventType comment actorId loc w :
  form_accepted r = true →
  engine_call_of r = Some (Transition id eventType comment actorId) →
  (∀ res, redirect_to r res = loc) →
  wp (let* updated := transitionCase id eventType comment actorId in
      if negb (truthy_val updated) then ret not_found else ret (Redirect loc))
     (route_outcome r w) w.
Proof.
  intros Hacc Hr Hloc. unfold wp, bind.
  pose proof (run_engine_outcome (Transition id eventType comment actorId) w) as H.
  unfold wp in H. rewrite run_engine_transition in H.
  destruct (transitionCase id eventType comment actorId w) as [[c|err] w'] eqn:Hrun;
    cbn [fst snd engine_outcome] in *; [|done].
  destruct H as [[Hs Hrec]|(Hc & ? & _)].
  - cbn [succeeded] in Hs. rewrite Hs. cbn [negb ret fst snd route_outcome].
    eexists _, w, _. split; [exact Hacc|]. split; [exact Hr|]. split; [apply same_store_refl|].
    rewrite run_engine_transition, Hrun. split; [reflexivity|]. split; [done|].
    by rewrite Hloc.
  - injection Hc as ->. done.
Qed.

Ltac route_read :=
  apply wp_bind, wp_reads_only; [by repeat reads_only_step|];
  let x := fresh "x" in let w1 := fresh "w1" in let Hs := fresh "Hs" in
  intros x w1 Hs; destruct x; [|by apply Hs];
  lazymatch goal with
  | |- wp ?m (route_outcome ?r ?w) w1 =>
      apply (wp_mono m (route_outcome r w1) (route_outcome r w) w1);
      [intros ? ?; by apply route_outcome_same_store|]
  end;
  clear Hs.

(** The form was accepted: the checks of the route came out that way. *)
Ltac accepted :=
  cbn [form_accepted];
  first [ reflexivity
        | match goal with H : _ = false |- _ => by rewrite H end
        | match goal with H : negb _ = false |- _ => by apply negb_false_iff in H end ].

Ltac route_step :=
  lazymatch goal with
  | |- wp (ret _) _ _ => apply wp_ret; cbn [route_outcome not_found]; reflexivity
  | |- wp (if ?b then _ else _) _ _ => let E := fresh "E" in destruct b eqn:E
  | |- wp (match ?x with _ => _ end) _ _ => destruct x
  | |- wp (bind (createCase _ _ _) _) _ _ =>
      eapply wp_route_create; [accepted | reflexivity | reflexivity]
  | |- wp (bind (updatePersonDetails ?id ?a ?b ?c ?d ?e ?f) _) _ _ =>
      apply (wp_route_edit _ id (PersonDetails a b c d e f));
      [accepted | reflexivity | reflexivity]
  | |- wp (bind (updateClinicalDetails ?id ?a ?b ?c ?d) _) _ _ =>
      apply (wp_route_edit _ id (ClinicalDetails a b c d));
      [accepted | reflexivity | reflexivity]
  | |- wp (bind (updateLocationDetails ?id ?a ?b ?c) _) _ _ =>
      apply (wp_route_edit _ id (LocationDetails a b c));
      [accepted | reflexivity | reflexivity]
  | |- wp (bind (transitionCase _ _ _ _) _) _ _ =>
      eapply wp_route_transition; [accepted | reflexivity | reflexivity]
  | |- wp (bind _ _) _ _ => route_read
  end.

Lemma route_effect r w : wp (route r) (route_outcome r w) w.
Proof.
  destruct r; unfold route, show_case, getCaseEventById, listCases, listCaseEvents;
    cbv zeta; repeat route_step.
Qed.

Lemma serve_effect csrf_valid r w x w' :
  serve csrf_valid r w = (x, w') →
  (∃ resp, x = Ok resp) ∧ route_outcome r w x w'.
Proof.
  unfold serve. destruct (is_post r && negb csrf_valid).
  { intros [= <- <-]. split; [by eexists|done]. }
  unfold try_catch. pose proof (route_effect r w) as H. unfold wp in H.
  destruct (route r w) as [[resp|e] w1]; cbn [fst snd] in H; intros [= <- <-].
  - split; [by eexists|done].
  - split; [by eexists|]. exact H.
Qed.

(** X17.  Every request is answered: no exception escapes the error handler.
    And only a redirect tells of a change: when the answer is anything else
    (a page, 400 for a form that is not accepted, 403, 404, 500), the tables
    are what they were before the request, whatever the store did. *)
Theorem only_redirects_write (csrf_valid : bool) (r : request) (w w' : world)
    (x : outcome response) :
  serve csrf_valid r w = (x, w') →
  (∃ resp, x = Ok resp) ∧
  ((∀ loc, x ≠ Ok (Redirect loc)) → committed w' = committed w).
Proof.
  intros Hrun. destruct (serve_effect _ _ _ _ _ Hrun) as [Hresp Hout]. split; [done|].
  intros Hn. destruct x as [[]|]; try exact Hout. by destruct (Hn location).
Qed.

Lemma run_engine_recorded c w res w' :
  run_engine c w = (Ok res, w') → succeeded res → recorded c w res w'.
Proof.
  intros Hrun Hs. pose proof (wp_elim _ _ _ _ _ Hrun (run_engine_outcome c w)) as H.
  destruct H as [[_ H]|(-> & _)]; [done|].
  destruct c; cbn [not_found_result succeeded truthy_val truthy] in Hs;
    first [discriminate | by destruct Hs].
Qed.

(** X18.  A redirect tells of exactly one engine call that succeeded: the
    request has made the call [engine_call_of] names, on the store as the
    request found it, the call has returned its result and committed the
    case row together with its event, and the redirect goes where the
    result says. *)
Theorem redirect_means_committed (csrf_valid : bool) (r : request) (w w' : world)
    (loc : string) :
  serve csrf_valid r w = (Ok (Redirect loc), w') →
  ∃ c w0 res,
    form_accepted r = true ∧
    engine_call_of r = Some c ∧ same_store w w0 ∧
    run_engine c w0 = (Ok res, w') ∧ recorded c w0 res w' ∧
    loc = redirect_to r res.
Proof.
  intros Hrun. destruct (serve_effect _ _ _ _ _ Hrun) as [_ Hout].
  destruct Hout as (c & w0 & res & Hacc & Hc & Hs & Hcall & Hres & ->).
  exists c, w0, res. repeat split; try done; try apply Hs.
  by apply run_engine_recorded.
Qed.

(** ** Requests about a case that does not exist *)

Lemma getCaseById_missing id k w :
  quiet w 1 →
  uuid_in id = Some k →
  cases (committed w) !! k = None →
  getCaseById id w
  = (Ok (VPrim PNull),
     record (PoolQuery (SelectCaseById id)) None
       (set_store w (committed w) (working w) (event_seq w))).
Proof.
  intros Hq Hk Hr0. unfold getCaseById, bind, pool_query, run_pool.
  assert (faults w (calls w) = None) as F by (apply (Hq 0%nat); lia).
  rewrite F. cbn [sem]. rewrite (uuid_param_ok id k Hk). by rewrite Hr0.
Qed.

Lemma getCaseById_refused id w :
  quiet w 1 →
  uuid_in id = None →
  getCaseById id w
  = (Throw invalid_text_representation,
     record (PoolQuery (SelectCaseById id)) (Some invalid_text_representation)
       (set_store w (committed w) (working w) (event_seq w))).
Proof.
  intros Hq Hk. unfold getCaseById, bind, pool_query, run_pool.
  assert (faults w (calls w) = None) as F by (apply (Hq 0%nat); lia).
  rewrite F. cbn [sem]. by rewrite (uuid_param_refused id Hk).
Qed.

Lemma quiet_weaken w k k' : (k' ≤ k)%nat → quiet w k → quiet w k'.
Proof. intros Hk Hq i Hi. apply Hq. lia. Qed.

(** X20.  Every route about a case answers 404 "Not found" when the id is
    the text of a uuid and no case has it, and 500 when the id is not the
    text of a uuid, which the store refuses with 22P02, provided the store
    carries out the calls: the pages, the form posts (whether or not the
    form would be accepted) and the workflow actions alike.  Nothing is
    written. *)
Theorem unknown_case_not_found (r : request) (id : string) (w : world) :
  case_of r = Some id →
  (∀ k, uuid_in id = Some k → cases (committed w) !! k = None) →
  quiet w 4 →
  ∃ w' resp,
    serve true r w = (Ok resp, w') ∧
    committed w' = committed w ∧
    match uuid_in id with
    | Some _ => resp = not_found
    | None => ∃ text, resp = Send 500 text
    end.
Proof.
  intros Hr Hnone Hq. destruct (uuid_in id) as [k|] eqn:Hk.
  - specialize (Hnone k eq_refl).
    assert (∀ eventType comment actorId loc,
              ∃ w' resp,
                try_catch
                  (let* updated := transitionCase id eventType comment actorId in
                   if negb (truthy_val updated) then ret not_found
                   else ret (Redirect loc))
                  (λ e, ret (server_error e)) w
                = (Ok resp, w') ∧ committed w' = committed w ∧ resp = not_found) as Htr.
    { intros. unfold try_catch, bind.
      pose proof (transitionCase_not_found id k eventType comment actorId w Hq Hk Hnone) as H.
      unfold wp in H. destruct (transitionCase _ _ _ _ w) as [x w']. cbn [fst snd] in H.
      destruct H as (-> & Hc & _). exists w'. eexists. split; [reflexivity|done]. }
    pose proof (getCaseById_missing id k w (quiet_weaken w 4 1 ltac:(lia) Hq) Hk Hnone)
      as Hget.
    destruct r; try discriminate; injection Hr as ->;
      unfold serve, route, show_case; cbn [is_post negb andb];
      first [ apply Htr
            | unfold try_catch, bind; rewrite Hget; cbn [truthy_val truthy negb ret];
              do 2 eexists; split; [reflexivity|]; split; reflexivity ].
  - clear Hnone.
    assert (∀ eventType comment actorId loc,
              ∃ w' resp,
                try_catch
                  (let* updated := transitionCase id eventType comment actorId in
                   if negb (truthy_val updated) then ret not_found
                   else ret (Redirect loc))
                  (λ e, ret (server_error e)) w
                = (Ok resp, w') ∧ committed w' = committed w ∧
                ∃ text, resp = Send 500 text) as Htr.
    { intros. unfold try_catch, bind.
      pose proof (transitionCase_refused id eventType comment actorId w Hq Hk) as H.
      unfold wp in H. destruct (transitionCase _ _ _ _ w) as [x w']. cbn [fst snd] in H.
      destruct H as (-> & Hc & _). exists w'. eexists. split; [reflexivity|].
      split; [done|]. by eexists. }
    pose proof (getCaseById_refused id w (quiet_weaken w 4 1 ltac:(lia) Hq) Hk) as Hget.
    destruct r; try discriminate; injection Hr as ->;
      unfold serve, route, show_case; cbn [is_post negb andb];
      first [ apply Htr
            | unfold try_catch, bind; rewrite Hget; cbn [ret];
              do 2 eexists; split; [reflexivity|]; split; [reflexivity|]; by eexists ].
Qed.
(** ** What every sequence of requests keeps *)

Lemma run_engine_steps (c : engine_call) (w : world) :
  committed (run_engine c w).2 = committed w ∨
  ∃ res, recorded c w res (run_engine c w).2.
Proof.
  pose proof (run_engine_outcome c w) as H. unfold wp in H.
  destruct (run_engine c w) as [[res|e] w']; cbn [fst snd engine_outcome] in *.
  - destruct H as [[_ H]|(_ & H & _)]; eauto.
  - by left.
Qed.

Lemma preserves_serve_calls P csrf_valid r :
  (∀ c, engine_call_of r = Some c → preserves P (run_engine c)) →
  preserves P (serve csrf_valid r).
Proof.
  intros Hc w Hw. destruct (serve csrf_valid r w) as [x w'] eqn:Hrun. cbn [snd].
  destruct (serve_effect _ _ _ _ _ Hrun) as [_ Hout]. unfold route_outcome in Hout.
  assert (committed w' = committed w → P (committed w')) as Hsame by (by intros ->).
  destruct x as [[]|]; try by apply Hsame.
  destruct Hout as (c & w0 & res & _ & Hcall & [Hs _] & Hrun0 & _).
  specialize (Hc c Hcall w0). rewrite Hrun0, Hs in Hc. by apply Hc.
Qed.

Lemma preserves_serve_all_calls P rs :
  (∀ c, preserves P (run_engine c)) → preserves P (serve_all rs).
Proof.
  intros Hc. induction rs as [|[csrf_valid r] rs IH]; cbn [serve_all]; [apply preserves_ret|].
  apply preserves_bind; [apply preserves_serve_calls; auto|]. intros x.
  apply preserves_bind; [apply IH|]. intros xs. apply preserves_ret.
Qed.

(** *** The history of every case matches its state *)

Lemma events_of_add_event t e id :
  events_of (add_event t e) id
  = (events_of t id ++ if decide (e_case_id e = id) then [e] else [])%list.
Proof.
  unfold events_of. cbn [add_event case_events]. rewrite filter_app.
  f_equal.
Qed.

Lemma events_of_put_case t id r id' : events_of (put_case t id r) id' = events_of t id'.
Proof. reflexivity. Qed.

Lemma chained_snoc prev evs e :
  chained prev evs →
  e_from_state e = match last evs with Some e' => e_to_state e' | None => prev end →
  chained prev (evs ++ [e]).
Proof.
  revert prev. induction evs as [|e' evs IH]; intros prev; cbn [chained app].
  - by intros _ ->.
  - intros [-> Hch] He. split; [done|]. apply IH; [done|].
    rewrite He. destruct evs as [|e'' evs]; [reflexivity|].
    change (last (e' :: e'' :: evs)) with (last (e'' :: evs)).
    destruct (last (e'' :: evs)) eqn:E; [done|]. by apply last_None in E.
Qed.

Lemma last_to_state evs s :
  last evs ≫= e_to_state = Some s →
  match last evs with Some e' => e_to_state e' | None => None end = Some s.
Proof. by destruct (last evs). Qed.

(** A case is written together with an event that starts from its state
    and leads to the state it is written with. *)
Lemma history_matches_step t id r1 ev :
  history_matches t →
  e_case_id ev = id →
  e_from_state ev = c_state <$> cases t !! id →
  e_to_state ev = Some (c_state r1) →
  history_matches (add_event (put_case t id r1) ev).
Proof.
  intros Ht Hid Hfrom Hto id'. specialize (Ht id').
  rewrite events_of_add_event, events_of_put_case. cbn [add_event put_case cases].
  destruct (decide (id = id')) as [<-|Hne].
  - rewrite lookup_insert_eq, decide_True by done. rewrite last_snoc. cbn. split; [|done].
    destruct (cases t !! id) as [r0|]; cbn in Hfrom.
    + destruct Ht as [Hch Hlast]. apply chained_snoc; [done|].
      rewrite Hfrom. symmetry. by apply last_to_state.
    + rewrite Ht. done.
  - rewrite lookup_insert_ne, decide_False, app_nil_r by congruence. exact Ht.
Qed.

Lemma history_matches_recorded c w res w' :
  recorded c w res w' → history_matches (committed w) → history_matches (committed w').
Proof.
  intros Hrec Ht.
  destruct c as [title description createdBy | id e | id eventType comment actorId],
    res as [x|[result|]]; try done; cbn [recorded] in Hrec.
  - destruct Hrec as (title' & actor & Hfresh & _ & _ & -> & _).
    apply history_matches_step; try done. by rewrite Hfresh.
  - destruct Hrec as (k & _ & (r0 & r1 & actor & Hr0 & Hk & _ & _ & _ & -> & _) & _).
    apply history_matches_step; try done; cbn [e_from_state e_to_state].
    + by rewrite Hr0.
    + by rewrite (kept_by_state e r0 r1).
  - destruct Hrec as (k & _ & r0 & et & actor & to & Hr0 & _ & _ & _ & Hc & _). cbv zeta in Hc.
    rewrite Hc. apply history_matches_step; try done. cbn [e_from_state]. by rewrite Hr0.
Qed.

Lemma preserves_history_matches c : preserves history_matches (run_engine c).
Proof.
  intros w Hw. destruct (run_engine_steps c w) as [->|[res Hrec]]; [done|].
  by eapply history_matches_recorded.
Qed.

(** X6.  The event log and the cases agree, and stay in agreement whatever
    operation the engine runs with whatever arguments, whatever requests the
    server handles and whatever the store does: the events of each case
    form an unbroken chain (each event's [from_state] is the [to_state] of
    the case's event before it, the first event's is NULL) that ends in the
    state the case is in, and no event belongs to a case that does not
    exist.  This holds of the empty store. *)
Theorem history_always_matches :
  history_matches (Tables ∅ []) ∧
  (∀ (c : engine_call) (w : world),
     history_matches (committed w) → history_matches (committed (run_engine c w).2)) ∧
  (∀ (rs : list (bool * request)) (w : world),
     history_matches (committed w) → history_matches (committed (serve_all rs w).2)).
Proof.
  split; [by intros id|]. split; [intros c; apply preserves_history_matches|].
  intros rs. apply preserves_serve_all_calls. apply preserves_history_matches.
Qed.

(** *** Nothing is deleted or rewritten *)

Lemma creation_kept_refl r : creation_kept r r.
Proof. by repeat split. Qed.

Lemma extends_refl t : extends t t.
Proof. split; [done|]. intros id r Hr. exists r. split; [done|apply creation_kept_refl]. Qed.

Lemma extends_trans t1 t2 t3 : extends t1 t2 → extends t2 t3 → extends t1 t3.
Proof.
  intros [Hp1 Hc1] [Hp2 Hc2]. split; [by etrans|].
  intros id r Hr. destruct (Hc1 id r Hr) as (r' & Hr' & ? & ? & ? & ?).
  destruct (Hc2 id r' Hr') as (r'' & Hr'' & ? & ? & ? & ?).
  exists r''. split; [done|]. repeat split; congruence.
Qed.

Lemma extends_step t id r1 ev :
  (∀ r0, cases t !! id = Some r0 → creation_kept r0 r1) →
  extends t (add_event (put_case t id r1) ev).
Proof.
  intros Hk. split; [by apply prefix_app_r|].
  intros id' r Hr. cbn [add_event put_case cases].
  destruct (decide (id = id')) as [<-|Hne].
  - rewrite lookup_insert_eq. exists r1. split; [done|]. by apply Hk.
  - rewrite lookup_insert_ne by done. exists r. split; [done|apply creation_kept_refl].
Qed.

Lemma kept_by_creation e r r' : kept_by e r r' → creation_kept r r'.
Proof. destruct e; intros H; unfold creation_kept; repeat split; apply H. Qed.

Lemma extends_recorded c w res w' :
  recorded c w res w' → extends (committed w) (committed w').
Proof.
  intros Hrec.
  destruct c as [title description createdBy | id e | id eventType comment actorId],
    res as [x|[result|]]; try done; cbn [recorded] in Hrec.
  - destruct Hrec as (title' & actor & Hfresh & _ & _ & -> & _).
    apply extends_step. intros r0. by rewrite Hfresh.
  - destruct Hrec as (k & _ & (r0 & r1 & actor & Hr0 & Hk & _ & _ & _ & -> & _) & _).
    apply extends_step. intros r0'. rewrite Hr0. intros [= <-]. by eapply kept_by_creation.
  - destruct Hrec as (k & _ & r0 & et & actor & to & Hr0 & _ & _ & _ & Hc & _). cbv zeta in Hc.
    rewrite Hc. apply extends_step. intros r0'. rewrite Hr0. intros [= <-]. by repeat split.
Qed.

Lemma preserves_extends t0 c : preserves (extends t0) (run_engine c).
Proof.
  intros w Hw. destruct (run_engine_steps c w) as [->|[res Hrec]]; [done|].
  eapply extends_trans; [done|]. by eapply extends_recorded.
Qed.

(** X7.  Nothing is deleted and no event is rewritten: whatever operation
    the engine runs and whatever requests the server handles, the events
    there were are still there afterwards, unchanged and in the same order
    (new ones come after them), every case there was is still there, and
    its [created_by], [created_at], [version] and [assigned_to] are what
    they were.  In particular no operation increments [version] or assigns
    a case. *)
Theorem cases_and_events_only_grow :
  (∀ (c : engine_call) (w : world),
     extends (committed w) (committed (run_engine c w).2)) ∧
  (∀ (rs : list (bool * request)) (w : world),
     extends (committed w) (committed (serve_all rs w).2)).
Proof.
  split.
  - intros c w. apply (preserves_extends (committed w) c w), extends_refl.
  - intros rs w. apply (preserves_serve_all_calls (extends (committed w)) rs).
    + intros c. apply preserves_extends.
    + apply extends_refl.
Qed.

(** *** Event ids *)

Lemma seq_grows_ret {A} (a : A) : seq_grows (ret a).
Proof. intros w. reflexivity. Qed.

Lemma seq_grows_throw {A} e : seq_grows (throw e : M A).
Proof. intros w. reflexivity. Qed.

Lemma seq_grows_bind {A B} (m : M A) (k : A → M B) :
  seq_grows m → (∀ a, seq_grows (k a)) → seq_grows (bind m k).
Proof.
  intros Hm Hk w. unfold bind. specialize (Hm w).
  destruct (m w) as [[a|e] w1]; cbn [snd] in *; [|done].
  etrans; [done|]. apply Hk.
Qed.

Lemma seq_grows_try_catch {A} (m : M A) (h : error → M A) :
  seq_grows m → (∀ e, seq_grows (h e)) → seq_grows (try_catch m h).
Proof.
  intros Hm Hh w. unfold try_catch. specialize (Hm w).
  destruct (m w) as [[a|e] w1]; cbn [snd] in *; [done|].
  etrans; [done|]. apply Hh.
Qed.

Lemma seq_grows_try_finally {A} (m : M A) (f : M unit) :
  seq_grows m → seq_grows f → seq_grows (try_finally m f).
Proof.
  intros Hm Hf w. unfold try_finally. specialize (Hm w).
  destruct (m w) as [r w1]; cbn [snd] in *. specialize (Hf w1).
  destruct (f w1) as [[[]|e] w2]; cbn [snd] in *; by etrans.
Qed.

Lemma seq_grows_connect : seq_grows connect.
Proof. intros w. unfold connect. by destruct (faults w (calls w)). Qed.

Lemma seq_grows_release : seq_grows release.
Proof. by intros w. Qed.

Lemma next_seq_le q seq : seq ≤ next_seq q seq.
Proof. unfold next_seq. destruct (draws_event_id q); lia. Qed.

Lemma seq_grows_client_query q : seq_grows (client_query q).
Proof.
  intros w. unfold client_query. destruct (faults w (calls w)); [done|].
  destruct (is_control q) eqn:Hq.
  - by destruct q.
  - rewrite run_client_data by done.
    destruct (sem _ _ _ _ _) as [e|[rows t']]; cbn [snd record event_seq set_store written].
    + apply next_seq_le.
    + unfold written. destruct (working w); apply next_seq_le.
Qed.

Lemma seq_grows_pool_query q : seq_grows (pool_query q).
Proof.
  intros w. unfold pool_query, run_pool. destruct (faults w (calls w)); [done|].
  destruct (sem _ _ _ _ _) as [e|[rows t']]; apply next_seq_le.
Qed.

Lemma seq_grows_get_member v k : seq_grows (get_member v k).
Proof. destruct v as [[]|]; by intros w. Qed.

Ltac seq_grows_step :=
  lazymatch goal with
  | |- seq_grows (bind _ _) => apply seq_grows_bind; [|intros ?]
  | |- seq_grows (try_catch _ _) => apply seq_grows_try_catch; [|intros ?]
  | |- seq_grows (try_finally _ _) => apply seq_grows_try_finally
  | |- seq_grows (ret _) => apply seq_grows_ret
  | |- seq_grows (throw _) => apply seq_grows_throw
  | |- seq_grows connect => apply seq_grows_connect
  | |- seq_grows release => apply seq_grows_release
  | |- seq_grows (client_query _) => apply seq_grows_client_query
  | |- seq_grows (pool_query _) => apply seq_grows_pool_query
  | |- seq_grows (get_member _ _) => apply seq_grows_get_member
  | |- seq_grows (if ?b then _ else _) => destruct b
  | |- seq_grows (match ?x with _ => _ end) => destruct x
  end.

Lemma seq_grows_createCase title description createdBy :
  seq_grows (createCase title description createdBy).
Proof. unfold createCase, in_transaction. cbv zeta. repeat seq_grows_step. Qed.

Lemma seq_grows_update_group id tag q actorId : seq_grows (update_group id tag q actorId).
Proof. unfold update_group, in_transaction, insertEvent. cbv zeta. repeat seq_grows_step. Qed.

Lemma seq_grows_run_edit id e : seq_grows (run_edit id e).
Proof. rewrite run_edit_update_group. apply seq_grows_update_group. Qed.

Lemma seq_grows_transitionCase id eventType comment actorId :
  seq_grows (transitionCase id eventType comment actorId).
Proof. unfold transitionCase, in_transaction. cbv zeta. repeat seq_grows_step. Qed.

Lemma seq_grows_run_engine c : seq_grows (run_engine c).
Proof.
  destruct c; cbn [run_engine]; apply seq_grows_bind;
    first [ apply seq_grows_createCase | apply seq_grows_run_edit
          | apply seq_grows_transitionCase | intros; apply seq_grows_ret ].
Qed.

Lemma recorded_event c w res w' :
  recorded c w res w' →
  ∃ ev, case_events (committed w') = (case_events (committed w) ++ [ev])%list ∧
        e_id ev = event_seq w ∧ event_seq w' = event_seq w + 1.
Proof.
  intros Hrec.
  destruct c as [title description createdBy | id e | id eventType comment actorId],
    res as [x|[result|]]; try done; cbn [recorded] in Hrec.
  - destruct Hrec as (title' & actor & _ & _ & _ & -> & _ & ->). eexists. by repeat split.
  - destruct Hrec as (k & _ & (r0 & r1 & actor & _ & _ & _ & _ & _ & -> & _ & ->) & _).
    eexists. by repeat split.
  - destruct Hrec as (k & _ & r0 & et & actor & to & _ & _ & _ & _ & Hc & _ & ->). cbv zeta in Hc.
    rewrite Hc. eexists. by repeat split.
Qed.

Lemma event_ids_fresh_same w w' :
  committed w' = committed w → event_seq w ≤ event_seq w' →
  event_ids_fresh w → event_ids_fresh w'.
Proof.
  intros Hc Hs [Hnd Hlt]. unfold event_ids_fresh. rewrite Hc. split; [done|].
  eapply Forall_impl; [done|]. intros e He. cbn in He. lia.
Qed.

Lemma event_ids_fresh_run_engine c w :
  event_ids_fresh w → event_ids_fresh (run_engine c w).2.
Proof.
  intros Hw. pose proof (seq_grows_run_engine c w) as Hs.
  destruct (run_engine_steps c w) as [Hc|[res Hrec]]; [by eapply event_ids_fresh_same|].
  destruct (recorded_event _ _ _ _ Hrec) as (ev & He & Hid & Hseq).
  destruct Hw as [Hnd Hlt]. unfold event_ids_fresh. rewrite He, Hseq. split.
  - rewrite fmap_app. apply NoDup_app. split; [done|]. split; [|apply NoDup_singleton].
    intros x (e & Hx & Hin)%list_elem_of_fmap [Hx'|[]%elem_of_nil]%elem_of_cons.
    rewrite Forall_forall in Hlt. specialize (Hlt e Hin). cbn in Hlt, Hx'. lia.
  - apply Forall_app. split.
    + eapply Forall_impl; [done|]. intros e He'. cbn in He'. lia.
    + constructor; [lia|done].
Qed.

Ltac seq_grows_route_step :=
  lazymatch goal with
  | |- seq_grows (createCase _ _ _) => apply seq_grows_createCase
  | |- seq_grows (updatePersonDetails ?id ?a ?b ?c ?d ?e ?f) =>
      apply (seq_grows_run_edit id (PersonDetails a b c d e f))
  | |- seq_grows (updateClinicalDetails ?id ?a ?b ?c ?d) =>
      apply (seq_grows_run_edit id (ClinicalDetails a b c d))
  | |- seq_grows (updateLocationDetails ?id ?a ?b ?c) =>
      apply (seq_grows_run_edit id (LocationDetails a b c))
  | |- seq_grows (transitionCase _ _ _ _) => apply seq_grows_transitionCase
  | |- _ => seq_grows_step
  end.

Lemma seq_grows_serve csrf_valid r : seq_grows (serve csrf_valid r).
Proof.
  unfold serve. destruct (is_post r && negb csrf_valid); [apply seq_grows_ret|].
  apply seq_grows_try_catch; [|intros; apply seq_grows_ret].
  destruct r; unfold route, show_case, getCaseById, getCaseEventById, listCases,
    listCaseEvents; cbv zeta; repeat seq_grows_route_step.
Qed.

Lemma event_ids_fresh_serve csrf_valid r w :
  event_ids_fresh w → event_ids_fresh (serve csrf_valid r w).2.
Proof.
  intros Hw. pose proof (seq_grows_serve csrf_valid r w) as Hs.
  destruct (serve csrf_valid r w) as [x w'] eqn:Hrun. cbn [snd] in *.
  destruct (serve_effect _ _ _ _ _ Hrun) as [_ Hout]. unfold route_outcome in Hout.
  destruct x as [[]|]; try by eapply event_ids_fresh_same.
  destruct Hout as (c & w0 & res & _ & _ & [Hs1 Hs2] & Hrun0 & _).
  assert (event_ids_fresh w0) as Hw0.
  { apply (event_ids_fresh_same w); [done|lia|done]. }
  apply (event_ids_fresh_run_engine c) in Hw0. by rewrite Hrun0 in Hw0.
Qed.

(** X8.  Every event has an id of its own, below the next value of the
    sequence, and this stays so whatever operation the engine runs,
    whatever requests the server handles and whatever the store does
    (a failed operation may use up an id, which leaves a gap).  It holds
    of a store without events. *)
Theorem event_ids_stay_fresh :
  (∀ w : world, case_events (committed w) = [] → event_ids_fresh w) ∧
  (∀ (c : engine_call) (w : world),
     event_ids_fresh w → event_ids_fresh (run_engine c w).2) ∧
  (∀ (rs : list (bool * request)) (w : world),
     event_ids_fresh w → event_ids_fresh (serve_all rs w).2).
Proof.
  split; [|split].
  - intros w Hw. unfold event_ids_fresh. rewrite Hw. split; [apply NoDup_nil_2|done].
  - intros c w. apply event_ids_fresh_run_engine.
  - intros rs. induction rs as [|[csrf_valid r] rs IH]; intros w Hw; [done|].
    cbn [serve_all]. unfold bind.
    pose proof (event_ids_fresh_serve csrf_valid r w Hw) as H1.
    destruct (serve csrf_valid r w) as [[x|e] w1]; cbn [snd] in *; [|done].
    specialize (IH w1 H1). by destruct (serve_all rs w1) as [[xs|e] w2].
Qed.

(** ** The lists *)

#[local] Instance created_desc_total : Total created_desc.
Proof. intros a b. unfold created_desc. lia. Qed.

#[local] Instance created_desc_trans : Transitive created_desc.
Proof. intros a b c. unfold created_desc. lia. Qed.

#[local] Instance occurred_desc_total : Total occurred_desc.
Proof. intros a b. unfold occurred_desc. lia. Qed.

Lemma pool_query_ok q w rows w' :
  pool_query q w = (Ok rows, w') →
  ∃ t', sem (clock w (calls w)) (uuids w (calls w)) (event_seq w) q (committed w)
        = inr (rows, t') ∧
        committed w' = t' ∧ event_seq w' = next_seq q (event_seq w).
Proof.
  unfold pool_query, run_pool. destruct (faults w (calls w)); [done|].
  destruct (sem _ _ _ _ _) as [e|[rows' t']]; [done|]. intros [= <- <-]. by exists t'.
Qed.

Lemma pool_query_returns q w rows t' :
  quiet w 1 →
  sem (clock w (calls w)) (uuids w (calls w)) (event_seq w) q (committed w) = inr (rows, t') →
  ∃ w', pool_query q w = (Ok rows, w').
Proof.
  intros Hq Hsem. unfold pool_query, run_pool.
  assert (faults w (calls w) = None) as -> by (apply (Hq 0%nat); lia).
  rewrite Hsem. eauto.
Qed.

(** X4.  When the store carries out the read, [listCases] returns the fifty
    cases created last, or all of them when there are fewer, the latest
    first: every row is a case of the table, no case comes twice, the rows
    are in descending order of [created_at], and a case that is left out
    was created no later than any case that is listed.  Nothing is
    written. *)
Theorem listCases_latest_fifty (w : world) :
  quiet w 1 →
  ∃ rows w',
    listCases w = (Ok rows, w') ∧
    same_store w w' ∧
    ∃ l : list (string * case_row),
      rows = Rows ((λ kv, row_obj (list_fields kv.1 kv.2)) <$> l) ∧
      List.length l = (50 `min` size (cases (committed w)))%nat ∧
      NoDup l.*1 ∧
      (∀ id r, (id, r) ∈ l → cases (committed w) !! id = Some r) ∧
      Sorted created_desc l ∧
      (∀ id r kv, cases (committed w) !! id = Some r → (id, r) ∉ l → kv ∈ l →
                  c_created_at r ≤ c_created_at kv.2).
Proof.
  intros Hq.
  assert (∃ rows w', listCases w = (Ok rows, w')) as (rows & w' & Hrun).
  { edestruct (pool_query_returns SelectCases w) as [w' Hrun];
      [done|cbn [sem]; reflexivity|]. eauto. }
  exists rows, w'. split; [done|].
  apply pool_query_ok in Hrun as (t' & Hsem & Hc & Hs). cbn [sem] in Hsem.
  injection Hsem as <- <-. split; [by split|].
  set (m := cases (committed w)).
  set (L := merge_sort created_desc (map_to_list m)).
  assert (L ≡ₚ map_to_list m) as HP by apply merge_sort_Permutation.
  assert (StronglySorted created_desc L) as HS by apply (StronglySorted_merge_sort _).
  exists (take 50 L). split; [done|]. split; [|split; [|split; [|split]]].
  - rewrite length_take, HP, length_map_to_list. done.
  - rewrite fmap_take. eapply sublist_NoDup; [|apply sublist_take].
    rewrite HP. apply NoDup_fst_map_to_list.
  - intros id r Hin. apply elem_of_map_to_list. rewrite <- HP.
    apply elem_of_take in Hin as (i & Hi & _). by eapply list_elem_of_lookup_2.
  - apply StronglySorted_Sorted. rewrite <- (take_drop 50 L) in HS.
    by apply StronglySorted_app_1_l in HS.
  - intros id r kv Hr Hn Hkv.
    assert ((id, r) ∈ L) as Hin by (rewrite HP; by apply elem_of_map_to_list).
    rewrite <- (take_drop 50 L) in Hin, HS. apply elem_of_app in Hin as [?|Hin]; [done|].
    exact (StronglySorted_app_1_elem_of _ _ _ _ _ HS Hkv Hin).
Qed.

(** X5.  When the store carries out the read, [listCaseEvents] returns the
    events of the case its argument names (the case [k] the store reads
    the argument as) and no others, each once, in descending order of
    [occurred_at] and without their [event_data].  Nothing is written. *)
Theorem listCaseEvents_of_case (caseId k : string) (w : world) :
  uuid_in caseId = Some k →
  quiet w 1 →
  ∃ rows w',
    listCaseEvents caseId w = (Ok rows, w') ∧
    same_store w w' ∧
    ∃ l : list event_row,
      rows = EventRows ((λ e, EventObj (row_obj (event_fields e)) None) <$> l) ∧
      l ≡ₚ events_of (committed w) k ∧
      Sorted occurred_desc l.
Proof.
  intros Hk Hq.
  assert (∃ rows w', listCaseEvents caseId w = (Ok rows, w')) as (rows & w' & Hrun).
  { edestruct (pool_query_returns (SelectCaseEvents caseId) w) as [w' Hrun];
      [done|cbn [sem]; rewrite (uuid_param_ok _ _ Hk); reflexivity|]. eauto. }
  exists rows, w'. split; [done|].
  apply pool_query_ok in Hrun as (t' & Hsem & Hc & Hs). cbn [sem] in Hsem.
  rewrite (uuid_param_ok _ _ Hk) in Hsem.
  injection Hsem as <- <-. split; [by split|].
  exists (merge_sort occurred_desc (events_of (committed w) k)).
  split; [done|]. split; [apply merge_sort_Permutation|apply (Sorted_merge_sort _)].
Qed.

(** ** Reading back what was written *)

Lemma getCaseById_ok id w c w' :
  getCaseById id w = (Ok c, w') →
  ∃ k, uuid_in id = Some k ∧ c = stored_case (committed w) k ∧ same_store w w'.
Proof.
  unfold getCaseById, bind.
  destruct (pool_query (SelectCaseById id) w) as [[rows|e] w1] eqn:Hq; [|done].
  apply pool_query_ok in Hq as (t' & Hsem & Hc & Hs).
  apply sem_select_by_id in Hsem as (k & Hk & -> & ->). intros [= <- <-].
  exists k. split; [done|]. split; [|by split].
  unfold stored_case. by destruct (cases (committed w) !! k).
Qed.

Lemma stored_case_put t id r ev :
  stored_case (add_event (put_case t id r) ev) id = VObj (row_obj (detail_fields id r)).
Proof. unfold stored_case. cbn [add_event put_case cases]. by rewrite lookup_insert_eq. Qed.

Lemma list_fields_part id r :
  part_of (VObj (row_obj (list_fields id r))) (VObj (row_obj (detail_fields id r))).
Proof.
  cbn [part_of]. apply map_subseteq_spec. intros k v Hk.
  apply elem_of_list_to_map_2 in Hk. unfold list_fields in Hk.
  rewrite !elem_of_cons, elem_of_nil in Hk.
  destruct_or!; try done; injection Hk as -> ->; reflexivity.
Qed.

Lemma Ok_inv {A} (a b : A) : Ok a = Ok b → a = b.
Proof. by intros [= ->]. Qed.

Lemma getCaseById_returns id k w :
  uuid_in id = Some k →
  quiet w 1 → ∃ w', getCaseById id w = (Ok (stored_case (committed w) k), w').
Proof.
  intros Hk Hq. unfold getCaseById, bind.
  edestruct (pool_query_returns (SelectCaseById id) w) as [w' ->];
    [done|cbn [sem]; rewrite (uuid_param_ok _ _ Hk); reflexivity|].
  eexists. unfold stored_case. by destruct (cases (committed w) !! k).
Qed.

Lemma reads_back_stored id k w :
  uuid_in id = Some k → reads_back id w (stored_case (committed w) k).
Proof.
  intros Hk. split; [by apply getCaseById_returns|].
  intros c' w' (k' & Hk' & -> & _)%getCaseById_ok. congruence.
Qed.

(** X3.  What an engine operation returns is what [getCaseById] reads
    back: the case [createCase] or a field-group update returns is the
    case [getCaseById] returns for its id straight afterwards, and the
    case [transitionCase] returns is a part of it (its [id], [state],
    [title], [created_at] and [updated_at]). *)
Theorem engine_result_is_read_back (c : engine_call) (w w1 : world)
    (res : engine_result) :
  run_engine c w = (Ok res, w1) →
  succeeded res →
  ∃ c',
    reads_back (js_String (member (returned_case res) "id")) w1 c' ∧
    part_of (returned_case res) c' ∧
    match c with
    | Transition _ _ _ _ => True
    | _ => c' = returned_case res
    end.
Proof.
  intros Hrun Hs. pose proof (run_engine_recorded _ _ _ _ Hrun Hs) as Hrec.
  destruct c as [title description createdBy | id e | id eventType comment actorId],
    res as [x|[result|]]; try done; cbn [recorded returned_case] in *.
  - destruct Hrec as (title' & actor & _ & _ & _ & Hc & ->%Ok_inv & _).
    eexists. split; [apply (reads_back_stored _ (uuids w (2 + calls w)%nat))|].
    + cbn [member]. rewrite prop_detail_id. cbn [js_String]. apply uuids_canonical.
    + rewrite Hc, stored_case_put. split; [by cbn|done].
  - destruct Hrec as (k & Hk & (r0 & r1 & actor & _ & _ & _ & _ & _ & Hc & -> & _) & _).
    eexists. split; [apply (reads_back_stored _ k)|].
    + cbn [updated_case member]. rewrite prop_detail_id. cbn [js_String].
      by eapply uuid_in_canonical.
    + cbn [updated_case]. rewrite Hc, stored_case_put. split; [by cbn|done].
  - destruct Hrec as (k & Hk & r0 & et & actor & to & _ & _ & _ & _ & Hc & ->%Ok_inv & _).
    cbv zeta in Hc. eexists. split; [apply (reads_back_stored _ k)|].
    + change (member _ "id") with (PStr k). cbn [js_String]. by eapply uuid_in_canonical.
    + rewrite Hc, stored_case_put. split; [apply list_fields_part|done].
Qed.

(** ** What a form post stores *)

Lemma sem_update_person now fresh seq id k personName nhsNumber dobDay dobMonth dobYear
    actorId t rows t' r0 :
  sem now fresh seq (UpdatePerson id personName nhsNumber dobDay dobMonth dobYear actorId) t
    = inr (rows, t') →
  uuid_in id = Some k → cases t !! k = Some r0 →
  ∃ d m y actor,
    to_int4 dobDay = inr d ∧ to_int4 dobMonth = inr m ∧ to_int4 dobYear = inr y ∧
    to_text actorId = Some actor ∧
    t' = put_case t k (set_person r0 (to_text personName) (to_text nhsNumber) d m y actor now).
Proof.
  cbn [sem]. intros Hs Hk Hr0. rewrite (uuid_param_ok _ _ Hk) in Hs.
  destruct (to_int4 dobDay) as [|d]; [done|].
  destruct (to_int4 dobMonth) as [|m]; [done|].
  destruct (to_int4 dobYear) as [|y]; [done|].
  apply update_by_id_inv in Hs. rewrite Hr0 in Hs. destruct Hs as (r' & Hset & _ & ->).
  destruct (to_text actorId) as [a|]; cbn [not_null] in Hset; [|done].
  exists d, m, y, a. repeat split. congruence.
Qed.

Lemma sem_update_clinical now fresh seq id k symptomsDay symptomsMonth symptomsYear actorId
    t rows t' r0 :
  sem now fresh seq (UpdateClinical id symptomsDay symptomsMonth symptomsYear actorId) t
    = inr (rows, t') →
  uuid_in id = Some k → cases t !! k = Some r0 →
  ∃ d m y actor,
    to_int4 symptomsDay = inr d ∧ to_int4 symptomsMonth = inr m ∧
    to_int4 symptomsYear = inr y ∧ to_text actorId = Some actor ∧
    t' = put_case t k (set_clinical r0 d m y actor now).
Proof.
  cbn [sem]. intros Hs Hk Hr0. rewrite (uuid_param_ok _ _ Hk) in Hs.
  destruct (to_int4 symptomsDay) as [|d]; [done|].
  destruct (to_int4 symptomsMonth) as [|m]; [done|].
  destruct (to_int4 symptomsYear) as [|y]; [done|].
  apply update_by_id_inv in Hs. rewrite Hr0 in Hs. destruct Hs as (r' & Hset & _ & ->).
  destruct (to_text actorId) as [a|]; cbn [not_null] in Hset; [|done].
  exists d, m, y, a. repeat split. congruence.
Qed.

Lemma sem_update_location now fresh seq id k postcode organisation actorId t rows t' r0 :
  sem now fresh seq (UpdateLocation id postcode organisation actorId) t = inr (rows, t') →
  uuid_in id = Some k → cases t !! k = Some r0 →
  ∃ actor,
    to_text actorId = Some actor ∧
    t' = put_case t k (set_location r0 (to_text postcode) (to_text organisation) actor now).
Proof.
  cbn [sem]. intros Hs Hk Hr0. rewrite (uuid_param_ok _ _ Hk) in Hs.
  apply update_by_id_inv in Hs. rewrite Hr0 in Hs. destruct Hs as (r' & Hset & _ & ->).
  destruct (to_text actorId) as [a|]; cbn [not_null] in Hset; [|done].
  exists a. repeat split. congruence.
Qed.

Lemma stored_case_cases t t' id : cases t = cases t' → stored_case t id = stored_case t' id.
Proof. unfold stored_case. by intros ->. Qed.

Lemma stored_case_put_case t id r :
  stored_case (put_case t id r) id = VObj (row_obj (detail_fields id r)).
Proof. unfold stored_case. cbn [put_case cases]. by rewrite lookup_insert_eq. Qed.

(** A text that is not blank is stored and read back as it is. *)
Lemma stored_text_truthy s :
  truthy (PStr s) = true → of_text (to_text (js_or (PStr s) PNull)) = PStr s.
Proof. unfold js_or. by intros ->. Qed.

Lemma stored_text_or_null s :
  of_text (to_text (js_or (PStr s) PNull)) = js_or (PStr s) PNull.
Proof. unfold js_or. by destruct (truthy (PStr s)). Qed.

(** A number that is given and that an integer column holds is read back
    as it is. *)
Lemma stored_number body k d :
  truthy (number_or_null body k) = true →
  to_int4 (js_or (number_or_null body k) PNull) = inr d →
  of_int4 d = number_or_null body k.
Proof.
  unfold js_or. intros Ht. rewrite Ht. revert Ht. unfold number_or_null.
  destruct (js_Number _) as [z|]; [|done]. unfold js_or.
  destruct (truthy (PNum z)) eqn:Hz; [|done]. intros _. cbn [to_int4]. unfold int4_range.
  destruct (_ && _); [|done]. by intros [= <-].
Qed.

Lemma posted_case csrf_valid r w loc w1 :
  serve csrf_valid r w = (Ok (Redirect loc), w1) →
  ∃ id k,
    redirect_case r loc id ∧ uuid_in id = Some k ∧ form_accepted r = true ∧
    truthy_val (stored_case (committed w1) k) = true ∧
    form_stored r (stored_case (committed w1) k) ∧
    member (stored_case (committed w1) k) "updated_by" = PStr "local-user".
Proof.
  intros Hrun. destruct (serve_effect _ _ _ _ _ Hrun) as [_ Hout].
  destruct Hout as (c & w0 & res & Hacc & Hcall & _ & Hrun0 & Hsucc & ->).
  pose proof (run_engine_recorded _ _ _ _ Hrun0 Hsucc) as Hrec. clear Hrun Hrun0.
  destruct r; try discriminate; injection Hcall as <-;
    destruct res as [x|[result|]]; try done; cbn [recorded] in Hrec.
  - (* POST /cases/new *)
    destruct Hrec as (title' & actor & _ & [= <-] & [= <-] & Hc & ->%Ok_inv & _).
    eexists _, _. split; [reflexivity|]. split; [apply uuids_canonical|].
    split; [done|]. rewrite Hc, stored_case_put.
    split; [done|]. split; [|done]. cbn [form_stored].
    repeat split; try reflexivity. exact (stored_text_or_null _).
  - (* POST person *)
    destruct Hrec as (k & Hk & (r0 & r1 & actor & Hr0 & _) & (rows & t' & Hsem & Hc & _)).
    cbn [edit_stmt edit_actor default_arg] in Hsem.
    apply (sem_update_person _ _ _ _ k _ _ _ _ _ _ _ _ _ r0) in Hsem; [|done..].
    destruct Hsem as (d & m & y & a & Hd & Hm & Hy & [= <-] & ->).
    exists id, k. split; [reflexivity|]. split; [done|]. split; [done|].
    rewrite (stored_case_cases _ _ k Hc), stored_case_put_case.
    split; [done|]. split; [|done].
    cbn [form_accepted] in Hacc. apply negb_true_iff in Hacc.
    repeat match goal with H : _ || _ = false |- _ => apply orb_false_iff in H as [? ?] end.
    repeat match goal with H : negb _ = false |- _ => apply negb_false_iff in H end.
    cbn [form_stored]. repeat split.
    + by refine (stored_text_truthy _ _).
    + by refine (stored_text_truthy _ _).
    + by refine (stored_number _ _ _ _ _).
    + by refine (stored_number _ _ _ _ _).
    + by refine (stored_number _ _ _ _ _).
  - (* POST clinical *)
    destruct Hrec as (k & Hk & (r0 & r1 & actor & Hr0 & _) & (rows & t' & Hsem & Hc & _)).
    cbn [edit_stmt edit_actor default_arg] in Hsem.
    apply (sem_update_clinical _ _ _ _ k _ _ _ _ _ _ _ r0) in Hsem; [|done..].
    destruct Hsem as (d & m & y & a & Hd & Hm & Hy & [= <-] & ->).
    exists id, k. split; [reflexivity|]. split; [done|]. split; [done|].
    rewrite (stored_case_cases _ _ k Hc), stored_case_put_case.
    split; [done|]. split; [|done].
    cbn [form_accepted] in Hacc. apply negb_true_iff in Hacc.
    repeat match goal with H : _ || _ = false |- _ => apply orb_false_iff in H as [? ?] end.
    repeat match goal with H : negb _ = false |- _ => apply negb_false_iff in H end.
    cbn [form_stored]. repeat split; by refine (stored_number _ _ _ _ _).
  - (* POST location *)
    destruct Hrec as (k & Hk & (r0 & r1 & actor & Hr0 & _) & (rows & t' & Hsem & Hc & _)).
    cbn [edit_stmt edit_actor default_arg] in Hsem.
    apply (sem_update_location _ _ _ _ k _ _ _ _ _ _ r0) in Hsem; [|done..].
    destruct Hsem as (a & [= <-] & ->).
    exists id, k. split; [reflexivity|]. split; [done|]. split; [done|].
    rewrite (stored_case_cases _ _ k Hc), stored_case_put_case.
    split; [done|]. split; [|done].
    cbn [form_stored].
    split; [by refine (stored_text_truthy _ _) | exact (stored_text_or_null _)].
  - (* POST submit *)
    destruct Hrec as (k & Hk & r0 & et & actor & to & _ & _ & [= <-] & [= <-] & Hc & _).
    cbv zeta in Hc. exists id, k. split; [reflexivity|]. split; [done|]. split; [done|].
    rewrite Hc, stored_case_put. done.
  - (* POST approve *)
    destruct Hrec as (k & Hk & r0 & et & actor & to & _ & _ & [= <-] & _ & Hc & _).
    cbv zeta in Hc. exists id, k. split; [reflexivity|]. split; [done|]. split; [done|].
    rewrite Hc, stored_case_put. done.
  - (* POST return *)
    destruct Hrec as (k & Hk & r0 & et & actor & to & _ & _ & [= <-] & _ & Hc & _).
    cbv zeta in Hc. exists id, k. split; [reflexivity|]. split; [done|]. split; [done|].
    rewrite Hc, stored_case_put. done.
Qed.

(** X23.  What a form that was accepted holds is what is stored: after a
    form post that ends in a redirect, [getCaseById] returns for the case
    the texts the form held, trimmed, and the numbers of its date; a text
    that may be left blank ([description], [organisation]) reads back as
    [null] when it was; the case a [POST /cases/new] leads to is in DRAFT
    and a submitted case is in IN_REVIEW.  The case is last updated by
    "local-user". *)
Theorem posted_form_is_stored (csrf_valid : bool) (r : request) (w w1 : world)
    (loc : string) :
  serve csrf_valid r w = (Ok (Redirect loc), w1) →
  ∃ id c,
    redirect_case r loc id ∧ reads_back id w1 c ∧
    truthy_val c = true ∧ form_stored r c ∧
    member c "updated_by" = PStr "local-user".
Proof.
  intros Hrun. destruct (posted_case _ _ _ _ _ Hrun) as (id & k & Hid & Hk & _ & Ht & Hf & Hu).
  exists id, (stored_case (committed w1) k). by split; [|split; [apply reads_back_stored|]].
Qed.

(** ** The change summary of an edit *)

(** X9.  The change summary of the event a field-group update has written
    lists fields of that group only: the rows [buildChangedRows] makes of
    the event's [before] and [after] snapshots are labelled "Title" or
    "Description" for [updateCaseDetails], "Full name", "NHS number" or
    "Date of birth" for [updatePersonDetails], "Symptoms start date" for
    [updateClinicalDetails] and "Postcode" or "Organisation" for
    [updateLocationDetails]. *)
Theorem edit_summary_lists_own_group (id : string) (e : field_edit) (w w' : world)
    (res : update_result) :
  run_edit id e w = (Ok (Some res), w') →
  ∃ ev d,
    last (case_events (committed w')) = Some ev ∧
    e_event_data ev = Some d ∧
    Forall (λ row, key_text row ∈ group_labels e)
      (buildChangedRows (snapshot_or_empty (Some (before d)))
         (snapshot_or_empty (Some (after d)))).
Proof.
  intros Hrun. pose proof (wp_elim _ _ _ _ _ Hrun (run_edit_summary id e w)) as [_ Hrec].
  destruct Hrec as (k & _ & r0 & r1 & actor & Hr0 & Hkept & _ & _ & _ & Hc & _ & _).
  rewrite Hc. cbn [add_event case_events]. rewrite last_snoc.
  do 2 eexists. split; [reflexivity|]. split; [reflexivity|].
  cbn [before after]. rewrite snapshot_of_row.
  destruct (row_snapshot_kept k e r0 r1 Hkept) as (Hs & Hd & Hy).
  by apply buildChangedRows_labels.
Qed.

(** ** The date filters *)

Lemma js_and_truthy a b : truthy (js_and a b) = truthy a && truthy b.
Proof. unfold js_and. by destruct (truthy a) eqn:E. Qed.

Lemma js_or_truthy a b : truthy (js_or a b) = truthy a || truthy b.
Proof. unfold js_or. by destruct (truthy a) eqn:E. Qed.

Lemma formatDMY_falsy day month year :
  truthy day && truthy month && truthy year = false → formatDMY day month year = "".
Proof.
  intros H. unfold formatDMY.
  destruct (truthy day), (truthy month), (truthy year); done.
Qed.

(** X13.  The filters that print a date print nothing unless the case has
    all three parts of it: [formatPersonDob] gives the empty text whenever
    [hasDob] is false, and [formatSymptomsDate] whenever [hasSymptomsDate]
    is; so they do for a case that is [null] or [undefined], without
    throwing. *)
Theorem date_filters_need_all_parts (c : jsval) :
  (hasDob c = false → formatPersonDob c = "") ∧
  (hasSymptomsDate c = false → formatSymptomsDate c = "") ∧
  (truthy_val c = false →
   hasDob c = false ∧ hasSymptomsDate c = false ∧
   formatPersonDob c = "" ∧ formatSymptomsDate c = "").
Proof.
  split; [|split].
  - unfold hasDob, formatPersonDob. rewrite !js_and_truthy. apply formatDMY_falsy.
  - unfold hasSymptomsDate, formatSymptomsDate. rewrite !js_and_truthy. apply formatDMY_falsy.
  - by destruct c as [[]|].
Qed.

(** ** The task list *)

(** X14.  In the task list, "Check answers before submitting" is never
    shown as completed: it is in progress exactly when the three tasks
    before it are all completed, which is when [allComplete] holds, and
    not started otherwise.  "Add clinical details" is never in progress:
    it has one field, the symptoms date. *)
Theorem check_answers_follows_tasks (c : jsval) :
  ∃ person clinical location check,
    (task_list c).1 = [person; clinical; location; check] ∧
    item_status check ≠ completed ∧
    (item_status check = in_progress ↔
     item_status person = completed ∧ item_status clinical = completed ∧
     item_status location = completed) ∧
    (item_status check = not_started ↔ item_status check ≠ in_progress) ∧
    ((task_list c).2 = true ↔ item_status check = in_progress) ∧
    item_status clinical ≠ in_progress.
Proof.
  unfold task_list. cbv zeta. cbn [fst snd]. do 4 eexists. split; [reflexivity|].
  cbn [item_status]. unfold taskStatus, completed, in_progress, not_started.
  set (pc := truthy (js_and _ _)). set (ps := truthy (js_or (js_or _ _) _)).
  set (ls := truthy (js_or _ _)). clearbody pc ps ls.
  destruct pc, (hasSymptomsDate c), (truthy (member c "postcode")), ps, ls;
    cbn [andb]; repeat split; try done; try (by intros (? & ? & ?)); naive_solver.
Qed.

Lemma task_list_statuses c :
  item_status <$> (task_list c).1
  = [ taskStatus
        (truthy (member c "person_name") && truthy (member c "nhs_number") && hasDob c)
        (truthy (member c "person_name") || truthy (member c "nhs_number") || hasDob c);
      taskStatus (hasSymptomsDate c) (hasSymptomsDate c);
      taskStatus (truthy (member c "postcode"))
        (truthy (member c "postcode") || truthy (member c "organisation"));
      taskStatus false (task_list c).2 ].
Proof.
  unfold task_list. cbv zeta. cbn [fst snd fmap list_fmap item_status].
  by rewrite !js_and_truthy, !js_or_truthy.
Qed.

(** X26.  A case that has just been created has every task not started. *)
Theorem new_case_has_no_task_started (title description createdBy : prim) (w w' : world)
    (c : jsval) :
  createCase title description createdBy w = (Ok c, w') →
  item_status <$> (task_list c).1 = [ not_started; not_started; not_started; not_started ] ∧
  (task_list c).2 = false.
Proof.
  intros Hrun. pose proof (wp_elim _ _ _ _ _ Hrun (createCase_outcome _ _ _ w)) as Hrec.
  destruct Hrec as (title' & actor & _ & _ & _ & _ & ->%Ok_inv & _).
  split; reflexivity.
Qed.

Lemma hasDob_members c :
  truthy_val c = true →
  hasDob c = truthy (member c "dob_day") && truthy (member c "dob_month")
             && truthy (member c "dob_year").
Proof. intros Hc. unfold hasDob. rewrite !js_and_truthy. by destruct c as [[]|]. Qed.

Lemma hasSymptomsDate_members c :
  truthy_val c = true →
  hasSymptomsDate c = truthy (member c "symptoms_day") && truthy (member c "symptoms_month")
                      && truthy (member c "symptoms_year").
Proof. intros Hc. unfold hasSymptomsDate. rewrite !js_and_truthy. by destruct c as [[]|]. Qed.

(** X27.  A form that was accepted completes its task: after a post of the
    person, clinical or location form that ends in a redirect, the task
    list of the case, as [getCaseById] returns it, shows the form's task
    as completed. *)
Theorem accepted_form_completes_task (csrf_valid : bool) (r : request) (w w1 : world)
    (loc : string) (i : nat) :
  serve csrf_valid r w = (Ok (Redirect loc), w1) →
  task_of r = Some i →
  ∃ id c,
    case_of r = Some id ∧ reads_back id w1 c ∧
    item_status <$> (task_list c).1 !! i = Some completed.
Proof.
  intros Hrun Hi.
  destruct (posted_case _ _ _ _ _ Hrun) as (id & k & Hid & Hk & Hacc & Ht & Hf & _).
  exists id, (stored_case (committed w1) k).
  assert (case_of r = Some id) as Hcase.
  { destruct r; try discriminate; cbn [redirect_case case_of] in *; by subst. }
  split; [done|]. split; [by apply reads_back_stored|].
  rewrite <- list_lookup_fmap, task_list_statuses.
  destruct r; try discriminate; injection Hi as <-; cbn [lookup list_lookup];
    cbn [form_stored form_accepted] in Hf, Hacc; destruct_and!.
  - apply negb_true_iff in Hacc.
    repeat match goal with H : _ || _ = false |- _ => apply orb_false_iff in H as [? ?] end.
    repeat match goal with H : negb _ = false |- _ => apply negb_false_iff in H end.
    rewrite hasDob_members by done.
    repeat match goal with H : member _ _ = _ |- _ => rewrite H end.
    by repeat match goal with H : truthy _ = true |- _ => rewrite H end.
  - apply negb_true_iff in Hacc.
    repeat match goal with H : _ || _ = false |- _ => apply orb_false_iff in H as [? ?] end.
    repeat match goal with H : negb _ = false |- _ => apply negb_false_iff in H end.
    rewrite hasSymptomsDate_members by done.
    repeat match goal with H : member _ _ = _ |- _ => rewrite H end.
    by repeat match goal with H : truthy _ = true |- _ => rewrite H end.
  - repeat match goal with H : member _ "postcode" = _ |- _ => rewrite H end.
    by rewrite Hacc.
Qed.

(** ** Numbers in forms *)

(** X15.  A date part read from a form is [null] or a number other than
    zero, never a text: a field that is missing, empty, zero or not a
    number gives [null]. *)
Theorem number_or_null_is_null_or_nonzero (body : form) (k : string) :
  (number_or_null body k = PNull ∨ ∃ z, z ≠ 0 ∧ number_or_null body k = PNum z) ∧
  (body !! k = None → number_or_null body k = PNull) ∧
  (body !! k = Some "" → number_or_null body k = PNull) ∧
  (∀ s, body !! k = Some s → s ≠ "" →
        number_or_null body k
        = match StringToNumber s with
          | Some z => if z =? 0 then PNull else PNum z
          | None => PNull
          end).
Proof.
  unfold number_or_null, body_prop. split; [|split; [|split]].
  - destruct (js_Number _) as [z|]; [|by left]. unfold js_or. cbn [truthy].
    destruct (Z.eqb_spec z 0); cbn [negb]; [by left|]. right. by exists z.
  - by intros ->.
  - by intros ->.
  - intros s -> Hs. unfold js_or. cbn [truthy].
    destruct (String.eqb_spec s ""); [done|]. cbn [negb js_Number].
    destruct (StringToNumber s) as [z|]; [|done]. by destruct (z =? 0).
Qed.

(** ** The page an edit redirects to *)

Lemma getCaseEventById_found eventId w ev :
  quiet w 1 →
  filter (λ e, e_id e = eventId) (case_events (committed w)) = [ev] →
  getCaseEventById eventId w
  = (Ok (Some (event_js ev)),
     record (PoolQuery (SelectCaseEventById eventId)) None
       (set_store w (committed w) (working w) (event_seq w))).
Proof.
  intros Hq Hev. unfold getCaseEventById, bind, pool_query, run_pool.
  assert (faults w (calls w) = None) as F by (apply (Hq 0%nat); lia).
  rewrite F. cbn [sem]. by rewrite Hev.
Qed.

Lemma filter_fresh_id (evs : list event_row) (ev : event_row) :
  Forall (λ e, e_id e < e_id ev) evs →
  filter (λ e, e_id e = e_id ev) (evs ++ [ev])%list = [ev].
Proof.
  intros H. rewrite filter_app, filter_cons_True, filter_nil by done.
  assert (filter (λ e, e_id e = e_id ev) evs = []) as ->; [|done].
  induction H as [|e evs He _ IH]; [done|]. rewrite filter_cons_False by lia. exact IH.
Qed.

Lemma quiet_record c r w k :
  quiet w (S k) →
  quiet (record c r (set_store w (committed w) (working w) (event_seq w))) k.
Proof.
  intros Hq i Hi. cbn [record set_store faults calls].
  replace (i + S (calls w))%nat with (S i + calls w)%nat by lia. apply Hq. lia.
Qed.

(** X24.  The page an edit redirects to shows that edit: after a post of the
    person, clinical or location form that ends in a redirect, the redirect
    goes to the changes-saved page of the event the edit has written, and
    that page, when the store carries out its two reads, shows the rows
    [buildChangedRows] makes of the case as it was before the edit and as
    it is after, the case being the one the store reads the id of the
    path as.  (The ids of the events there were are below the next
    value of the sequence, as they are in every store the engine has
    filled.) *)
Theorem saved_changes_are_shown (csrf_valid csrf_valid' : bool) (r : request)
    (w w1 : world) (loc id : string) (e : field_edit) :
  serve csrf_valid r w = (Ok (Redirect loc), w1) →
  edit_of r = Some (id, e) →
  event_ids_fresh w →
  quiet w1 2 →
  loc = "/cases/" +:+ id +:+ "/changes-saved/" +:+ pretty (event_seq w) ∧
  ∃ k r0 r1 w2,
    uuid_in id = Some k ∧
    cases (committed w) !! k = Some r0 ∧
    cases (committed w1) !! k = Some r1 ∧
    serve csrf_valid' (GetChangesSaved id (event_seq w)) w1
    = (Ok (RenderChanges (buildChangedRows (row_snapshot k r0) (row_snapshot k r1))), w2).
Proof.
  intros Hrun He [_ Hfresh] Hq. destruct (serve_effect _ _ _ _ _ Hrun) as [_ Hout].
  destruct Hout as (c & w0 & res & _ & Hcall & [Hs1 Hs2] & Hrun0 & Hsucc & ->).
  pose proof (run_engine_recorded _ _ _ _ Hrun0 Hsucc) as Hrec.
  unfold edit_of in He. rewrite Hcall in He. destruct c as [| id' e' |]; try done.
  injection He as -> ->. destruct res as [|[result|]]; try done.
  destruct Hrec as (k & Hk & (r0 & r1 & actor & Hr0 & _ & _ & _ & _ & Hc & -> & _) & _).
  rewrite Hs1 in Hr0. rewrite Hs1, Hs2 in Hc. split.
  { destruct r; try discriminate; cbn [engine_call_of] in Hcall;
      injection Hcall as <-; cbn [redirect_to eventId js_String]; by rewrite Hs2. }
  assert (cases (committed w1) !! k = Some r1) as Hr1.
  { rewrite Hc. cbn [add_event put_case cases]. by rewrite lookup_insert_eq. }
  exists k, r0, r1. eexists. split; [done|]. split; [done|]. split; [done|].
  unfold serve, route, try_catch. cbn [is_post andb]. unfold bind at 1.
  rewrite (getCaseById_found id k w1 r1) by (try done; by eapply quiet_weaken; [|done]; lia).
  cbn [truthy_val negb]. unfold bind at 1.
  erewrite getCaseEventById_found; cycle 1.
  { by apply quiet_record. }
  { cbn [record set_store committed]. rewrite Hc. cbn [add_event put_case case_events].
    by apply (filter_fresh_id _ (EventRow (event_seq w) _ _ _ _ _ _ _ _)). }
  cbn [event_js ev_fields ev_event_data e_event_data e_case_id event_fields].
  change (prop (row_obj _) "case_id") with (PStr k).
  cbn [member]. rewrite prop_detail_id. cbn [js_String].
  rewrite String.eqb_refl. cbn [negb fmap option_fmap option_map before after ret].
  rewrite snapshot_of_row. reflexivity.
Qed.

(** ** Runs the store carries out *)






(** X2.  [createCase] without a title ([undefined] or [null]) is refused by
    the store, whose [title] column is NOT NULL: the insert fails with
    23502, the transaction is rolled back, the error is thrown and the
    tables are what they were. *)
Theorem createCase_needs_title (title description createdBy : prim) (w : world) :
  quiet w 4 →
  title = PUndefined ∨ title = PNull →
  ∃ w',
    createCase title description createdBy w = (Throw not_null_violation, w') ∧
    committed w' = committed w ∧
    log w' = (log w ++
              [ (Connect, None); (ClientQuery BEGIN, None);
                (ClientQuery (InsertCase title (js_or description PNull)
                                (default_arg createdBy (PStr "local-user"))),
                 Some not_null_violation);
                (ClientQuery ROLLBACK, None); (Release, None) ])%list.
Proof.
  intros Hq Ht.
  assert (wp (createCase title description createdBy)
            (λ r w', r = Throw not_null_violation ∧ committed w' = committed w ∧
                     log w' = (log w ++
                       [ (Connect, None); (ClientQuery BEGIN, None);
                         (ClientQuery (InsertCase title (js_or description PNull)
                                         (default_arg createdBy (PStr "local-user"))),
                          Some not_null_violation);
                         (ClientQuery ROLLBACK, None); (Release, None) ])%list) w) as H.
  { destruct w as [c wk seq n lg f clk u]. quiet_calls Hq. unfold createCase.
    wp_read. wp_read. wp_quiet.
    assert (∀ now fresh seq t,
              sem now fresh seq (InsertCase title (js_or description PNull)
                                   (default_arg createdBy (PStr "local-user"))) t
              = inl not_null_violation) as ->.
    { intros. cbn [sem]. by destruct Ht as [-> | ->]. }
    wsimpl. rewrite Q2. wsimpl. rewrite <- !app_assoc. done. }
  unfold wp in H. destruct (createCase title description createdBy w) as [r w'].
  cbn [fst snd] in H. destruct H as (-> & ? & ?). by exists w'.
Qed.

(** ** Forms that are accepted and forms that are not *)









(** ** Forms that are not accepted *)

Ltac rejected H :=
  lazymatch type of H with
  | negb _ = false => apply negb_false_iff in H
  | _ => idtac
  end.

Lemma reads_only_rejected r : form_accepted r = false → reads_only (route r).
Proof.
  intros Hacc. destruct r; try discriminate; cbn [form_accepted] in Hacc;
    unfold route; cbv zeta; rejected Hacc; rewrite Hacc; cbn [negb];
    repeat reads_only_step.
Qed.

(** X21.  A form that is not accepted reaches no engine call, whatever the
    store does: the store is left as it is and is only read.  When the case
    exists (the id of the path is a uuid, and the store holds a case under
    it) and the store carries out the read, the answer is 400 with the
    form's own page; a new-case form without a title is answered so without
    any call to the store. *)
Theorem rejected_form_reaches_no_engine (csrf_valid : bool) (r : request) (w : world) :
  form_accepted r = false →
  (same_store w (serve csrf_valid r w).2 ∧
   ∃ tr, log (serve csrf_valid r w).2 = (log w ++ tr)%list ∧ Forall is_pool_read tr) ∧
  (quiet w 1 →
   (∀ id, case_of r = Some id →
          ∃ k, uuid_in id = Some k ∧ is_Some (cases (committed w) !! k)) →
   (serve true r w).1 = Ok (Render 400 (form_view r))) ∧
  (case_of r = None → serve true r w = (Ok (Render 400 (form_view r)), w)).
Proof.
  intros Hacc. split; [|split].
  - unfold serve. destruct (is_post r && negb csrf_valid); [apply reads_only_ret|].
    apply reads_only_try_catch; [by apply reads_only_rejected|]. intros. apply reads_only_ret.
  - intros Hq Hcase.
    destruct r; try discriminate; cbn [form_accepted case_of] in *;
      try (destruct (Hcase _ eq_refl) as (k & Hk & r0 & Hr0));
      unfold serve, route, try_catch; cbn [is_post negb andb]; cbv zeta;
      rejected Hacc; rewrite Hacc; cbn [negb]; try reflexivity;
      unfold bind; rewrite (getCaseById_found _ k w r0) by done; reflexivity.
  - intros Hcase. destruct r; try discriminate; cbn [form_accepted] in Hacc.
    unfold serve, route, try_catch. cbn [is_post negb andb]. cbv zeta. by rewrite Hacc.
Qed.

(** ** The changes-saved page *)

Lemma getCaseEventById_ok eventId w ev w' :
  getCaseEventById eventId w = (Ok ev, w') →
  ev = event_js <$> head (filter (λ e, e_id e = eventId) (case_events (committed w))) ∧
  same_store w w'.
Proof.
  unfold getCaseEventById, bind.
  destruct (pool_query (SelectCaseEventById eventId) w) as [[rows|e] w1] eqn:Hq; [|done].
  apply pool_query_ok in Hq as (t' & Hsem & Hc & Hs). cbn [sem] in Hsem.
  injection Hsem as <- <-. intros [= <- <-]. split; [|by split].
  by destruct (filter _ _).
Qed.

(** X25.  The changes-saved page of a case shows an event of that case or
    nothing: when [GET /cases/:id/changes-saved/:eventId] renders its
    page, the id of the path is a uuid, the case exists, the event with
    that id exists and is an event of that case, and the rows shown are
    those [buildChangedRows] makes of the event's [before] and [after]
    snapshots (of two empty snapshots when the event holds none).  An event
    of another case is never shown. *)
Theorem changes_page_shows_own_event (csrf_valid : bool) (id : string) (eventId : Z)
    (w w' : world) (rows : list summary_row) :
  serve csrf_valid (GetChangesSaved id eventId) w = (Ok (RenderChanges rows), w') →
  ∃ k r e,
    uuid_in id = Some k ∧ cases (committed w) !! k = Some r ∧
    e ∈ case_events (committed w) ∧ e_id e = eventId ∧ e_case_id e = k ∧
    rows = buildChangedRows (snapshot_or_empty (before <$> e_event_data e))
             (snapshot_or_empty (after <$> e_event_data e)).
Proof.
  unfold serve, route, try_catch. cbn [is_post andb]. unfold bind at 1.
  destruct (getCaseById id w) as [[c|err] w1] eqn:Hget; [|done].
  apply getCaseById_ok in Hget as (k & Hk & -> & [Hs _]). unfold stored_case.
  destruct (cases (committed w) !! k) as [r|] eqn:Hr; [|done].
  cbn [truthy_val negb]. unfold bind at 1.
  destruct (getCaseEventById eventId w1) as [[ev|err] w2] eqn:Hev; [|done].
  apply getCaseEventById_ok in Hev as [-> _]. rewrite Hs.
  destruct (filter _ _) as [|e evs] eqn:Hf; [done|]. cbn [head fmap option_fmap option_map].
  assert (e ∈ filter (λ e, e_id e = eventId) (case_events (committed w))) as Hin
    by (rewrite Hf; left).
  apply list_elem_of_filter in Hin as [Hid Hin].
  cbn [event_js ev_fields ev_event_data].
  change (prop (row_obj (event_fields e)) "case_id") with (PStr (e_case_id e)).
  cbn [member]. rewrite prop_detail_id. cbn [js_String].
  destruct (String.eqb_spec (e_case_id e) k) as [Hcase|]; [|done]. cbn [negb ret].
  intros [= <- <-]. by exists k, r, e.
Qed.

End Program.

(** * The claims on sample runs *)

(** C1 on a run: a location edit of the sample case. *)
Lemma edit_writes_one_snapshot_event_witness :
  ∃ k, uuid_in (Host := sample_host) sample_id = Some k ∧
       snapshot_event_written k sample_edit sample_world
         (run_edit (host := sample_host) sample_id sample_edit sample_world).2.
Proof.
  eapply (edit_writes_one_snapshot_event (host := sample_host) sample_id sample_edit
            sample_world).
  vm_compute. reflexivity.
Defined.

(** C8 on the same run. *)
Lemma edit_keeps_other_columns_witness :
  other_columns_kept sample_id sample_edit sample_case sample_world
    (run_edit (host := sample_host) sample_id sample_edit sample_world).2.
Proof.
  eapply (edit_keeps_other_columns (host := sample_host) sample_id sample_id sample_edit
            sample_world).
  - vm_compute. reflexivity.
  - vm_compute. reflexivity.
  - vm_compute. reflexivity.
Defined.

(** C2 (as amended) on a run: the event insert of an edit deadlocks after
    the case row was updated; the edit throws the deadlock and the tables
    are as before. *)
Lemma store_failure_rolls_back_witness :
  (run_engine (host := sample_host) (Edit sample_id sample_edit) failing_world).1
    = Throw deadlock ∧
  failure_rolled_back failing_world
    (run_engine (host := sample_host) (Edit sample_id sample_edit) failing_world).1
    (run_engine (host := sample_host) (Edit sample_id sample_edit) failing_world).2.
Proof.
  split; [vm_compute; reflexivity|].
  apply (store_failure_rolls_back (host := sample_host) (Edit sample_id sample_edit)).
  vm_compute. reflexivity.
Defined.

(** C3 (as amended) on a run: APPROVE on the sample case, which is in DRAFT. *)
Lemma state_follows_event_type_witness :
  ∃ to w' r1,
    target_state (PStr "APPROVE") (PStr "DRAFT") = PStr to ∧
    transitionCase (host := sample_host) sample_id (PStr "APPROVE") PUndefined PUndefined
      sample_world
    = (Ok (VObj (row_obj (list_fields sample_id r1))), w') ∧
    cases (committed w') !! sample_id = Some r1 ∧ c_state r1 = to.
Proof.
  apply (proj1 (proj2 (proj2 (state_follows_event_type (host := sample_host))))
           sample_id sample_id (PStr "APPROVE") PUndefined PUndefined sample_world
           sample_case "APPROVE" "local-user").
  - intros i _. reflexivity.
  - vm_compute. reflexivity.
  - vm_compute. reflexivity.
  - reflexivity.
  - reflexivity.
Defined.


(** C6 on a run: the sample case is submitted. *)
Lemma submit_draft_for_review_witness :
  ∃ w' r1 ev,
    transitioned (host := sample_host) sample_id sample_id (PStr "SUBMIT_FOR_REVIEW")
      PUndefined PUndefined sample_case "IN_REVIEW" sample_world w' ∧
    cases (committed w') !! sample_id = Some r1 ∧ c_state r1 = "IN_REVIEW" ∧
    case_events (committed w') = (case_events (committed sample_world) ++ [ev])%list ∧
    e_case_id ev = sample_id ∧ e_event_type ev = "SUBMIT_FOR_REVIEW" ∧
    e_from_state ev = Some "DRAFT" ∧ e_to_state ev = Some "IN_REVIEW".
Proof.
  apply (submit_draft_for_review (host := sample_host) sample_id sample_id PUndefined
           PUndefined sample_world sample_case "local-user").
  - intros i _. reflexivity.
  - vm_compute. reflexivity.
  - vm_compute. reflexivity.
  - reflexivity.
  - reflexivity.
Defined.


(** C5 on a run: the approve route on the sample case. *)
Lemma review_routes_never_change_state_witness :
  ∃ w', transitioned (host := sample_host) sample_id sample_id (PStr "REVIEW_APPROVE")
          PUndefined (PStr "local-user") sample_case "DRAFT" sample_world w' ∧
        serve (host := sample_host) true (PostApprove sample_id) sample_world
        = (Ok (Redirect ("/cases/" +:+ sample_id +:+ "/approved")), w').
Proof.
  apply (proj1 (review_routes_never_change_state (host := sample_host)) sample_id sample_id
           sample_world sample_case).
  - intros i _. reflexivity.
  - vm_compute. reflexivity.
  - vm_compute. reflexivity.
Defined.

(** C9 on two snapshots: only the year of birth differs.  There is one
    row for the date of birth, which shows both dates in full, and none
    for the symptoms date. *)
Lemma buildChangedRows_date_groups_witness :
  rows_labelled "Date of birth"
    (buildChangedRows (host := sample_host) sample_snapshot
       (<["dob_year" := PNum 1991]> sample_snapshot))
  = [ SummaryRow "Date of birth"
        ("<span class=" +:+ dquote +:+ "govuk-body" +:+ dquote +:+ ">From: " +:+
         "15 March 1990" +:+
         "</span><br><span class=" +:+ dquote +:+ "govuk-body" +:+ dquote +:+
         ">To: " +:+ "15 March 1991" +:+ "</span>") ] ∧
  rows_labelled "Symptoms start date"
    (buildChangedRows (host := sample_host) sample_snapshot
       (<["dob_year" := PNum 1991]> sample_snapshot))
  = [].
Proof.
  destruct (buildChangedRows_date_groups (host := sample_host) sample_snapshot
              (<["dob_year" := PNum 1991]> sample_snapshot)) as (Hdob & Hsymptoms & _).
  rewrite Hdob, Hsymptoms. vm_compute. split; reflexivity.
Defined.

(** * The claims that fail *)

(** C2 as stated fails: the event insert of an edit deadlocks, and the
    connection is lost when the rollback is asked for.  The caller gets the
    error of the rollback, not the deadlock. *)
Lemma rollback_error_replaces_first :
  ¬ reraised_unmodified (host := sample_host).
Proof.
  intros H.
  pose proof (H (Edit sample_id sample_edit) lost_world
                (run_engine (host := sample_host) (Edit sample_id sample_edit) lost_world).2
                (run_engine (host := sample_host) (Edit sample_id sample_edit) lost_world).1
                (log (run_engine (host := sample_host) (Edit sample_id sample_edit)
                        lost_world).2)
                (InsertEvent sample_id (PStr "EDIT_LOCATION") (PStr "DRAFT") (PStr "local-user")
                   PNull
                   (Some (EventData
                            (pickCaseSnapshot (VObj (row_obj (all_fields sample_id sample_case))))
                            (pickCaseSnapshot
                               (VObj (row_obj (detail_fields sample_id sample_updated)))))))
                deadlock
                [ (ClientQuery ROLLBACK, Some connection_failure); (Release, None) ]
                ltac:(vm_compute; reflexivity) ltac:(reflexivity)
                ltac:(vm_compute; reflexivity)) as E.
  vm_compute in E. discriminate E.
Qed.

(** C3 as stated fails: a new case is approved straight from DRAFT, and the
    approved case is then submitted, which moves it out of APPROVED. *)
Lemma illegal_transitions_occur :
  ¬ only_legal_transitions (host := sample_host) ∧
  ¬ approved_is_terminal (host := sample_host).
Proof.
  set (create := Create (PStr "Flu cluster") PUndefined PUndefined).
  set (approve := Transition sample_id (PStr "APPROVE") PUndefined PUndefined).
  set (submit := Transition sample_id (PStr "SUBMIT_FOR_REVIEW") PUndefined PUndefined).
  set (w1 := (run_engine (host := sample_host) create empty_world).2).
  set (w2 := (run_engine (host := sample_host) approve w1).2).
  assert (reachable (host := sample_host) w1) as R1.
  { apply reachable_step, reachable_empty. }
  assert (reachable (host := sample_host) w2) as R2.
  { by apply reachable_step. }
  split.
  - intros H.
    destruct (H approve w1 sample_id
                (new_case "Flu cluster" None "local-user" 1002)
                (set_state (new_case "Flu cluster" None "local-user" 1002)
                   "APPROVED" "local-user" 1009)
                R1 ltac:(vm_compute; reflexivity) ltac:(vm_compute; reflexivity))
      as [E|L].
    + discriminate E.
    + revert L. apply (bool_decide_eq_false_1 _). vm_compute. reflexivity.
  - intros H.
    pose proof (H submit w2 sample_id
                  (set_state (new_case "Flu cluster" None "local-user" 1002)
                     "APPROVED" "local-user" 1009)
                  (set_state (set_state (new_case "Flu cluster" None "local-user" 1002)
                                "APPROVED" "local-user" 1009)
                     "IN_REVIEW" "local-user" 1016)
                  R2 ltac:(vm_compute; reflexivity) ltac:(vm_compute; reflexivity)
                  eq_refl) as E.
    discriminate E.
Qed.



(** C10 as stated fails: the snapshot of a case without a title holds
    [null] for it, one of JavaScript's own two null values, so there is no
    marker outside those two that every missing value is normalized to. *)
Lemma absent_marker_is_null :
  member (pickCaseSnapshot (VObj ∅)) "title" = PNull ∧
  ambient_null (member (pickCaseSnapshot (VObj ∅)) "title") ∧
  ¬ absent_marker_is_not_ambient.
Proof.
  split; [reflexivity|]. split; [by right|].
  intros (marker & Hm & H). apply Hm.
  rewrite <- (H (VObj ∅) (list_to_map (snapshot_fields (VObj ∅))) "title").
  - by right.
  - reflexivity.
  - compute_done.
  - by left.
Qed.

(** * Runs of the specification's examples *)

(** A case is created, its person details are entered and it is submitted:
    the case ends in IN_REVIEW with three events, CREATE into DRAFT,
    EDIT_PERSON within DRAFT and SUBMIT_FOR_REVIEW from DRAFT to IN_REVIEW. *)
Example create_edit_submit :
  let run :=
    serve_all (host := sample_host)
      [ (true, PostCasesNew (list_to_map [("title", "Flu cluster")]));
        (true, PostPerson sample_id
                 (list_to_map [ ("person_name", "Jane Doe"); ("nhs_number", "123 456 7890");
                                ("dob_day", "1"); ("dob_month", "1"); ("dob_year", "1990") ]));
        (true, PostSubmit sample_id) ]
      empty_world in
  run.1 = Ok [ Redirect ("/cases/" +:+ sample_id);
               Redirect ("/cases/" +:+ sample_id +:+ "/changes-saved/2");
               Redirect ("/cases/" +:+ sample_id +:+ "/submitted") ] ∧
  (λ r, (c_state r, c_person_name r)) <$> cases (committed run.2) !! sample_id
    = Some ("IN_REVIEW", Some "Jane Doe") ∧
  (λ e, (e_id e, e_event_type e, e_from_state e, e_to_state e))
    <$> case_events (committed run.2)
    = [ (1, "CREATE", None, Some "DRAFT");
        (2, "EDIT_PERSON", Some "DRAFT", Some "DRAFT");
        (3, "SUBMIT_FOR_REVIEW", Some "DRAFT", Some "IN_REVIEW") ].
Proof. vm_compute. repeat split; reflexivity. Qed.

(** Only the year of birth differs: one row, for the whole date. *)
Example year_changed_one_row :
  key_text <$> buildChangedRows (host := sample_host) sample_snapshot
                 (<["dob_year" := PNum 1991]> sample_snapshot)
  = [ "Date of birth" ].
Proof. vm_compute. reflexivity. Qed.

(** Nothing differs, or absent meets the empty string: no row. *)
Example nothing_changed_no_row :
  buildChangedRows (host := sample_host) sample_snapshot sample_snapshot = [] ∧
  buildChangedRows (host := sample_host) {[ "title" := PNull ]} {[ "title" := PStr "" ]} = [].
Proof. vm_compute. split; reflexivity. Qed.

(** A form post without a valid CSRF token does not reach its route. *)
Example csrf_rejected :
  serve (host := sample_host) false (PostApprove sample_id) sample_world
  = (Ok (Send 403 "Invalid CSRF token. Refresh the page and try again."), sample_world).
Proof. reflexivity. Qed.

(** * The rest of the program on sample runs *)


(** X2 on a run: a case without a title. *)
Lemma createCase_needs_title_witness :
  ∃ w',
    createCase (host := sample_host) PNull PUndefined PUndefined empty_world
    = (Throw not_null_violation, w') ∧
    committed w' = committed empty_world ∧
    log w' = [ (Connect, None); (ClientQuery BEGIN, None);
               (ClientQuery (InsertCase PNull PNull (PStr "local-user")),
                Some not_null_violation);
               (ClientQuery ROLLBACK, None); (Release, None) ].
Proof.
  apply (createCase_needs_title (host := sample_host) PNull PUndefined PUndefined empty_world).
  - intros i _. reflexivity.
  - by right.
Defined.

(** X3 on a run: the sample case is submitted and read back. *)
Lemma engine_result_is_read_back_witness :
  ∃ c',
    reads_back (host := sample_host) sample_id
      (run_engine (host := sample_host)
         (Transition sample_id (PStr "SUBMIT_FOR_REVIEW") PUndefined PUndefined)
         sample_world).2 c' ∧
    part_of (VObj (row_obj (list_fields sample_id sample_submitted))) c' ∧
    True.
Proof.
  refine (engine_result_is_read_back (host := sample_host)
            (Transition sample_id (PStr "SUBMIT_FOR_REVIEW") PUndefined PUndefined)
            sample_world
            (run_engine (host := sample_host)
               (Transition sample_id (PStr "SUBMIT_FOR_REVIEW") PUndefined PUndefined)
               sample_world).2
            (ReturnedCase (VObj (row_obj (list_fields sample_id sample_submitted))))
            _ _).
  - vm_compute. reflexivity.
  - reflexivity.
Defined.

(** X4 on a run: the list of the sample store. *)
Lemma listCases_latest_fifty_witness :
  ∃ rows w',
    listCases (host := sample_host) sample_world = (Ok rows, w') ∧
    same_store sample_world w' ∧
    ∃ l : list (string * case_row),
      rows = Rows ((λ kv, row_obj (list_fields kv.1 kv.2)) <$> l) ∧
      List.length l = (50 `min` size (cases (committed sample_world)))%nat ∧
      NoDup l.*1 ∧
      (∀ id r, (id, r) ∈ l → cases (committed sample_world) !! id = Some r) ∧
      Sorted created_desc l ∧
      (∀ id r kv, cases (committed sample_world) !! id = Some r → (id, r) ∉ l → kv ∈ l →
                  c_created_at r ≤ c_created_at kv.2).
Proof.
  apply (listCases_latest_fifty (host := sample_host) sample_world).
  intros i _. reflexivity.
Defined.

(** X5 on a run: the timeline of the sample case. *)
Lemma listCaseEvents_of_case_witness :
  ∃ rows w',
    listCaseEvents (host := sample_host) sample_id sample_world = (Ok rows, w') ∧
    same_store sample_world w' ∧
    ∃ l : list event_row,
      rows = EventRows ((λ e, EventObj (row_obj (event_fields e)) None) <$> l) ∧
      l ≡ₚ events_of (committed sample_world) sample_id ∧
      Sorted occurred_desc l.
Proof.
  apply (listCaseEvents_of_case (host := sample_host) sample_id sample_id sample_world).
  - vm_compute. reflexivity.
  - intros i _. reflexivity.
Defined.

(** X9 on a run: the location edit of the sample case. *)
Lemma edit_summary_lists_own_group_witness :
  ∃ ev d,
    last (case_events
            (committed (run_edit (host := sample_host) sample_id sample_edit sample_world).2))
    = Some ev ∧
    e_event_data ev = Some d ∧
    Forall (λ row, key_text row ∈ group_labels sample_edit)
      (buildChangedRows (host := sample_host) (snapshot_or_empty (Some (before d)))
         (snapshot_or_empty (Some (after d)))).
Proof.
  apply (edit_summary_lists_own_group (host := sample_host) sample_id sample_edit sample_world
           (run_edit (host := sample_host) sample_id sample_edit sample_world).2
           (UpdateResult (VObj (row_obj (detail_fields sample_id sample_updated)))
              (PStr "2"))).
  vm_compute. reflexivity.
Defined.

(** X10 on two snapshots: the title differs. *)
Lemma buildChangedRows_simple_fields_witness :
  rows_labelled (label "title")
    (buildChangedRows (host := sample_host) {[ "title" := PStr "Flu" ]}
       {[ "title" := PStr "Flu cluster" ]})
  = [ SummaryRow "Title"
        ("<span class=" +:+ dquote +:+ "govuk-body" +:+ dquote +:+ ">From: " +:+ "Flu" +:+
         "</span><br><span class=" +:+ dquote +:+ "govuk-body" +:+ dquote +:+
         ">To: " +:+ "Flu cluster" +:+ "</span>") ].
Proof.
  rewrite (buildChangedRows_simple_fields (host := sample_host) {[ "title" := PStr "Flu" ]}
             {[ "title" := PStr "Flu cluster" ]} "title").
  - vm_compute. reflexivity.
  - vm_compute. by repeat constructor.
Defined.

(** X12 on two snapshots: only [updated_by] differs. *)
Lemma buildChangedRows_unchanged_witness :
  buildChangedRows (host := sample_host) sample_snapshot
    (<["updated_by" := PStr "reviewer"]> sample_snapshot)
  = [].
Proof.
  apply (buildChangedRows_unchanged (host := sample_host)).
  apply Forall_forall. vm_compute. repeat constructor.
Defined.

(** X16 on a run: the page of the sample case. *)
Lemma get_requests_only_read_witness :
  same_store sample_world (serve (host := sample_host) false (GetCase sample_id) sample_world).2 ∧
  ∃ tr,
    log (serve (host := sample_host) false (GetCase sample_id) sample_world).2
    = (log sample_world ++ tr)%list ∧
    Forall is_pool_read tr.
Proof.
  apply (get_requests_only_read (host := sample_host) false (GetCase sample_id) sample_world).
  reflexivity.
Defined.

(** X17 on a run: a location form without a postcode. *)
Lemma only_redirects_write_witness :
  (∃ resp, Ok (Render 400 "case-edit-location.njk") = Ok resp) ∧
  ((∀ loc, Ok (Render 400 "case-edit-location.njk") ≠ Ok (Redirect loc)) →
   committed (serve (host := sample_host) true (PostLocation sample_id ∅) sample_world).2
   = committed sample_world).
Proof.
  apply (only_redirects_write (host := sample_host) true (PostLocation sample_id ∅)
           sample_world).
  vm_compute. reflexivity.
Defined.

(** X18 on a run: the sample case is submitted. *)
Lemma redirect_means_committed_witness :
  ∃ c w0 res,
    form_accepted (host := sample_host) (PostSubmit sample_id) = true ∧
    engine_call_of (host := sample_host) (PostSubmit sample_id) = Some c ∧
    same_store sample_world w0 ∧
    run_engine (host := sample_host) c w0
    = (Ok res, (serve (host := sample_host) true (PostSubmit sample_id) sample_world).2) ∧
    recorded (host := sample_host) c w0 res (serve (host := sample_host) true (PostSubmit sample_id) sample_world).2 ∧
    ("/cases/" +:+ sample_id +:+ "/submitted") = redirect_to (host := sample_host) (PostSubmit sample_id) res.
Proof.
  apply (redirect_means_committed (host := sample_host) true (PostSubmit sample_id)
           sample_world).
  vm_compute. reflexivity.
Defined.

(** X20 on two runs: the page of a case that does not exist, and the page
    under an id that is not a uuid. *)
Lemma unknown_case_not_found_witness :
  (∃ w' resp,
     serve (host := sample_host) true (GetCase missing_id) sample_world = (Ok resp, w') ∧
     committed w' = committed sample_world ∧ resp = not_found) ∧
  (∃ w' resp,
     serve (host := sample_host) true (GetCase malformed_id) sample_world = (Ok resp, w') ∧
     committed w' = committed sample_world ∧ ∃ text, resp = Send 500 text).
Proof.
  split.
  - apply (unknown_case_not_found (host := sample_host) (GetCase missing_id) missing_id
             sample_world).
    + reflexivity.
    + intros k Hk. vm_compute in Hk. injection Hk as <-. vm_compute. reflexivity.
    + intros i _. reflexivity.
  - apply (unknown_case_not_found (host := sample_host) (GetCase malformed_id) malformed_id
             sample_world).
    + reflexivity.
    + intros k Hk. vm_compute in Hk. discriminate Hk.
    + intros i _. reflexivity.
Defined.

(** X21 on a run: a new-case form without a title. *)
Lemma rejected_form_reaches_no_engine_witness :
  serve (host := sample_host) true (PostCasesNew ∅) sample_world
  = (Ok (Render 400 "cases-new.njk"), sample_world).
Proof.
  refine (proj2 (proj2 (rejected_form_reaches_no_engine (host := sample_host) true
                          (PostCasesNew ∅) sample_world _)) _).
  - vm_compute. reflexivity.
  - reflexivity.
Defined.


(** X23 on a run: the location form of the sample case. *)
Lemma posted_form_is_stored_witness :
  ∃ id c,
    redirect_case (PostLocation sample_id sample_location_form)
      ("/cases/" +:+ sample_id +:+ "/changes-saved/2") id ∧
    reads_back (host := sample_host) id
      (serve (host := sample_host) true (PostLocation sample_id sample_location_form)
         sample_world).2 c ∧
    truthy_val c = true ∧
    form_stored (host := sample_host) (PostLocation sample_id sample_location_form) c ∧
    member c "updated_by" = PStr "local-user".
Proof.
  apply (posted_form_is_stored (host := sample_host) true
           (PostLocation sample_id sample_location_form) sample_world).
  vm_compute. reflexivity.
Defined.

(** X24 on a run: the location form of the sample case and its page. *)
Lemma saved_changes_are_shown_witness :
  "/cases/" +:+ sample_id +:+ "/changes-saved/2"
  = "/cases/" +:+ sample_id +:+ "/changes-saved/" +:+ pretty (event_seq sample_world) ∧
  ∃ k r0 r1 w2,
    uuid_in (Host := sample_host) sample_id = Some k ∧
    cases (committed sample_world) !! k = Some r0 ∧
    cases (committed
             (serve (host := sample_host) true (PostLocation sample_id sample_location_form)
                sample_world).2) !! k = Some r1 ∧
    serve (host := sample_host) false (GetChangesSaved sample_id (event_seq sample_world))
      (serve (host := sample_host) true (PostLocation sample_id sample_location_form)
         sample_world).2
    = (Ok (RenderChanges (buildChangedRows (host := sample_host) (row_snapshot k r0)
                            (row_snapshot k r1))), w2).
Proof.
  apply (saved_changes_are_shown (host := sample_host) true false
           (PostLocation sample_id sample_location_form) sample_world _ _ sample_id
           (LocationDetails (PStr "AB1 2CD") (PStr "") (PStr "local-user"))).
  - vm_compute. reflexivity.
  - vm_compute. reflexivity.
  - split; vm_compute; repeat constructor. set_solver.
  - intros i _. reflexivity.
Defined.

(** X25 on a run: the page of the sample case's CREATE event, which holds
    no snapshots. *)
Lemma changes_page_shows_own_event_witness :
  ∃ k r e,
    uuid_in (Host := sample_host) sample_id = Some k ∧
    cases (committed sample_world) !! k = Some r ∧
    e ∈ case_events (committed sample_world) ∧ e_id e = 1 ∧ e_case_id e = k ∧
    [] = buildChangedRows (host := sample_host)
           (snapshot_or_empty (before <$> e_event_data e))
           (snapshot_or_empty (after <$> e_event_data e)).
Proof.
  apply (changes_page_shows_own_event (host := sample_host) false sample_id 1 sample_world
           (serve (host := sample_host) false (GetChangesSaved sample_id 1) sample_world).2).
  vm_compute. reflexivity.
Defined.

(** X26 on a run: the case created in the empty store. *)
Lemma new_case_has_no_task_started_witness :
  item_status
    <$> (task_list (host := sample_host) (VObj (row_obj (detail_fields sample_id
                                     (new_case "Flu cluster" None "local-user" 1002))))).1
  = [ not_started; not_started; not_started; not_started ] ∧
  (task_list (host := sample_host) (VObj (row_obj (detail_fields sample_id
                               (new_case "Flu cluster" None "local-user" 1002))))).2
  = false.
Proof.
  apply (new_case_has_no_task_started (host := sample_host) (PStr "Flu cluster") PUndefined
           PUndefined empty_world
           (createCase (host := sample_host) (PStr "Flu cluster") PUndefined PUndefined
              empty_world).2).
  vm_compute. reflexivity.
Defined.

(** X27 on a run: the location form of the sample case. *)
Lemma accepted_form_completes_task_witness :
  ∃ id c,
    case_of (PostLocation sample_id sample_location_form) = Some id ∧
    reads_back (host := sample_host) id
      (serve (host := sample_host) true (PostLocation sample_id sample_location_form)
         sample_world).2 c ∧
    item_status <$> (task_list (host := sample_host) c).1 !! 2%nat = Some completed.
Proof.
  apply (accepted_form_completes_task (host := sample_host) true
           (PostLocation sample_id sample_location_form) sample_world _
           ("/cases/" +:+ sample_id +:+ "/changes-saved/2")).
  - vm_compute. reflexivity.
  - reflexivity.
Defined.
